(** * BrighterMerchant: route planner and reconciliation state machine

    A shallow embedding of [src/algorithm/pathfinder.ts] (class
    [Pathfinder]), of the bounty catalogue [src/algorithm/bounties.ts] and
    of the acceptance / signalling logic of [OCRProcessor] in
    [src/demo/electron-demo.ts], with the properties stated about them.

    Conventions.
    - Times ("distance" in the source) are whole seconds, modelled in [Z].
    - Rewards ([kp]) are exact rationals ([Qc]); a quotient [kp / distance]
      is a [JsNum], which keeps the two IEEE special cases the source can
      reach ([0/0] and [x/0]) but rounds nothing.
    - A JavaScript array is a [list]; [a[i]] is [a !! i] and [a[i] = x] is
      [<[i:=x]> a]; [Map] and index-keyed objects are [gmap]. *)

From stdpp Require Import base option list sorting gmap gmultiset numbers strings.
From Stdlib Require Import ZArith QArith Qcanon Lia Permutation.

Open Scope Z_scope.

(** ** The bounty catalogue ([bounties.ts]) *)

Inductive Market : Set :=
  | GREENGROCERS
  | TOY_STALL
  | SOAP_SHOP
  | BUTCHERS_STALL
  | SOUVENIR_STALL
  | HALLIGS_STREET_FOOD
  | CHEESE_SHOP
  | HENDERSONS_MEAT
  | PENNYS_CLOCKWORK
  | CLOCK_STALL
  | FORTUNEHOLD_FARM
  | HERMARS_HOMEWARE
  | JENNALERS_WINES
  | VICTOR_T_CYCLOPS
  | VASE_STALL
  | CHEF
  | FRANCESCAS_FRUIT_STALL
  | SNILCHS_WATCHES
  | BOGGS_ANTIQUES
  | TEXTILES_STALL
  | CANDICES_CANDLES
  | JANESSAS_DELICACIES
  | BERTS_GALLERY
  | TOMMY_SHOES_WINES
  | MONOCLE_MARKET
  | PEARL_STALL.

Inductive BountyKey : Set :=
  | CARROTS
  | SOAP
  | RIBS
  | MEAT_WRAP
  | BEEF_JOINT
  | CLOCKWORK_SHEEP
  | PORCELAIN_DOLL
  | PLATES
  | PIN_BADGE
  | PUMPKIN
  | PIZZA
  | BANANAS
  | TIN_POCKET_WATCH
  | HOMESPUN_CLOTH
  | RAINBOW_CHEESE
  | ARGANIAN_WINE
  | OAK_PATTERNED_VASE
  | SCENTED_CANDLE
  | UNICORN_DUST
  | LANDSCAPE_PAINTING
  | CARRIAGE_CLOCK
  | SPECTACLES
  | SHARPSEED_WINE
  | RUG
  | CAVIAR
  | BATH_SALTS
  | RED_CABBAGE
  | IVORY_SWIRL_PEARL
  | TOMATOES
  | STEAK
  | BURGER
  | HAM_LEG
  | CLOCKWORK_DRAGON
  | SNOW_GLOBE
  | CUPS
  | POSTCARDS
  | RHUBARB
  | CURRY
  | ORANGES
  | PRECISE_POCKET_WATCH
  | SILK
  | OLD_RARG
  | FARGUST_WINE
  | STRIPED_VASE
  | TEA_LIGHTS
  | UNICORN_HAIR
  | PORTRAIT_PAINTING
  | PENDULUM_CLOCK
  | MONOCLE
  | TOPHILL_WINE
  | ANTIQUE_BOOK
  | TRUFFLES.

Record BountyDef : Set := mkBounty {
  name : string;
  level : nat;
  kp : Qc;
  seller : Market;
  buyer : Market;
}.

Open Scope string_scope.

Definition bountyData (bounty : BountyKey) : BountyDef :=
  match bounty with
  | CARROTS => mkBounty "Carrots" 0%nat (Q2Qc (9 # 1)) GREENGROCERS TOY_STALL
  | SOAP => mkBounty "Soap" 0%nat (Q2Qc (8 # 1)) SOAP_SHOP BUTCHERS_STALL
  | RIBS => mkBounty "Ribs" 2%nat (Q2Qc (6 # 1)) BUTCHERS_STALL SOUVENIR_STALL
  | MEAT_WRAP => mkBounty "MeatWrap" 4%nat (Q2Qc (6 # 1)) HALLIGS_STREET_FOOD CHEESE_SHOP
  | BEEF_JOINT => mkBounty "BeefJoint" 6%nat (Q2Qc (6 # 1)) HENDERSONS_MEAT HALLIGS_STREET_FOOD
  | CLOCKWORK_SHEEP => mkBounty "ClockworkSheep" 8%nat (Q2Qc (6 # 1)) PENNYS_CLOCKWORK CLOCK_STALL
  | PORCELAIN_DOLL => mkBounty "PorcelainDoll" 12%nat (Q2Qc (8 # 1)) TOY_STALL FORTUNEHOLD_FARM
  | PLATES => mkBounty "Plates" 16%nat (Q2Qc (8 # 1)) HERMARS_HOMEWARE JENNALERS_WINES
  | PIN_BADGE => mkBounty "PinBadge" 23%nat (Q2Qc (8 # 1)) SOUVENIR_STALL VICTOR_T_CYCLOPS
  | PUMPKIN => mkBounty "Pumpkin" 28%nat (Q2Qc (8 # 1)) FORTUNEHOLD_FARM VASE_STALL
  | PIZZA => mkBounty "Pizza" 35%nat (Q2Qc (9 # 1)) CHEF FRANCESCAS_FRUIT_STALL
  | BANANAS => mkBounty "Bananas" 40%nat (Q2Qc (9 # 1)) FRANCESCAS_FRUIT_STALL PENNYS_CLOCKWORK
  | TIN_POCKET_WATCH => mkBounty "TinPocketWatch" 49%nat (Q2Qc (10 # 1)) SNILCHS_WATCHES BOGGS_ANTIQUES
  | HOMESPUN_CLOTH => mkBounty "HomespunCloth" 54%nat (Q2Qc (7 # 1)) TEXTILES_STALL CLOCK_STALL
  | RAINBOW_CHEESE => mkBounty "RainbowCheese" 61%nat (Q2Qc (7 # 1)) CHEESE_SHOP HENDERSONS_MEAT
  | ARGANIAN_WINE => mkBounty "ArganianWine" 66%nat (Q2Qc (9 # 1)) JENNALERS_WINES VASE_STALL
  | OAK_PATTERNED_VASE => mkBounty "OakPatternedVase" 75%nat (Q2Qc (7 # 1)) VASE_STALL HENDERSONS_MEAT
  | SCENTED_CANDLE => mkBounty "ScentedCandle" 80%nat (Q2Qc (8 # 1)) CANDICES_CANDLES SOAP_SHOP
  | UNICORN_DUST => mkBounty "UnicornDust" 87%nat (Q2Qc (7 # 1)) VICTOR_T_CYCLOPS JANESSAS_DELICACIES
  | LANDSCAPE_PAINTING => mkBounty "Painting" 92%nat (Q2Qc (6 # 1)) BERTS_GALLERY TOMMY_SHOES_WINES
  | CARRIAGE_CLOCK => mkBounty "CarriageClock" 101%nat (Q2Qc (8 # 1)) CLOCK_STALL PENNYS_CLOCKWORK
  | SPECTACLES => mkBounty "Spectacles" 106%nat (Q2Qc (8 # 1)) MONOCLE_MARKET CANDICES_CANDLES
  | SHARPSEED_WINE => mkBounty "SharpseedWine" 113%nat (Q2Qc (5 # 1)) TOMMY_SHOES_WINES JANESSAS_DELICACIES
  | RUG => mkBounty "Rug" 118%nat (Q2Qc (6 # 1)) BOGGS_ANTIQUES HERMARS_HOMEWARE
  | CAVIAR => mkBounty "Caviar" 127%nat (Q2Qc (4 # 1)) JANESSAS_DELICACIES BOGGS_ANTIQUES
  | BATH_SALTS => mkBounty "BathSalts" 132%nat (Q2Qc (8 # 1)) SOAP_SHOP MONOCLE_MARKET
  | RED_CABBAGE => mkBounty "Cabbage" 124%nat (Q2Qc (8 # 1)) GREENGROCERS PEARL_STALL
  | IVORY_SWIRL_PEARL => mkBounty "SwirlPearl" 129%nat (Q2Qc (6 # 1)) PEARL_STALL GREENGROCERS
  | TOMATOES => mkBounty "Tomatoes" 139%nat (Q2Qc (8 # 1)) GREENGROCERS CHEF
  | STEAK => mkBounty "Steak" 144%nat (Q2Qc (7 # 1)) BUTCHERS_STALL HALLIGS_STREET_FOOD
  | BURGER => mkBounty "Burger" 153%nat (Q2Qc (53 # 10)) HALLIGS_STREET_FOOD JENNALERS_WINES
  | HAM_LEG => mkBounty "HamLeg" 158%nat (Q2Qc (6 # 1)) HENDERSONS_MEAT TOY_STALL
  | CLOCKWORK_DRAGON => mkBounty "ClockworkDragon" 165%nat (Q2Qc (75 # 10)) PENNYS_CLOCKWORK CHEESE_SHOP
  | SNOW_GLOBE => mkBounty "SnowGlobe" 170%nat (Q2Qc (8 # 1)) TOY_STALL TOMMY_SHOES_WINES
  | CUPS => mkBounty "Cups" 179%nat (Q2Qc (65 # 10)) HERMARS_HOMEWARE SOUVENIR_STALL
  | POSTCARDS => mkBounty "Postcards" 184%nat (Q2Qc (5 # 1)) SOUVENIR_STALL TEXTILES_STALL
  | RHUBARB => mkBounty "Rhubarb" 191%nat (Q2Qc (8 # 1)) FORTUNEHOLD_FARM SOAP_SHOP
  | CURRY => mkBounty "Curry" 196%nat (Q2Qc (9 # 1)) CHEF SNILCHS_WATCHES
  | ORANGES => mkBounty "Oranges" 216%nat (Q2Qc (115 # 10)) FRANCESCAS_FRUIT_STALL TEXTILES_STALL
  | PRECISE_POCKET_WATCH => mkBounty "PrecisePocketWatch" 233%nat (Q2Qc (85 # 10)) SNILCHS_WATCHES GREENGROCERS
  | SILK => mkBounty "Silk" 255%nat (Q2Qc (8 # 1)) TEXTILES_STALL HERMARS_HOMEWARE
  | OLD_RARG => mkBounty "OldRarg" 272%nat (Q2Qc (9 # 1)) CHEESE_SHOP CHEF
  | FARGUST_WINE => mkBounty "FargustWine" 300%nat (Q2Qc (68 # 10)) JENNALERS_WINES BERTS_GALLERY
  | STRIPED_VASE => mkBounty "StripedVase" 317%nat (Q2Qc (62 # 10)) VASE_STALL BERTS_GALLERY
  | TEA_LIGHTS => mkBounty "TeaLights" 339%nat (Q2Qc (75 # 10)) CANDICES_CANDLES FORTUNEHOLD_FARM
  | UNICORN_HAIR => mkBounty "UnicornHair" 356%nat (Q2Qc (10 # 1)) VICTOR_T_CYCLOPS SNILCHS_WATCHES
  | PORTRAIT_PAINTING => mkBounty "PortraitPainting" 384%nat (Q2Qc (6 # 1)) BERTS_GALLERY CANDICES_CANDLES
  | PENDULUM_CLOCK => mkBounty "PendulumClock" 400%nat (Q2Qc (105 # 10)) CLOCK_STALL FRANCESCAS_FRUIT_STALL
  | MONOCLE => mkBounty "Monocle" 423%nat (Q2Qc (85 # 10)) MONOCLE_MARKET VICTOR_T_CYCLOPS
  | TOPHILL_WINE => mkBounty "TophillWine" 439%nat (Q2Qc (75 # 10)) TOMMY_SHOES_WINES GREENGROCERS
  | ANTIQUE_BOOK => mkBounty "AntiqueBook" 467%nat (Q2Qc (6 # 1)) BOGGS_ANTIQUES BUTCHERS_STALL
  | TRUFFLES => mkBounty "Truffles" 484%nat (Q2Qc (5 # 1)) JANESSAS_DELICACIES MONOCLE_MARKET
  end.

Close Scope string_scope.

(** [BountyStatus]: NOT_STARTED = 0, IN_PROGRESS = 1, COMPLETED = 2. *)
Inductive BountyStatus : Set := NOT_STARTED | IN_PROGRESS | COMPLETED.

#[global] Instance BountyStatus_eq_dec : EqDecision BountyStatus.
Proof. solve_decision. Defined.

#[global] Instance Market_eq_dec : EqDecision Market.
Proof. solve_decision. Defined.

#[global] Instance BountyKey_eq_dec : EqDecision BountyKey.
Proof. solve_decision. Defined.

#[global] Instance BountyStatus_countable : Countable BountyStatus.
Proof.
  refine (inj_countable'
    (λ s, match s with NOT_STARTED => 0%nat | IN_PROGRESS => 1%nat | COMPLETED => 2%nat end)
    (λ n, match n with 0%nat => NOT_STARTED | 1%nat => IN_PROGRESS | _ => COMPLETED end) _).
  by intros [].
Defined.

(** ** JavaScript numbers, as far as the source needs them

    [Num q] is a finite number, [Inf true] and [Inf false] are
    [+Infinity] and [-Infinity].  Every comparison with [NaN] is false. *)
Inductive JsNum : Set := NaN | Inf (positive : bool) | Num (q : Qc).

Definition js_of_Z (z : Z) : JsNum := Num (Qc_of_Z z).

Definition Qc_ltb (x y : Qc) : bool := bool_decide (x < y)%Qc.

(** [a / b] *)
Definition js_div (a b : JsNum) : JsNum :=
  match a, b with
  | Num x, Num y =>
      if decide (y = 0%Qc) then
        if decide (x = 0%Qc) then NaN else Inf (Qc_ltb 0 x)
      else Num (x / y)%Qc
  | Num _, Inf _ => Num 0%Qc
  | Inf p, Num y => Inf (if Qc_ltb y 0 then negb p else p)
  | _, _ => NaN
  end.

(** [a * b] *)
Definition js_mul (a b : JsNum) : JsNum :=
  match a, b with
  | Num x, Num y => Num (x * y)%Qc
  | Inf p, Num y | Num y, Inf p =>
      if decide (y = 0%Qc) then NaN else Inf (if Qc_ltb y 0 then negb p else p)
  | Inf p, Inf q => Inf (if q then p else negb p)
  | _, _ => NaN
  end.

(** [a < b] *)
Definition js_lt (a b : JsNum) : bool :=
  match a, b with
  | Num x, Num y => Qc_ltb x y
  | Num _, Inf p => p
  | Inf p, Num _ => negb p
  | Inf p, Inf q => negb p && q
  | _, _ => false
  end.

(** [a > b] *)
Definition js_gt (a b : JsNum) : bool := js_lt b a.

(** [a === 0] *)
Definition js_is_zero (a : JsNum) : bool :=
  match a with Num x => bool_decide (x = 0%Qc) | _ => false end.

(** ** Locations ([nodes.ts]) and the distance oracle ([gps.ts]) *)

Record Portal : Set := mkPortal { portal_node : Z; teleportTime : Z }.

(** Modelled from the spec: [nodes.ts] is not part of the sources, so the
    node numbers of the markets, of the bounty board and of the two portals,
    and the portals' fixed traversal times, are the fields of a table the
    planner is parameterised by ("nodes = locations + teleport portals;
    portal nodes carry a fixed traversal-time cost"). *)
Record Nodes : Set := mkNodes {
  market_node : Market → Z;
  bountyBoard_node : Z;
  CRENOPOLIS_MARKET : Portal;
  CRENOPOLIS_OUTSKIRTS : Portal;
}.

(** The [name] / [location] strings of the source: which place an action
    happens at. *)
Inductive Location : Set :=
  | AtMarket (m : Market)
  | AtBountyBoard
  | AtCrenopolisMarket
  | AtCrenopolisOutskirts.

Module Gps.
(** What [gps.distance(from, to)] returns. *)
Record result : Set := mk { distance : Z; path : list Z }.
End Gps.

(** Modelled from the spec: [gps.ts] is not part of the sources; the oracle
    is the function [gps.distance(from, to) -> {distance, path}].  The first
    argument is [None] for the [null] that the start state carries as its
    [previousNode]. *)
Definition GPS : Set := option Z → Z → Gps.result.

(** ** Actions and search states *)

Inductive ActionType : Set := buy | sell | teleport | return_.

Module Action.
Record t : Set := mk {
  type : ActionType;
  item : option BountyKey;
  location : Location;
  distance : Z;
}.
End Action.

Module SearchState.
Record t : Set := mk {
  distance : Z;
  previousNode : option Z;
  currentNode : Z;
  bountyStates : list BountyStatus;
  actions : list Action.t;
}.
End SearchState.

Module Route.
(** [FindBestRouteResult] *)
Record t : Set := mk { actions : list Action.t; distance : Z }.
End Route.

#[global] Instance ActionType_eq_dec : EqDecision ActionType.
Proof. solve_decision. Defined.

(** ** The priority queue

    [@datastructures-js/priority-queue] is a third-party heap; the planner
    only relies on its interface, which is what this class fixes: a queue
    holds a finite bag of states, [pq_dequeue] removes one whose [distance]
    is least.  Which of several least states comes out is left open. *)
Class PriorityQueue (Q : Type) := {
  pq_new : Q;
  pq_enqueue : SearchState.t → Q → Q;
  pq_dequeue : Q → option (SearchState.t * Q);
  pq_elements : Q → list SearchState.t;
  pq_new_elements : pq_elements pq_new = [];
  pq_enqueue_elements s q : pq_elements (pq_enqueue s q) ≡ₚ s :: pq_elements q;
  pq_dequeue_None q : pq_dequeue q = None → pq_elements q = [];
  pq_dequeue_Some q s q' :
    pq_dequeue q = Some (s, q') →
    pq_elements q ≡ₚ s :: pq_elements q' ∧
    Forall (λ s', SearchState.distance s ≤ SearchState.distance s') (pq_elements q');
}.

(** ** [class Pathfinder] *)

Definition includeTeleportSteps : bool := true.
Definition inventorySpace : Z := 24.
Definition timeToBuy : Z := 3.
Definition timeToSell : Z := 4.

(** [Number.MAX_SAFE_INTEGER] *)
Definition MAX_SAFE_INTEGER : Z := 2 ^ 53 - 1.

Module Stop.
(** The locals one iteration of the search loop mutates while it sells
    and buys at the dequeued state's node. *)
Record t : Set := mk {
  distance : Z;
  numItemsBought : nat;
  numItemsSold : nat;
  bountyStates : list BountyStatus;
  actions : list Action.t;
}.
End Stop.

(** What one iteration of the [while] loop does: go round again, or
    [return]. *)
Inductive Step (Q : Type) : Type :=
  | Continue (pq : Q) (visited : gmap (Z * list BountyStatus) Z)
  | Return (route : Route.t).
Arguments Continue {Q}.
Arguments Return {Q}.

(** A run of [findBestRoute]: what it returns ([None] is [null]), unless the
    loop was cut short. *)
Inductive Outcome : Set :=
  | Returned (route : option Route.t)
  | OutOfFuel.

(** [#canPurchaseMoreItems] *)
Definition canPurchaseMoreItems (bountyStates : list BountyStatus) : bool :=
  let availableSpace :=
    foldl (λ availableSpace state,
             if decide (state = IN_PROGRESS) then availableSpace - 6
             else availableSpace)
          inventorySpace bountyStates in
  bool_decide (6 ≤ availableSpace).

(** [#deliveriesCompleted] *)
Definition deliveriesCompleted (bountyStates : list BountyStatus) : bool :=
  forallb (λ state, bool_decide (state = COMPLETED)) bountyStates.

(** [bounties.filter((b, i) => bountyStates[i] === status)] *)
Definition withStatus (status : BountyStatus) (bounties : list BountyKey)
    (bountyStates : list BountyStatus) : list BountyKey :=
  (filter (λ p, p.2 = status) (zip bounties bountyStates)).*1.

Section Pathfinder.
Context (nodes : Nodes) (gps : GPS).
Context {Q : Type} `{!PriorityQueue Q}.

Definition teleportTo (p : Portal) (l : Location) (currentDistance : Z) : Action.t :=
  Action.mk teleport None l (currentDistance + teleportTime p).

(** [#addTravelSteps].  [includeWalkingSteps] is the constant [false] of
    the class, so the last branch of the loop pushes nothing. *)
Definition addTravelSteps (actions : list Action.t) (startNode : option Z)
    (endNode : Z) : list Action.t :=
  let path := Gps.path (gps startNode endNode) in
  if decide (length path < 2)%nat then actions else
  let currentDistance :=
    match last actions with Some a => Action.distance a | None => 0 end in
  foldl (λ actions node,
           if includeTeleportSteps
              && bool_decide (node = portal_node (CRENOPOLIS_MARKET nodes)) then
             actions ++ [teleportTo (CRENOPOLIS_MARKET nodes) AtCrenopolisMarket currentDistance]
           else if includeTeleportSteps
              && bool_decide (node = portal_node (CRENOPOLIS_OUTSKIRTS nodes)) then
             actions ++ [teleportTo (CRENOPOLIS_OUTSKIRTS nodes) AtCrenopolisOutskirts currentDistance]
           else actions)
        actions (take (length path - 2) (drop 1 path)).

Definition buyerNode (bounty : BountyKey) : Z := market_node nodes (buyer (bountyData bounty)).
Definition sellerNode (bounty : BountyKey) : Z := market_node nodes (seller (bountyData bounty)).

(** The first [for] loop: sell everything we can at the current location.
    [i] is the loop index, [rest] is [bounties.slice(i)]. *)
Fixpoint sellLoop (previousNode : option Z) (currentNode : Z) (i : nat)
    (rest : list BountyKey) (s : Stop.t) : Stop.t :=
  match rest with
  | [] => s
  | bounty :: rest =>
      let s :=
        if decide (currentNode ≠ buyerNode bounty) then s
        else if decide (Stop.bountyStates s !! i ≠ Some IN_PROGRESS) then s
        else
          let actions :=
            if decide (Stop.numItemsBought s + Stop.numItemsSold s = 0)%nat
            then addTravelSteps (Stop.actions s) previousNode currentNode
            else Stop.actions s in
          let numItemsSold := S (Stop.numItemsSold s) in
          let distance := Stop.distance s + timeToSell in
          Stop.mk distance (Stop.numItemsBought s) numItemsSold
            (<[i := COMPLETED]> (Stop.bountyStates s))
            (actions ++ [Action.mk sell (Some bounty)
                           (AtMarket (buyer (bountyData bounty))) distance])
      in
      sellLoop previousNode currentNode (S i) rest s
  end.

(** The second [for] loop: buy everything we can at the current location;
    a full inventory leaves the loop. *)
Fixpoint buyLoop (previousNode : option Z) (currentNode : Z) (i : nat)
    (rest : list BountyKey) (s : Stop.t) : Stop.t :=
  match rest with
  | [] => s
  | bounty :: rest =>
      if negb (canPurchaseMoreItems (Stop.bountyStates s)) then s
      else
        let s :=
          if decide (currentNode ≠ sellerNode bounty) then s
          else if decide (Stop.bountyStates s !! i ≠ Some NOT_STARTED) then s
          else
            let actions :=
              if decide (Stop.numItemsBought s + Stop.numItemsSold s = 0)%nat
              then addTravelSteps (Stop.actions s) previousNode currentNode
              else Stop.actions s in
            let distance :=
              if decide (Stop.numItemsBought s = 0)%nat
              then Stop.distance s + timeToBuy else Stop.distance s in
            let numItemsBought := S (Stop.numItemsBought s) in
            Stop.mk distance numItemsBought (Stop.numItemsSold s)
              (<[i := IN_PROGRESS]> (Stop.bountyStates s))
              (actions ++ [Action.mk buy (Some bounty)
                             (AtMarket (seller (bountyData bounty))) distance])
        in
        buyLoop previousNode currentNode (S i) rest s
  end.

(** One [forEach] body of the two "enqueue next ... locations" blocks. *)
Definition enqueueNext (bestDistance : Z) (currentNode distance : Z)
    (bountyStates : list BountyStatus) (actions : list Action.t)
    (nextNode : Z) (pq : Q) : Q :=
  let nextDistance := Gps.distance (gps (Some currentNode) nextNode) in
  let newDistance := distance + nextDistance in
  if decide (newDistance < bestDistance) then
    pq_enqueue (SearchState.mk newDistance (Some currentNode) nextNode bountyStates actions) pq
  else pq.

Definition enqueueSuccessors (bounties : list BountyKey) (bestDistance : Z)
    (currentNode distance : Z) (bountyStates : list BountyStatus)
    (actions : list Action.t) (pq : Q) : Q :=
  let pq :=
    if canPurchaseMoreItems bountyStates then
      foldl (λ pq bounty,
               enqueueNext bestDistance currentNode distance bountyStates actions
                 (sellerNode bounty) pq)
            pq (withStatus NOT_STARTED bounties bountyStates)
    else pq in
  foldl (λ pq bounty,
           enqueueNext bestDistance currentNode distance bountyStates actions
             (buyerNode bounty) pq)
        pq (withStatus IN_PROGRESS bounties bountyStates).

(** The body of [while (pq.size() > 0)], from the dequeued state on.
    [bestDistance] is only assigned immediately before a [return], so
    inside the loop it is the [threshold]. *)
Definition visit (bounties : list BountyKey) (bestDistance : Z) (roundTrip : bool)
    (state : SearchState.t) (pq : Q) (visited : gmap (Z * list BountyStatus) Z) : Step Q :=
  let originalDistance := SearchState.distance state in
  let previousNode := SearchState.previousNode state in
  let currentNode := SearchState.currentNode state in
  if decide (bestDistance ≤ originalDistance) then Continue pq visited else
  let visitedKey := (currentNode, SearchState.bountyStates state) in
  if match visited !! visitedKey with
     | Some d => bool_decide (d ≤ originalDistance)
     | None => false
     end
  then Continue pq visited else
  let visited := <[visitedKey := originalDistance]> visited in
  let s := Stop.mk originalDistance 0 0 (SearchState.bountyStates state)
             (SearchState.actions state) in
  let s := sellLoop previousNode currentNode 0 bounties s in
  let s := buyLoop previousNode currentNode 0 bounties s in
  let distance := Stop.distance s in
  let bountyStates := Stop.bountyStates s in
  let actions := Stop.actions s in
  if decide (bestDistance ≤ distance) then Continue pq visited else
  let enqueue distance actions :=
    Continue (enqueueSuccessors bounties bestDistance currentNode distance bountyStates actions pq)
             visited in
  if deliveriesCompleted bountyStates then
    if roundTrip && bool_decide (currentNode ≠ bountyBoard_node nodes) then
      let distance :=
        distance + Gps.distance (gps (Some currentNode) (bountyBoard_node nodes)) in
      let actions := addTravelSteps actions (Some currentNode) (bountyBoard_node nodes) in
      let actions := actions ++ [Action.mk return_ None AtBountyBoard distance] in
      if decide (distance < bestDistance) then Return (Route.mk actions distance)
      else enqueue distance actions
    else
      if decide (distance < bestDistance) then Return (Route.mk actions distance)
      else enqueue distance actions
  else enqueue distance actions.

Fixpoint search (fuel : nat) (bounties : list BountyKey) (bestDistance : Z)
    (roundTrip : bool) (pq : Q) (visited : gmap (Z * list BountyStatus) Z) : Outcome :=
  match fuel with
  | O => OutOfFuel
  | S fuel =>
      match pq_dequeue pq with
      | None => Returned None
      | Some (state, pq) =>
          match visit bounties bestDistance roundTrip state pq visited with
          | Continue pq visited => search fuel bounties bestDistance roundTrip pq visited
          | Return route => Returned (Some route)
          end
      end
  end.

Definition startState (bounties : list BountyKey) : SearchState.t :=
  SearchState.mk 0 None (bountyBoard_node nodes)
    (replicate (length bounties) NOT_STARTED) [].

(** [findBestRoute(bounties, gps, threshold, roundTrip)], with the number
    of loop iterations it may take. *)
Definition findBestRoute (fuel : nat) (bounties : list BountyKey) (threshold : Z)
    (roundTrip : bool) : Outcome :=
  search fuel bounties threshold roundTrip (pq_enqueue (startState bounties) pq_new) ∅.

End Pathfinder.

(** ** A priority queue to run the planner with: an unsorted list, from which
    [pq_dequeue] takes the first of the states of least distance. *)
Module ListQueue.

Fixpoint extractMin (s : SearchState.t) (l : list SearchState.t)
    : SearchState.t * list SearchState.t :=
  match l with
  | [] => (s, [])
  | s' :: l' =>
      let (m, r) := extractMin s' l' in
      if decide (SearchState.distance s ≤ SearchState.distance m)
      then (s, s' :: l') else (m, s :: r)
  end.

Definition dequeue (l : list SearchState.t) : option (SearchState.t * list SearchState.t) :=
  match l with
  | [] => None
  | s :: l => Some (extractMin s l)
  end.

#[global, refine] Instance queue : PriorityQueue (list SearchState.t) := {
  pq_new := [];
  pq_enqueue s q := q ++ [s];
  pq_dequeue := dequeue;
  pq_elements q := q;
}.
Proof.
  - done.
  - intros s q. by rewrite Permutation_app_comm.
  - by intros [|??].
  - assert (∀ l s m r, extractMin s l = (m, r) →
      s :: l ≡ₚ m :: r ∧
      Forall (λ s', SearchState.distance m ≤ SearchState.distance s') (s :: l)) as Hspec.
    { induction l as [|s' l IH]; intros s m r; simpl.
      - intros [= <- <-]. split; [done|]. repeat constructor. lia.
      - destruct (extractMin s' l) as [m' r'] eqn:E.
        destruct (IH _ _ _ E) as [Hp Hmin].
        case_decide as Hle; intros [= <- <-].
        + split; [done|]. constructor; [lia|].
          eapply Forall_impl; [exact Hmin|]. simpl. intros; lia.
        + split.
          * rewrite Hp. apply Permutation_swap.
          * constructor; [lia|done]. }
    intros [|s0 q] s q'; [done|]. simpl. intros [= E].
    destruct (Hspec _ _ _ _ E) as [Hp Hmin]. split; [done|].
    rewrite Hp in Hmin. by inversion Hmin.
Defined.

End ListQueue.

(** ** [findBestBounties] *)

(** [a - b] *)
Definition js_sub (a b : JsNum) : JsNum :=
  match a, b with
  | Num x, Num y => Num (x - y)%Qc
  | Inf p, Num _ => Inf p
  | Num _, Inf q => Inf (negb q)
  | Inf p, Inf q => if bool_decide (p = q) then NaN else Inf p
  | _, _ => NaN
  end.

(** [Array.prototype.sort(compare)]: a stable sort; [a] is moved behind [b]
    when [compare(a, b) > 0]. *)
Fixpoint jsInsert {A} (compare : A → A → JsNum) (a : A) (sorted : list A) : list A :=
  match sorted with
  | [] => [a]
  | b :: sorted' =>
      if js_gt (compare a b) (Num 0%Qc) then b :: jsInsert compare a sorted'
      else a :: sorted
  end.

Definition jsSort {A} (compare : A → A → JsNum) (l : list A) : list A :=
  foldr (jsInsert compare) [] l.

Module ComboData.
Record t : Set := mk {
  combo : list BountyKey;
  kp : Qc;
  estimatedDistance : Z;
  estimatedEfficiency : JsNum;
}.
End ComboData.

Module Solution.
(** [FindBestBountiesResult], with the [kp] the function adds. *)
Record t : Set := mk {
  bounties : list BountyKey;
  actions : list Action.t;
  distance : Z;
  kp : Qc;
}.
End Solution.

(** [pruningOptions]; [None] is [Infinity]. *)
Record PruningOptions : Set := mkPruning {
  maxCombinations : option nat;
  maxEvaluations : option nat;
  pruningThreshold : Qc;
}.

(** The defaults of [findBestBounties], and the options [computeFindBest]
    passes after [forceOptimalRecalculation]. *)
Definition defaultPruning : PruningOptions :=
  mkPruning (Some 400%nat) (Some 150%nat) (Q2Qc (95 # 100)).
Definition optimalPruning : PruningOptions := mkPruning None None 1%Qc.

(** A run of [findBestBounties]: its result, a [TypeError], or a planner
    loop cut short. *)
Inductive Run (A : Type) : Type :=
  | Ok (a : A)
  | Throws
  | Unfinished.
Arguments Ok {A}.
Arguments Throws {A}.
Arguments Unfinished {A}.

(** [kp / distance] of a kept result. *)
Definition efficiency (r : Solution.t) : JsNum :=
  js_div (Num (Solution.kp r)) (js_of_Z (Solution.distance r)).

(** [(a, b) => b.kp / b.distance - a.kp / a.distance] *)
Definition byEfficiency (a b : Solution.t) : JsNum := js_sub (efficiency b) (efficiency a).

(** [(a, b) => b.estimatedEfficiency - a.estimatedEfficiency] *)
Definition byEstimatedEfficiency (a b : ComboData.t) : JsNum :=
  js_sub (ComboData.estimatedEfficiency b) (ComboData.estimatedEfficiency a).

(** Modelled from the spec: [combinations.ts] is not part of the sources.
    "Produces every k-subset of the input, where duplicate task ids are
    treated as distinguishable slots for enumeration purposes": the
    sub-lists of length [k], in the order of the input. *)
Fixpoint combinations {A} (items : list A) (k : nat) : list (list A) :=
  match k, items with
  | O, _ => [[]]
  | S _, [] => []
  | S k', x :: items' => (cons x <$> combinations items' k') ++ combinations items' k
  end.

Section FindBestBounties.
Context (nodes : Nodes) (gps : GPS).
Context {Q : Type} `{!PriorityQueue Q}.

(** [#estimateMinDistance] *)
Definition estimateMinDistance (combo : list BountyKey) : Z :=
  let uniqueLocations :=
    remove_dups (combo ≫= λ bounty, [sellerNode nodes bounty; buyerNode nodes bounty]) in
  Z.of_nat (length uniqueLocations) * 10
  + Z.of_nat (length combo) * (timeToBuy + timeToSell).

Definition comboDataOf (combo : list BountyKey) : ComboData.t :=
  let kp := foldl (λ acc bounty, (acc + kp (bountyData bounty))%Qc) 0%Qc combo in
  let estimatedDistance := estimateMinDistance combo in
  ComboData.mk combo kp estimatedDistance (js_div (Num kp) (js_of_Z estimatedDistance)).

(** The [for (const {combo, kp, estimatedEfficiency} of comboData)] loop;
    [Ok results] is what it leaves in [results], by running off the end
    or by [break]. *)
Fixpoint evaluate (fuel : nat) (roundTrip : bool) (numResults : nat)
    (options : PruningOptions) (comboData : list ComboData.t)
    (results : list Solution.t) (evaluated : nat) : Run (list Solution.t) :=
  match comboData with
  | [] => Ok results
  | data :: comboData =>
      let full := bool_decide (numResults ≤ length results)%nat in
      let prune :=
        if Qc_ltb (pruningThreshold options) 1 && full then
          match last results with
          | None => Throws
          | Some worstResult =>
              let worstEfficiency := efficiency worstResult in
              Ok (js_lt (ComboData.estimatedEfficiency data)
                        (js_mul worstEfficiency (Num (pruningThreshold options))))
          end
        else Ok false in
      match prune with
      | Throws => Throws
      | Unfinished => Unfinished
      | Ok true => Ok results
      | Ok false =>
          if match maxEvaluations options with
             | Some n => bool_decide (n ≤ evaluated)%nat && full
             | None => false
             end
          then Ok results
          else
            match (if full then Solution.distance <$> last results
                   else Some MAX_SAFE_INTEGER) with
            | None => Throws
            | Some threshold =>
                match findBestRoute nodes gps fuel (ComboData.combo data) threshold roundTrip with
                | OutOfFuel => Unfinished
                | Returned None =>
                    evaluate fuel roundTrip numResults options comboData results (S evaluated)
                | Returned (Some route) =>
                    let results :=
                      results ++ [Solution.mk (ComboData.combo data) (Route.actions route)
                                    (Route.distance route) (ComboData.kp data)] in
                    let results :=
                      if bool_decide (numResults < length results)%nat
                      then take numResults (jsSort byEfficiency results)
                      else results in
                    evaluate fuel roundTrip numResults options comboData results (S evaluated)
                end
            end
      end
  end.

(** [findBestBounties(bounties, detectiveLevel, battleOfFortuneholdCompleted,
    roundTrip, numResults, pruningOptions)]; the two capability arguments
    only select the distance oracle, which is [gps] here. *)
Definition findBestBounties (fuel : nat) (bounties : list BountyKey) (roundTrip : bool)
    (numResults : nat) (options : PruningOptions) : Run (list Solution.t) :=
  let maxComboSize := Nat.min (length bounties) 6 in
  let combos := combinations bounties maxComboSize in
  let comboData := jsSort byEstimatedEfficiency (comboDataOf <$> combos) in
  match evaluate fuel roundTrip numResults options comboData [] 0 with
  | Ok results => Ok (jsSort byEfficiency results)
  | Throws => Throws
  | Unfinished => Unfinished
  end.
End FindBestBounties.

Definition BountyKey_index (bounty : BountyKey) : nat :=
  match bounty with
  | CARROTS => 0
  | SOAP => 1
  | RIBS => 2
  | MEAT_WRAP => 3
  | BEEF_JOINT => 4
  | CLOCKWORK_SHEEP => 5
  | PORCELAIN_DOLL => 6
  | PLATES => 7
  | PIN_BADGE => 8
  | PUMPKIN => 9
  | PIZZA => 10
  | BANANAS => 11
  | TIN_POCKET_WATCH => 12
  | HOMESPUN_CLOTH => 13
  | RAINBOW_CHEESE => 14
  | ARGANIAN_WINE => 15
  | OAK_PATTERNED_VASE => 16
  | SCENTED_CANDLE => 17
  | UNICORN_DUST => 18
  | LANDSCAPE_PAINTING => 19
  | CARRIAGE_CLOCK => 20
  | SPECTACLES => 21
  | SHARPSEED_WINE => 22
  | RUG => 23
  | CAVIAR => 24
  | BATH_SALTS => 25
  | RED_CABBAGE => 26
  | IVORY_SWIRL_PEARL => 27
  | TOMATOES => 28
  | STEAK => 29
  | BURGER => 30
  | HAM_LEG => 31
  | CLOCKWORK_DRAGON => 32
  | SNOW_GLOBE => 33
  | CUPS => 34
  | POSTCARDS => 35
  | RHUBARB => 36
  | CURRY => 37
  | ORANGES => 38
  | PRECISE_POCKET_WATCH => 39
  | SILK => 40
  | OLD_RARG => 41
  | FARGUST_WINE => 42
  | STRIPED_VASE => 43
  | TEA_LIGHTS => 44
  | UNICORN_HAIR => 45
  | PORTRAIT_PAINTING => 46
  | PENDULUM_CLOCK => 47
  | MONOCLE => 48
  | TOPHILL_WINE => 49
  | ANTIQUE_BOOK => 50
  | TRUFFLES => 51
  end%nat.

Definition BountyKey_of_index (n : nat) : BountyKey :=
  match n with
  | 0 => CARROTS
  | 1 => SOAP
  | 2 => RIBS
  | 3 => MEAT_WRAP
  | 4 => BEEF_JOINT
  | 5 => CLOCKWORK_SHEEP
  | 6 => PORCELAIN_DOLL
  | 7 => PLATES
  | 8 => PIN_BADGE
  | 9 => PUMPKIN
  | 10 => PIZZA
  | 11 => BANANAS
  | 12 => TIN_POCKET_WATCH
  | 13 => HOMESPUN_CLOTH
  | 14 => RAINBOW_CHEESE
  | 15 => ARGANIAN_WINE
  | 16 => OAK_PATTERNED_VASE
  | 17 => SCENTED_CANDLE
  | 18 => UNICORN_DUST
  | 19 => LANDSCAPE_PAINTING
  | 20 => CARRIAGE_CLOCK
  | 21 => SPECTACLES
  | 22 => SHARPSEED_WINE
  | 23 => RUG
  | 24 => CAVIAR
  | 25 => BATH_SALTS
  | 26 => RED_CABBAGE
  | 27 => IVORY_SWIRL_PEARL
  | 28 => TOMATOES
  | 29 => STEAK
  | 30 => BURGER
  | 31 => HAM_LEG
  | 32 => CLOCKWORK_DRAGON
  | 33 => SNOW_GLOBE
  | 34 => CUPS
  | 35 => POSTCARDS
  | 36 => RHUBARB
  | 37 => CURRY
  | 38 => ORANGES
  | 39 => PRECISE_POCKET_WATCH
  | 40 => SILK
  | 41 => OLD_RARG
  | 42 => FARGUST_WINE
  | 43 => STRIPED_VASE
  | 44 => TEA_LIGHTS
  | 45 => UNICORN_HAIR
  | 46 => PORTRAIT_PAINTING
  | 47 => PENDULUM_CLOCK
  | 48 => MONOCLE
  | 49 => TOPHILL_WINE
  | 50 => ANTIQUE_BOOK
  | _ => TRUFFLES
  end%nat.

#[global] Instance BountyKey_countable : Countable BountyKey.
Proof.
  refine (inj_countable' BountyKey_index BountyKey_of_index _).
  by intros [].
Defined.

(** * The reconciliation state machine ([class OCRProcessor]) *)

(** [bountyData[bounty]?.kp || 0] *)
Definition kpOf (bounty : BountyKey) : Qc := kp (bountyData bounty).

(** An index-keyed object [{ [index: number]: string }]: slot [i] holds
    [slots !! i]; JavaScript enumerates integer keys in ascending order,
    which is the order of the list. *)
Abbreviation Slots := (list (option BountyKey)).

(** [Object.keys(slots).map(Number)] *)
Definition slotKeys (slots : Slots) : list nat :=
  (filter (λ p, is_Some p.2) (imap pair slots)).*1.

(** [Object.values(slots)] *)
Definition slotValues (slots : Slots) : list BountyKey := omap id slots.

(** [slots[idx]] *)
Definition slotAt (slots : Slots) (idx : nat) : option BountyKey := mjoin (slots !! idx).

(** [list.slice().sort().join(sep)]: two such strings are equal exactly
    when the lists hold the same keys the same number of times. *)
Definition sortedJoin (keys : list BountyKey) : gmultiset BountyKey := list_to_set_disj keys.

(** [keys.filter(b => b === bounty).length] *)
Definition occurrences (bounty : BountyKey) (keys : list BountyKey) : nat :=
  length (filter (λ b, b = bounty) keys).

(** The keys of a [Map] filled by going through [keys]: each key once, in
    the order of first insertion. *)
Definition insertionOrder (keys : list BountyKey) : list BountyKey :=
  foldl (λ seen b, if decide (b ∈ seen) then seen else seen ++ [b]) [] keys.

Module OCRProcessor.

Record InFlightFind : Set := mkInFlight {
  signature : gmultiset BountyKey;
  startedAtMs : Z;
}.

Record SessionStats : Set := mkStats {
  totalKpEarned : Qc;
  totalDurationSeconds : Qc;
  totalBountiesCompleted : nat;
  bountyTypeCounts : gmap BountyKey nat;
}.

(** The fields of the class the claims are about, and those they are
    computed from.  [sessionLogWrites] counts the entries appended to the
    session log file. *)
Record t : Type := mk {
  activeBounties : Slots;
  boardBounties : Slots;
  activeDrops : list nat;
  boardPickups : list nat;
  steps : list Action.t;
  kp : JsNum;
  distanceSeconds : JsNum;
  displaySteps : list Action.t;
  displayKp : JsNum;
  displayDistanceSeconds : JsNum;
  stepIdx : nat;
  prevActiveBounties : Slots;
  prevOptimalBounties : list BountyKey;
  prevAllBountiesSignature : gmultiset BountyKey;
  prevBoardOpenSignature : bool;
  pathfinderWorkerTimeoutMs : Z;
  inFlightFind : option InFlightFind;
  launchedAtLeastOnce : bool;
  dropGraceMs : Z;
  recentActiveAdds : gmap nat Z;
  suppressDropsWhileRecompute : bool;
  runStartTime : Z;
  actualRunTimeSeconds : Qc;
  runBounties : list BountyKey;
  runEstimatedTime : JsNum;
  sessionStats : SessionStats;
  sessionLogWrites : nat;
  forceOptimal : bool;
}.

(** The constructor, with its three options that matter here. *)
Definition new (timeoutMs graceMs : Z) (suppress : bool) : t :=
  {| activeBounties := []; boardBounties := []; activeDrops := []; boardPickups := [];
     steps := []; kp := Num 0%Qc; distanceSeconds := NaN;
     displaySteps := []; displayKp := Num 0%Qc; displayDistanceSeconds := NaN;
     stepIdx := 0; prevActiveBounties := []; prevOptimalBounties := [];
     prevAllBountiesSignature := ∅; prevBoardOpenSignature := false;
     pathfinderWorkerTimeoutMs := timeoutMs; inFlightFind := None;
     launchedAtLeastOnce := false; dropGraceMs := Z.max 0 graceMs;
     recentActiveAdds := ∅; suppressDropsWhileRecompute := suppress;
     runStartTime := 0; actualRunTimeSeconds := 0%Qc; runBounties := [];
     runEstimatedTime := Num 0%Qc;
     sessionStats := mkStats 0%Qc 0%Qc 0 ∅; sessionLogWrites := 0;
     forceOptimal := false |}.

(** Assignments [this.field = v]. *)
Definition set_activeBounties v (this : t) : t :=
  mk v (boardBounties this) (activeDrops this) (boardPickups this) (steps this) (kp this)
     (distanceSeconds this) (displaySteps this) (displayKp this) (displayDistanceSeconds
     this) (stepIdx this) (prevActiveBounties this) (prevOptimalBounties this)
     (prevAllBountiesSignature this) (prevBoardOpenSignature this)
     (pathfinderWorkerTimeoutMs this) (inFlightFind this) (launchedAtLeastOnce this)
     (dropGraceMs this) (recentActiveAdds this) (suppressDropsWhileRecompute this)
     (runStartTime this) (actualRunTimeSeconds this) (runBounties this) (runEstimatedTime
     this) (sessionStats this) (sessionLogWrites this) (forceOptimal this).
Definition set_boardBounties v (this : t) : t :=
  mk (activeBounties this) v (activeDrops this) (boardPickups this) (steps this) (kp this)
     (distanceSeconds this) (displaySteps this) (displayKp this) (displayDistanceSeconds
     this) (stepIdx this) (prevActiveBounties this) (prevOptimalBounties this)
     (prevAllBountiesSignature this) (prevBoardOpenSignature this)
     (pathfinderWorkerTimeoutMs this) (inFlightFind this) (launchedAtLeastOnce this)
     (dropGraceMs this) (recentActiveAdds this) (suppressDropsWhileRecompute this)
     (runStartTime this) (actualRunTimeSeconds this) (runBounties this) (runEstimatedTime
     this) (sessionStats this) (sessionLogWrites this) (forceOptimal this).
Definition set_activeDrops v (this : t) : t :=
  mk (activeBounties this) (boardBounties this) v (boardPickups this) (steps this) (kp
     this) (distanceSeconds this) (displaySteps this) (displayKp this)
     (displayDistanceSeconds this) (stepIdx this) (prevActiveBounties this)
     (prevOptimalBounties this) (prevAllBountiesSignature this) (prevBoardOpenSignature
     this) (pathfinderWorkerTimeoutMs this) (inFlightFind this) (launchedAtLeastOnce this)
     (dropGraceMs this) (recentActiveAdds this) (suppressDropsWhileRecompute this)
     (runStartTime this) (actualRunTimeSeconds this) (runBounties this) (runEstimatedTime
     this) (sessionStats this) (sessionLogWrites this) (forceOptimal this).
Definition set_boardPickups v (this : t) : t :=
  mk (activeBounties this) (boardBounties this) (activeDrops this) v (steps this) (kp
     this) (distanceSeconds this) (displaySteps this) (displayKp this)
     (displayDistanceSeconds this) (stepIdx this) (prevActiveBounties this)
     (prevOptimalBounties this) (prevAllBountiesSignature this) (prevBoardOpenSignature
     this) (pathfinderWorkerTimeoutMs this) (inFlightFind this) (launchedAtLeastOnce this)
     (dropGraceMs this) (recentActiveAdds this) (suppressDropsWhileRecompute this)
     (runStartTime this) (actualRunTimeSeconds this) (runBounties this) (runEstimatedTime
     this) (sessionStats this) (sessionLogWrites this) (forceOptimal this).
Definition set_steps v (this : t) : t :=
  mk (activeBounties this) (boardBounties this) (activeDrops this) (boardPickups this) v
     (kp this) (distanceSeconds this) (displaySteps this) (displayKp this)
     (displayDistanceSeconds this) (stepIdx this) (prevActiveBounties this)
     (prevOptimalBounties this) (prevAllBountiesSignature this) (prevBoardOpenSignature
     this) (pathfinderWorkerTimeoutMs this) (inFlightFind this) (launchedAtLeastOnce this)
     (dropGraceMs this) (recentActiveAdds this) (suppressDropsWhileRecompute this)
     (runStartTime this) (actualRunTimeSeconds this) (runBounties this) (runEstimatedTime
     this) (sessionStats this) (sessionLogWrites this) (forceOptimal this).
Definition set_kp v (this : t) : t :=
  mk (activeBounties this) (boardBounties this) (activeDrops this) (boardPickups this)
     (steps this) v (distanceSeconds this) (displaySteps this) (displayKp this)
     (displayDistanceSeconds this) (stepIdx this) (prevActiveBounties this)
     (prevOptimalBounties this) (prevAllBountiesSignature this) (prevBoardOpenSignature
     this) (pathfinderWorkerTimeoutMs this) (inFlightFind this) (launchedAtLeastOnce this)
     (dropGraceMs this) (recentActiveAdds this) (suppressDropsWhileRecompute this)
     (runStartTime this) (actualRunTimeSeconds this) (runBounties this) (runEstimatedTime
     this) (sessionStats this) (sessionLogWrites this) (forceOptimal this).
Definition set_distanceSeconds v (this : t) : t :=
  mk (activeBounties this) (boardBounties this) (activeDrops this) (boardPickups this)
     (steps this) (kp this) v (displaySteps this) (displayKp this) (displayDistanceSeconds
     this) (stepIdx this) (prevActiveBounties this) (prevOptimalBounties this)
     (prevAllBountiesSignature this) (prevBoardOpenSignature this)
     (pathfinderWorkerTimeoutMs this) (inFlightFind this) (launchedAtLeastOnce this)
     (dropGraceMs this) (recentActiveAdds this) (suppressDropsWhileRecompute this)
     (runStartTime this) (actualRunTimeSeconds this) (runBounties this) (runEstimatedTime
     this) (sessionStats this) (sessionLogWrites this) (forceOptimal this).
Definition set_displaySteps v (this : t) : t :=
  mk (activeBounties this) (boardBounties this) (activeDrops this) (boardPickups this)
     (steps this) (kp this) (distanceSeconds this) v (displayKp this)
     (displayDistanceSeconds this) (stepIdx this) (prevActiveBounties this)
     (prevOptimalBounties this) (prevAllBountiesSignature this) (prevBoardOpenSignature
     this) (pathfinderWorkerTimeoutMs this) (inFlightFind this) (launchedAtLeastOnce this)
     (dropGraceMs this) (recentActiveAdds this) (suppressDropsWhileRecompute this)
     (runStartTime this) (actualRunTimeSeconds this) (runBounties this) (runEstimatedTime
     this) (sessionStats this) (sessionLogWrites this) (forceOptimal this).
Definition set_displayKp v (this : t) : t :=
  mk (activeBounties this) (boardBounties this) (activeDrops this) (boardPickups this)
     (steps this) (kp this) (distanceSeconds this) (displaySteps this) v
     (displayDistanceSeconds this) (stepIdx this) (prevActiveBounties this)
     (prevOptimalBounties this) (prevAllBountiesSignature this) (prevBoardOpenSignature
     this) (pathfinderWorkerTimeoutMs this) (inFlightFind this) (launchedAtLeastOnce this)
     (dropGraceMs this) (recentActiveAdds this) (suppressDropsWhileRecompute this)
     (runStartTime this) (actualRunTimeSeconds this) (runBounties this) (runEstimatedTime
     this) (sessionStats this) (sessionLogWrites this) (forceOptimal this).
Definition set_displayDistanceSeconds v (this : t) : t :=
  mk (activeBounties this) (boardBounties this) (activeDrops this) (boardPickups this)
     (steps this) (kp this) (distanceSeconds this) (displaySteps this) (displayKp this) v
     (stepIdx this) (prevActiveBounties this) (prevOptimalBounties this)
     (prevAllBountiesSignature this) (prevBoardOpenSignature this)
     (pathfinderWorkerTimeoutMs this) (inFlightFind this) (launchedAtLeastOnce this)
     (dropGraceMs this) (recentActiveAdds this) (suppressDropsWhileRecompute this)
     (runStartTime this) (actualRunTimeSeconds this) (runBounties this) (runEstimatedTime
     this) (sessionStats this) (sessionLogWrites this) (forceOptimal this).
Definition set_stepIdx v (this : t) : t :=
  mk (activeBounties this) (boardBounties this) (activeDrops this) (boardPickups this)
     (steps this) (kp this) (distanceSeconds this) (displaySteps this) (displayKp this)
     (displayDistanceSeconds this) v (prevActiveBounties this) (prevOptimalBounties this)
     (prevAllBountiesSignature this) (prevBoardOpenSignature this)
     (pathfinderWorkerTimeoutMs this) (inFlightFind this) (launchedAtLeastOnce this)
     (dropGraceMs this) (recentActiveAdds this) (suppressDropsWhileRecompute this)
     (runStartTime this) (actualRunTimeSeconds this) (runBounties this) (runEstimatedTime
     this) (sessionStats this) (sessionLogWrites this) (forceOptimal this).
Definition set_prevActiveBounties v (this : t) : t :=
  mk (activeBounties this) (boardBounties this) (activeDrops this) (boardPickups this)
     (steps this) (kp this) (distanceSeconds this) (displaySteps this) (displayKp this)
     (displayDistanceSeconds this) (stepIdx this) v (prevOptimalBounties this)
     (prevAllBountiesSignature this) (prevBoardOpenSignature this)
     (pathfinderWorkerTimeoutMs this) (inFlightFind this) (launchedAtLeastOnce this)
     (dropGraceMs this) (recentActiveAdds this) (suppressDropsWhileRecompute this)
     (runStartTime this) (actualRunTimeSeconds this) (runBounties this) (runEstimatedTime
     this) (sessionStats this) (sessionLogWrites this) (forceOptimal this).
Definition set_prevOptimalBounties v (this : t) : t :=
  mk (activeBounties this) (boardBounties this) (activeDrops this) (boardPickups this)
     (steps this) (kp this) (distanceSeconds this) (displaySteps this) (displayKp this)
     (displayDistanceSeconds this) (stepIdx this) (prevActiveBounties this) v
     (prevAllBountiesSignature this) (prevBoardOpenSignature this)
     (pathfinderWorkerTimeoutMs this) (inFlightFind this) (launchedAtLeastOnce this)
     (dropGraceMs this) (recentActiveAdds this) (suppressDropsWhileRecompute this)
     (runStartTime this) (actualRunTimeSeconds this) (runBounties this) (runEstimatedTime
     this) (sessionStats this) (sessionLogWrites this) (forceOptimal this).
Definition set_prevAllBountiesSignature v (this : t) : t :=
  mk (activeBounties this) (boardBounties this) (activeDrops this) (boardPickups this)
     (steps this) (kp this) (distanceSeconds this) (displaySteps this) (displayKp this)
     (displayDistanceSeconds this) (stepIdx this) (prevActiveBounties this)
     (prevOptimalBounties this) v (prevBoardOpenSignature this) (pathfinderWorkerTimeoutMs
     this) (inFlightFind this) (launchedAtLeastOnce this) (dropGraceMs this)
     (recentActiveAdds this) (suppressDropsWhileRecompute this) (runStartTime this)
     (actualRunTimeSeconds this) (runBounties this) (runEstimatedTime this) (sessionStats
     this) (sessionLogWrites this) (forceOptimal this).
Definition set_prevBoardOpenSignature v (this : t) : t :=
  mk (activeBounties this) (boardBounties this) (activeDrops this) (boardPickups this)
     (steps this) (kp this) (distanceSeconds this) (displaySteps this) (displayKp this)
     (displayDistanceSeconds this) (stepIdx this) (prevActiveBounties this)
     (prevOptimalBounties this) (prevAllBountiesSignature this) v
     (pathfinderWorkerTimeoutMs this) (inFlightFind this) (launchedAtLeastOnce this)
     (dropGraceMs this) (recentActiveAdds this) (suppressDropsWhileRecompute this)
     (runStartTime this) (actualRunTimeSeconds this) (runBounties this) (runEstimatedTime
     this) (sessionStats this) (sessionLogWrites this) (forceOptimal this).
Definition set_inFlightFind v (this : t) : t :=
  mk (activeBounties this) (boardBounties this) (activeDrops this) (boardPickups this)
     (steps this) (kp this) (distanceSeconds this) (displaySteps this) (displayKp this)
     (displayDistanceSeconds this) (stepIdx this) (prevActiveBounties this)
     (prevOptimalBounties this) (prevAllBountiesSignature this) (prevBoardOpenSignature
     this) (pathfinderWorkerTimeoutMs this) v (launchedAtLeastOnce this) (dropGraceMs
     this) (recentActiveAdds this) (suppressDropsWhileRecompute this) (runStartTime this)
     (actualRunTimeSeconds this) (runBounties this) (runEstimatedTime this) (sessionStats
     this) (sessionLogWrites this) (forceOptimal this).
Definition set_launchedAtLeastOnce v (this : t) : t :=
  mk (activeBounties this) (boardBounties this) (activeDrops this) (boardPickups this)
     (steps this) (kp this) (distanceSeconds this) (displaySteps this) (displayKp this)
     (displayDistanceSeconds this) (stepIdx this) (prevActiveBounties this)
     (prevOptimalBounties this) (prevAllBountiesSignature this) (prevBoardOpenSignature
     this) (pathfinderWorkerTimeoutMs this) (inFlightFind this) v (dropGraceMs this)
     (recentActiveAdds this) (suppressDropsWhileRecompute this) (runStartTime this)
     (actualRunTimeSeconds this) (runBounties this) (runEstimatedTime this) (sessionStats
     this) (sessionLogWrites this) (forceOptimal this).
Definition set_recentActiveAdds v (this : t) : t :=
  mk (activeBounties this) (boardBounties this) (activeDrops this) (boardPickups this)
     (steps this) (kp this) (distanceSeconds this) (displaySteps this) (displayKp this)
     (displayDistanceSeconds this) (stepIdx this) (prevActiveBounties this)
     (prevOptimalBounties this) (prevAllBountiesSignature this) (prevBoardOpenSignature
     this) (pathfinderWorkerTimeoutMs this) (inFlightFind this) (launchedAtLeastOnce this)
     (dropGraceMs this) v (suppressDropsWhileRecompute this) (runStartTime this)
     (actualRunTimeSeconds this) (runBounties this) (runEstimatedTime this) (sessionStats
     this) (sessionLogWrites this) (forceOptimal this).
Definition set_runStartTime v (this : t) : t :=
  mk (activeBounties this) (boardBounties this) (activeDrops this) (boardPickups this)
     (steps this) (kp this) (distanceSeconds this) (displaySteps this) (displayKp this)
     (displayDistanceSeconds this) (stepIdx this) (prevActiveBounties this)
     (prevOptimalBounties this) (prevAllBountiesSignature this) (prevBoardOpenSignature
     this) (pathfinderWorkerTimeoutMs this) (inFlightFind this) (launchedAtLeastOnce this)
     (dropGraceMs this) (recentActiveAdds this) (suppressDropsWhileRecompute this) v
     (actualRunTimeSeconds this) (runBounties this) (runEstimatedTime this) (sessionStats
     this) (sessionLogWrites this) (forceOptimal this).
Definition set_actualRunTimeSeconds v (this : t) : t :=
  mk (activeBounties this) (boardBounties this) (activeDrops this) (boardPickups this)
     (steps this) (kp this) (distanceSeconds this) (displaySteps this) (displayKp this)
     (displayDistanceSeconds this) (stepIdx this) (prevActiveBounties this)
     (prevOptimalBounties this) (prevAllBountiesSignature this) (prevBoardOpenSignature
     this) (pathfinderWorkerTimeoutMs this) (inFlightFind this) (launchedAtLeastOnce this)
     (dropGraceMs this) (recentActiveAdds this) (suppressDropsWhileRecompute this)
     (runStartTime this) v (runBounties this) (runEstimatedTime this) (sessionStats this)
     (sessionLogWrites this) (forceOptimal this).
Definition set_runBounties v (this : t) : t :=
  mk (activeBounties this) (boardBounties this) (activeDrops this) (boardPickups this)
     (steps this) (kp this) (distanceSeconds this) (displaySteps this) (displayKp this)
     (displayDistanceSeconds this) (stepIdx this) (prevActiveBounties this)
     (prevOptimalBounties this) (prevAllBountiesSignature this) (prevBoardOpenSignature
     this) (pathfinderWorkerTimeoutMs this) (inFlightFind this) (launchedAtLeastOnce this)
     (dropGraceMs this) (recentActiveAdds this) (suppressDropsWhileRecompute this)
     (runStartTime this) (actualRunTimeSeconds this) v (runEstimatedTime this)
     (sessionStats this) (sessionLogWrites this) (forceOptimal this).
Definition set_runEstimatedTime v (this : t) : t :=
  mk (activeBounties this) (boardBounties this) (activeDrops this) (boardPickups this)
     (steps this) (kp this) (distanceSeconds this) (displaySteps this) (displayKp this)
     (displayDistanceSeconds this) (stepIdx this) (prevActiveBounties this)
     (prevOptimalBounties this) (prevAllBountiesSignature this) (prevBoardOpenSignature
     this) (pathfinderWorkerTimeoutMs this) (inFlightFind this) (launchedAtLeastOnce this)
     (dropGraceMs this) (recentActiveAdds this) (suppressDropsWhileRecompute this)
     (runStartTime this) (actualRunTimeSeconds this) (runBounties this) v (sessionStats
     this) (sessionLogWrites this) (forceOptimal this).
Definition set_sessionStats v (this : t) : t :=
  mk (activeBounties this) (boardBounties this) (activeDrops this) (boardPickups this)
     (steps this) (kp this) (distanceSeconds this) (displaySteps this) (displayKp this)
     (displayDistanceSeconds this) (stepIdx this) (prevActiveBounties this)
     (prevOptimalBounties this) (prevAllBountiesSignature this) (prevBoardOpenSignature
     this) (pathfinderWorkerTimeoutMs this) (inFlightFind this) (launchedAtLeastOnce this)
     (dropGraceMs this) (recentActiveAdds this) (suppressDropsWhileRecompute this)
     (runStartTime this) (actualRunTimeSeconds this) (runBounties this) (runEstimatedTime
     this) v (sessionLogWrites this) (forceOptimal this).
Definition set_sessionLogWrites v (this : t) : t :=
  mk (activeBounties this) (boardBounties this) (activeDrops this) (boardPickups this)
     (steps this) (kp this) (distanceSeconds this) (displaySteps this) (displayKp this)
     (displayDistanceSeconds this) (stepIdx this) (prevActiveBounties this)
     (prevOptimalBounties this) (prevAllBountiesSignature this) (prevBoardOpenSignature
     this) (pathfinderWorkerTimeoutMs this) (inFlightFind this) (launchedAtLeastOnce this)
     (dropGraceMs this) (recentActiveAdds this) (suppressDropsWhileRecompute this)
     (runStartTime this) (actualRunTimeSeconds this) (runBounties this) (runEstimatedTime
     this) (sessionStats this) v (forceOptimal this).
Definition set_forceOptimal v (this : t) : t :=
  mk (activeBounties this) (boardBounties this) (activeDrops this) (boardPickups this)
     (steps this) (kp this) (distanceSeconds this) (displaySteps this) (displayKp this)
     (displayDistanceSeconds this) (stepIdx this) (prevActiveBounties this)
     (prevOptimalBounties this) (prevAllBountiesSignature this) (prevBoardOpenSignature
     this) (pathfinderWorkerTimeoutMs this) (inFlightFind this) (launchedAtLeastOnce this)
     (dropGraceMs this) (recentActiveAdds this) (suppressDropsWhileRecompute this)
     (runStartTime this) (actualRunTimeSeconds this) (runBounties this) (runEstimatedTime
     this) (sessionStats this) (sessionLogWrites this) v.

(** The synchronous part of [launchFindBestIfNeeded]: everything but the
    body of the promise it starts.  [now] is [Date.now()]. *)
Definition launchFindBestIfNeeded (this : t) (sig : gmultiset BountyKey) (now : Z) : t :=
  match inFlightFind this with
  | Some inFlight =>
      if decide (signature inFlight = sig) then this
      else
        let ageMs := now - startedAtMs inFlight in
        if decide (pathfinderWorkerTimeoutMs this + 1000 < ageMs) then
          set_inFlightFind (Some (mkInFlight sig now)) (set_launchedAtLeastOnce true this)
        else this
  | None =>
      set_inFlightFind (Some (mkInFlight sig now)) (set_launchedAtLeastOnce true this)
  end.

(** "When adding bounties mid-route, filter out steps for items we
    already have": the loop over [optimalResp.actions]. *)
Fixpoint filterSteps (currentlyHaveItems : gset BountyKey) (actions : list Action.t)
    : list Action.t :=
  match actions with
  | [] => []
  | step :: actions =>
      match Action.type step, Action.item step with
      | buy, Some item =>
          if decide (item ∈ currentlyHaveItems) then filterSteps currentlyHaveItems actions
          else step :: filterSteps ({[item]} ∪ currentlyHaveItems) actions
      | sell, Some item => step :: filterSteps (currentlyHaveItems ∖ {[item]}) actions
      | _, _ => step :: filterSteps currentlyHaveItems actions
      end
  end.

(** [this.kp / this.distanceSeconds] when a solution is cached, else 0. *)
Definition currentEfficiency (this : t) : JsNum :=
  if bool_decide (0 < length (prevOptimalBounties this))%nat
     && js_gt (distanceSeconds this) (Num 0%Qc)
  then js_div (kp this) (distanceSeconds this)
  else Num 0%Qc.

(** The branch "Accepting new solution". *)
Definition accept (this : t) (optimalResp : Solution.t) : t :=
  let this := set_prevOptimalBounties (Solution.bounties optimalResp) this in
  let this := set_kp (Num (Solution.kp optimalResp)) this in
  let this := set_distanceSeconds (js_of_Z (Solution.distance optimalResp)) this in
  let this := set_displayKp (Num (Solution.kp optimalResp)) this in
  let this := set_displayDistanceSeconds (js_of_Z (Solution.distance optimalResp)) this in
  if bool_decide (0 < stepIdx this)%nat
     && bool_decide (0 < length (Solution.actions optimalResp))%nat
  then
    let filteredSteps :=
      filterSteps (list_to_set (slotValues (activeBounties this)))
        (Solution.actions optimalResp) in
    set_displaySteps filteredSteps (set_stepIdx 0%nat (set_steps filteredSteps this))
  else
    set_displaySteps (Solution.actions optimalResp)
      (set_steps (Solution.actions optimalResp) this).

(** The body of the promise [launchFindBestIfNeeded] starts, from the
    moment [computeFindBest] settles: with [Some optimalResp] when it
    resolved, with [None] when it threw (timeout, worker failure, no
    result).  [sig] is the signature the computation was launched for. *)
Definition findBestSettled (this : t) (sig : gmultiset BountyKey)
    (outcome : option Solution.t) : t :=
  let this := set_forceOptimal false this in
  let this :=
    match outcome with
    | Some optimalResp =>
        let newEfficiency :=
          js_div (Num (Solution.kp optimalResp)) (js_of_Z (Solution.distance optimalResp)) in
        let currentEfficiency := currentEfficiency this in
        let this :=
          if js_is_zero currentEfficiency || js_gt newEfficiency currentEfficiency
          then accept this optimalResp
          else this in
        set_prevAllBountiesSignature sig this
    | None => this
    end in
  match inFlightFind this with
  | Some inFlight =>
      if decide (signature inFlight = sig) then set_inFlightFind None this else this
  | None => this
  end.

(** [!expiresAt || expiresAt <= Date.now()] for [recentActiveAdds.get(idx)] *)
Definition graceOver (this : t) (idx : nat) (now : Z) : bool :=
  match recentActiveAdds this !! idx with
  | None => true
  | Some expiresAt => bool_decide (expiresAt = 0) || bool_decide (expiresAt ≤ now)
  end.

(** "Find which bounty was completed (count decreased)". *)
Definition findCompleted (prev curr : list BountyKey) : option BountyKey :=
  find (λ bounty, bool_decide (occurrences bounty curr < occurrences bounty prev)%nat)
       (insertionOrder prev).

(** [this.steps.findIndex(step => step.type === "sell" && step.item === bounty)] *)
Definition firstSale (bounty : BountyKey) (steps : list Action.t) : option nat :=
  fst <$> list_find (λ step, Action.type step = sell ∧ Action.item step = Some bounty) steps.

(** The drop signals, when they are not suppressed. *)
Definition computeActiveDrops (this : t) (detectedActive : Slots)
    (optimalBounties : list BountyKey) (now : Z) : list nat :=
  let pumpkins :=
    filter (λ idx, slotAt detectedActive idx = Some PUMPKIN ∧ graceOver this idx now)
           (slotKeys detectedActive) in
  let others := filter (λ bounty, bounty ≠ PUMPKIN) (insertionOrder (slotValues detectedActive)) in
  pumpkins ++
  (others ≫= λ bounty,
     let indices := filter (λ idx, slotAt detectedActive idx = Some bounty)
                           (slotKeys detectedActive) in
     let allowed := occurrences bounty optimalBounties in
     if bool_decide (allowed < length indices)%nat then
       let extras := take (length indices - allowed) indices in
       filter (λ idx, graceOver this idx now) extras
     else []).

(** The accept signals, while the board is open. *)
Definition computeBoardPickups (detectedActive detectedBoard : Slots)
    (optimalBounties : list BountyKey) : list nat :=
  (foldl (λ '(boardPickups, pickupCount) idx,
            match slotAt detectedBoard idx with
            | None => (boardPickups, pickupCount)
            | Some bounty =>
                if decide (bounty = PUMPKIN) then (boardPickups, pickupCount)
                else if decide (bounty ∈ optimalBounties) then
                  let allowed := occurrences bounty optimalBounties in
                  let activeCount := occurrences bounty (slotValues detectedActive) in
                  let current := occurrences bounty pickupCount in
                  if decide (activeCount + current < allowed)%nat
                  then (boardPickups ++ [idx], bounty :: pickupCount)
                  else (boardPickups, pickupCount)
                else (boardPickups, pickupCount)
            end)
         ([], []) (slotKeys detectedBoard)).1.

(** "Track newly-added active bounties to suppress transient DROP". *)
Definition trackRecentAdds (this : t) (detectedActive : Slots) (now : Z) : gmap nat Z :=
  let prevActiveIndices := slotKeys (prevActiveBounties this) in
  let added :=
    foldl (λ adds idx,
             if decide (idx ∈ prevActiveIndices) then adds
             else <[idx := now + dropGraceMs this]> adds)
          (recentActiveAdds this) (slotKeys detectedActive) in
  filter (λ entry, now < entry.2 ∧ is_Some (slotAt detectedActive entry.1)) added.

(** The statistics and step pruning "when a bounty completes". *)
Definition bountyCompleted (this : t) (completedBounty : BountyKey) (boardOpen : bool) : t :=
  let this :=
    if boardOpen then this
    else
      let stats := sessionStats this in
      set_sessionStats
        (mkStats (totalKpEarned stats + kpOf completedBounty)%Qc
           (totalDurationSeconds stats)
           (S (totalBountiesCompleted stats))
           (<[completedBounty :=
                S (default 0%nat (bountyTypeCounts stats !! completedBounty))]>
              (bountyTypeCounts stats)))
        this in
  match firstSale completedBounty (steps this) with
  | Some completedStepIdx =>
      let steps := drop (completedStepIdx + 1) (steps this) in
      set_displaySteps steps
        (set_steps steps (set_stepIdx (stepIdx this + completedStepIdx + 1)%nat this))
  | None => this
  end.

(** The block under "All bounties just completed". *)
Definition allBountiesCompleted (this : t) (now : Z) : t :=
  let hasRunTiming := bool_decide (0 < runStartTime this) in
  let this :=
    if hasRunTiming then
      let actual := (Qc_of_Z (now - runStartTime this) / Qc_of_Z 1000)%Qc in
      let stats := sessionStats this in
      set_sessionStats
        (mkStats (totalKpEarned stats) (totalDurationSeconds stats + actual)%Qc
           (totalBountiesCompleted stats) (bountyTypeCounts stats))
        (set_actualRunTimeSeconds actual this)
    else this in
  let this := set_sessionLogWrites (S (sessionLogWrites this)) this in
  let this := set_prevOptimalBounties [] this in
  let this := set_kp (Num 0%Qc) this in
  let this := set_distanceSeconds NaN this in
  let this := set_steps [] this in
  let this := set_runBounties [] this in
  set_runEstimatedTime (Num 0%Qc) this.

(** [processOCRResultsAsync], from the point where the recognised texts
    have been turned into [detectedActive] and [detectedBoard], in three
    parts.  The method has no [await]: it runs to its end before any
    promise body does.  [now] is what [Date.now()] returns during the
    call, taken as one instant; [processOCRResultsAt] below lets the
    grace tests read the clock again, as the code does.

    First part: down to the end of [if (shouldRecompute) { ... }]. *)
Definition triggerRecompute (this : t) (detectedActive detectedBoard : Slots)
    (boardOpen : bool) (now : Z) : t :=
  let this := set_recentActiveAdds (trackRecentAdds this detectedActive now) this in
  let allBounties :=
    filter (λ bounty, bounty ≠ PUMPKIN)
           (slotValues detectedActive ++ slotValues detectedBoard) in
  let sig := sortedJoin allBounties in
  let boardTransition := negb (eqb boardOpen (prevBoardOpenSignature this)) in
  let signatureChanged := bool_decide (sig ≠ prevAllBountiesSignature this) in
  let firstRun := negb (launchedAtLeastOnce this) in
  let this :=
    if boardTransition && negb boardOpen && prevBoardOpenSignature this then
      set_runEstimatedTime (distanceSeconds this)
        (set_runBounties (prevOptimalBounties this)
           (set_actualRunTimeSeconds 0%Qc (set_runStartTime now this)))
    else this in
  let prevActiveCount := length (slotKeys (prevActiveBounties this)) in
  let currActiveCount := length (slotKeys detectedActive) in
  let addingBounties := bool_decide (prevActiveCount < currActiveCount)%nat in
  let boardBountiesChanged :=
    boardOpen && bool_decide (sortedJoin (slotValues (boardBounties this))
                              ≠ sortedJoin (slotValues detectedBoard)) in
  let haveOptimal := bool_decide (0 < length (prevOptimalBounties this))%nat in
  let activeMatchesOptimal :=
    bool_decide (sortedJoin (slotValues detectedActive)
                 = sortedJoin (prevOptimalBounties this)) in
  let adjustingBounties := haveOptimal && negb activeMatchesOptimal && boardOpen in
  let shouldRecompute :=
    firstRun || boardTransition || boardBountiesChanged
    || (signatureChanged && addingBounties && negb adjustingBounties)
    || (activeMatchesOptimal && signatureChanged) in
  if shouldRecompute then
    let this := if firstRun || boardTransition then set_stepIdx 0%nat this else this in
    set_prevBoardOpenSignature boardOpen (launchFindBestIfNeeded this sig now)
  else this.

(** Second part: "Step pruning when a bounty completes" and "Check if
    all bounties are completed". *)
Definition detectCompletion (this : t) (detectedActive : Slots) (boardOpen : bool)
    (now : Z) : t :=
  let prevCount := length (slotKeys (prevActiveBounties this)) in
  let currCount := length (slotKeys detectedActive) in
  let completedBounty :=
    if bool_decide (currCount < prevCount)%nat && bool_decide (prevCount - currCount = 1)%nat
    then findCompleted (slotValues (prevActiveBounties this)) (slotValues detectedActive)
    else None in
  let this :=
    match completedBounty with
    | Some bounty => bountyCompleted this bounty boardOpen
    | None => this
    end in
  if bool_decide (currCount = 0)%nat && bool_decide (0 < prevCount)%nat
     && bool_decide (is_Some completedBounty)
  then allBountiesCompleted this now
  else this.

(** Third part: the signals, and the whole method. *)
Definition processOCRResults (this : t) (detectedActive detectedBoard : Slots)
    (boardOpen : bool) (now : Z) : t :=
  let this := triggerRecompute this detectedActive detectedBoard boardOpen now in
  let finish (this : t) : t :=
    set_prevActiveBounties detectedActive
      (set_boardBounties detectedBoard (set_activeBounties detectedActive this)) in
  let hasOptimal := bool_decide (0 < length (prevOptimalBounties this))%nat in
  if negb hasOptimal then
    finish (set_boardPickups [] (set_activeDrops [] this))
  else
  let optimalBounties := prevOptimalBounties this in
  let this := detectCompletion this detectedActive boardOpen now in
  let recomputeInFlight := bool_decide (is_Some (inFlightFind this)) in
  let this :=
    if suppressDropsWhileRecompute this && recomputeInFlight
    then set_activeDrops [] this
    else set_activeDrops (computeActiveDrops this detectedActive optimalBounties now) this in
  let this :=
    if boardOpen
    then set_boardPickups (computeBoardPickups detectedActive detectedBoard optimalBounties) this
    else set_boardPickups [] this in
  finish this.

(** [forceOptimalRecalculation()]; [now] is [Date.now()].  [worker]
    tells whether [computeFindBest] hands the computation to the
    pathfinder worker ([useWorkerForPathfinder && pathfinderWorker]).
    Without a worker it runs to its end inside [launchFindBestIfNeeded],
    before the promise is stored, and resets [forceOptimal] on its way
    out ("Reset forceOptimal flag after computation", "Reset on error
    too"); only the acceptance of its result is left to the promise.
    With a worker the reset waits for the worker's reply. *)
Definition forceOptimalRecalculation (worker : bool) (this : t) (now : Z) : t :=
  let this := set_forceOptimal true this in
  let this := set_prevOptimalBounties [] this in
  let this := set_kp (Num 0%Qc) this in
  let this := set_distanceSeconds NaN this in
  let this := set_inFlightFind None this in
  let allBounties :=
    filter (λ bounty, bounty ≠ PUMPKIN)
           (slotValues (activeBounties this) ++ slotValues (boardBounties this)) in
  if bool_decide (0 < length allBounties)%nat then
    let this := launchFindBestIfNeeded this (sortedJoin allBounties) now in
    if worker then this else set_forceOptimal false this
  else set_forceOptimal false this.

(** The [status] of the payload sent to the overlay. *)
Inductive Status : Set := computing | optimal | notOptimal.

(** "Determine status: computing, optimal, or not optimal", in
    [getOCRDataPayload] and in the screenshot loop. *)
Definition status (this : t) : Status :=
  if bool_decide (is_Some (inFlightFind this)) then computing
  else if bool_decide (0 < length (prevOptimalBounties this))%nat then
    if bool_decide (sortedJoin (slotValues (activeBounties this))
                    = sortedJoin (prevOptimalBounties this))
    then optimal else notOptimal
  else notOptimal.

(** The drop signals with the clock as the code reads it: the grace
    window of a slot is compared with a [Date.now()] of its own, read when
    the slot is tested.  [clock idx] is that reading for slot [idx]; every
    slot is tested once, the pumpkins in the first loop and the others in
    the second. *)
Definition computeActiveDropsAt (this : t) (detectedActive : Slots)
    (optimalBounties : list BountyKey) (clock : nat → Z) : list nat :=
  let pumpkins :=
    filter (λ idx, slotAt detectedActive idx = Some PUMPKIN ∧ graceOver this idx (clock idx))
           (slotKeys detectedActive) in
  let others := filter (λ bounty, bounty ≠ PUMPKIN) (insertionOrder (slotValues detectedActive)) in
  pumpkins ++
  (others ≫= λ bounty,
     let indices := filter (λ idx, slotAt detectedActive idx = Some bounty)
                           (slotKeys detectedActive) in
     let allowed := occurrences bounty optimalBounties in
     if bool_decide (allowed < length indices)%nat then
       let extras := take (length indices - allowed) indices in
       filter (λ idx, graceOver this idx (clock idx)) extras
     else []).

(** [processOCRResultsAsync] with that clock: [now] is the [Date.now()]
    read for [recentActiveAdds] at the start, [clock] gives the later
    readings of the grace tests, after [launchFindBestIfNeeded] and the
    completion block have run. *)
Definition processOCRResultsAt (this : t) (detectedActive detectedBoard : Slots)
    (boardOpen : bool) (now : Z) (clock : nat → Z) : t :=
  let this := triggerRecompute this detectedActive detectedBoard boardOpen now in
  let finish (this : t) : t :=
    set_prevActiveBounties detectedActive
      (set_boardBounties detectedBoard (set_activeBounties detectedActive this)) in
  let hasOptimal := bool_decide (0 < length (prevOptimalBounties this))%nat in
  if negb hasOptimal then
    finish (set_boardPickups [] (set_activeDrops [] this))
  else
  let optimalBounties := prevOptimalBounties this in
  let this := detectCompletion this detectedActive boardOpen now in
  let recomputeInFlight := bool_decide (is_Some (inFlightFind this)) in
  let this :=
    if suppressDropsWhileRecompute this && recomputeInFlight
    then set_activeDrops [] this
    else set_activeDrops
           (computeActiveDropsAt this detectedActive optimalBounties clock) this in
  let this :=
    if boardOpen
    then set_boardPickups (computeBoardPickups detectedActive detectedBoard optimalBounties) this
    else set_boardPickups [] this in
  finish this.

(** The rectangle [{ left, top, width, height }] handed to [extract], in
    pixels. *)
Module Rect.
Record t : Set := mk { left : Z; top : Z; width : Z; height : Z }.
End Rect.

(** [clampRect(left, top, width, height, maxW, maxH)], on the rounded
    numbers [recognizeRegion] calls it with. *)
Definition clampRect (left top width height maxW maxH : Z) : Rect.t :=
  let l := Z.max 0 (Z.min left (maxW - 1)) in
  let t := Z.max 0 (Z.min top (maxH - 1)) in
  let w := Z.max 1 width in
  let h := Z.max 1 height in
  let w := if decide (maxW < l + w) then Z.max 1 (maxW - l) else w in
  let h := if decide (maxH < t + h) then Z.max 1 (maxH - t) else h in
  Rect.mk l t w h.
End OCRProcessor.

(** [computeFindBest] on the path without a worker: the first result of
    [findBestBounties] for a round trip, [None] when it throws (no result
    to take [bounties] of). *)
Definition computeFindBest (nodes : Nodes) (gps : GPS) {Q : Type} `{!PriorityQueue Q}
    (fuel : nat) (this : OCRProcessor.t) (allBounties : list BountyKey) : option Solution.t :=
  let pruningOptions :=
    if OCRProcessor.forceOptimal this then optimalPruning else defaultPruning in
  match findBestBounties nodes gps fuel allBounties true 1 pruningOptions with
  | Ok (r0 :: _) => Some r0
  | _ => None
  end.

(** ** The utility process ([workers/pathfinder-utility-process.ts]) *)

Module ComboTask.
Record t : Set := mk {
  combo : list BountyKey;
  kp : Qc;
  estimatedEfficiency : JsNum;
}.
End ComboTask.

Module ComboResult.
Record t : Set := mk {
  combo : list BountyKey;
  kp : Qc;
  actions : list Action.t;
  distance : Z;
}.
End ComboResult.

(** [(a, b) => b.kp / b.distance - a.kp / a.distance] on [ComboResult]s *)
Definition byResultEfficiency (a b : ComboResult.t) : JsNum :=
  js_sub (js_div (Num (ComboResult.kp b)) (js_of_Z (ComboResult.distance b)))
         (js_div (Num (ComboResult.kp a)) (js_of_Z (ComboResult.distance a))).

Section UtilityProcess.
Context (nodes : Nodes) (gps : GPS).
Context {Q : Type} `{!PriorityQueue Q}.

(** The [for (const task of tasks)] loop of the [evaluateChunk] message. *)
Fixpoint evaluateTasks (fuel : nat) (roundTrip : bool) (numResults : nat)
    (pruningThreshold : Qc) (tasks : list ComboTask.t) (results : list ComboResult.t)
    : Run (list ComboResult.t) :=
  match tasks with
  | [] => Ok results
  | task :: tasks =>
      let full := bool_decide (numResults ≤ length results)%nat in
      let prune :=
        if Qc_ltb pruningThreshold 1 && full then
          match last results with
          | None => Throws
          | Some worst =>
              let worstEfficiency :=
                js_div (Num (ComboResult.kp worst)) (js_of_Z (ComboResult.distance worst)) in
              Ok (js_lt (ComboTask.estimatedEfficiency task)
                        (js_mul worstEfficiency (Num pruningThreshold)))
          end
        else Ok false in
      match prune with
      | Throws => Throws
      | Unfinished => Unfinished
      | Ok true => Ok results
      | Ok false =>
          match (if full then ComboResult.distance <$> last results
                 else Some MAX_SAFE_INTEGER) with
          | None => Throws
          | Some threshold =>
              match findBestRoute nodes gps fuel (ComboTask.combo task) threshold roundTrip with
              | OutOfFuel => Unfinished
              | Returned None =>
                  evaluateTasks fuel roundTrip numResults pruningThreshold tasks results
              | Returned (Some route) =>
                  let results :=
                    results ++ [ComboResult.mk (ComboTask.combo task) (ComboTask.kp task)
                                  (Route.actions route) (Route.distance route)] in
                  let results :=
                    if bool_decide (numResults < length results)%nat
                    then take numResults (jsSort byResultEfficiency results)
                    else results in
                  evaluateTasks fuel roundTrip numResults pruningThreshold tasks results
              end
          end
      end
  end.

(** The [results] of the reply to an [evaluateChunk] message; [Throws] is
    the reply [{ ok: false }]. *)
Definition evaluateChunk (fuel : nat) (tasks : list ComboTask.t) (roundTrip : bool)
    (numResults : nat) (pruningThreshold : Qc) : Run (list ComboResult.t) :=
  match evaluateTasks fuel roundTrip numResults pruningThreshold tasks [] with
  | Ok results => Ok (jsSort byResultEfficiency results)
  | Throws => Throws
  | Unfinished => Unfinished
  end.
End UtilityProcess.

(** ** Reading the bounties off the recognised texts
    ([bounties.ts], [electron-demo.ts]) *)

(** [text.includes(search)] *)
Definition includes (text search : string) : bool :=
  match String.index 0 search text with Some _ => true | None => false end.

(** [Object.keys(bounties)] *)
Definition bountyKeys : list BountyKey :=
  [
   CARROTS; SOAP; RIBS; MEAT_WRAP; BEEF_JOINT; CLOCKWORK_SHEEP; PORCELAIN_DOLL; PLATES;
   PIN_BADGE; PUMPKIN; PIZZA; BANANAS; TIN_POCKET_WATCH; HOMESPUN_CLOTH; RAINBOW_CHEESE;
   ARGANIAN_WINE; OAK_PATTERNED_VASE; SCENTED_CANDLE; UNICORN_DUST; LANDSCAPE_PAINTING;
   CARRIAGE_CLOCK; SPECTACLES; SHARPSEED_WINE; RUG; CAVIAR; BATH_SALTS; RED_CABBAGE;
   IVORY_SWIRL_PEARL; TOMATOES; STEAK; BURGER; HAM_LEG; CLOCKWORK_DRAGON; SNOW_GLOBE;
   CUPS; POSTCARDS; RHUBARB; CURRY; ORANGES; PRECISE_POCKET_WATCH; SILK; OLD_RARG;
   FARGUST_WINE; STRIPED_VASE; TEA_LIGHTS; UNICORN_HAIR; PORTRAIT_PAINTING;
   PENDULUM_CLOCK; MONOCLE; TOPHILL_WINE; ANTIQUE_BOOK; TRUFFLES
  ].

(** [bountyNameToKeyMap]: [acc[value.name] = key] for every entry of
    [bounties]. *)
Definition bountyNameToKeyMap : gmap string BountyKey :=
  foldl (λ acc key, <[name (bountyData key) := key]> acc) ∅ bountyKeys.

(** What looking a name up in an object literal gives: an own property, a
    property of [Object.prototype], or [undefined]. *)
Inductive Lookup : Set := Key (key : BountyKey) | Inherited | Undefined.

Open Scope string_scope.

Definition objectPrototypeNames : list string :=
  ["constructor"; "hasOwnProperty"; "isPrototypeOf"; "propertyIsEnumerable";
   "toLocaleString"; "toString"; "valueOf"; "__proto__"; "__defineGetter__";
   "__defineSetter__"; "__lookupGetter__"; "__lookupSetter__"].

(** [getBountyKeyByName(name)]: [bountyNameToKeyMap[name]] *)
Definition getBountyKeyByName (name : string) : Lookup :=
  match bountyNameToKeyMap !! name with
  | Some key => Key key
  | None => if decide (name ∈ objectPrototypeNames) then Inherited else Undefined
  end.

(** [bountyNames], in the order the [Set] is gone through. *)
Definition bountyNames : list string :=
  [
   "Carrots"; "Soap"; "Ribs"; "MeatWrap"; "BeefJoint"; "ClockworkSheep";
   "PorcelainDoll"; "Plates"; "PinBadge"; "Pumpkin"; "Pizza"; "Bananas";
   "TinPocketWatch"; "HomespunCloth"; "RainbowCheese"; "ArganianWine";
   "OakPatternedVase"; "ScentedCandle"; "UnicornDust"; "Painting"; "CarriageClock";
   "Spectacles"; "SharpseedWine"; "Rug"; "Caviar"; "BathSalts"; "Cabbage"; "SwirlPearl";
   "Tomatoes"; "Steak"; "Burger"; "HamLeg"; "ClockworkDragon"; "SnowGlobe"; "Cups";
   "Postcards"; "Rhubarb"; "Curry"; "Oranges"; "PrecisePocketWatch"; "Silk"; "OldRarg";
   "FargustWine"; "StripedVase"; "TeaLights"; "UnicornHair"; "PortraitPainting";
   "PendulumClock"; "TophillWine"; "AntiqueBook"; "Truffles"
  ].

Close Scope string_scope.

(** [resolveBountyKeyFromName(bountyName)] for a name of [bountyNames]:
    each of them is the name of a bounty ([bountyNames_resolve] below), so
    what is stored in a slot is a key. *)
Definition resolveBountyKeyFromName (bountyName : string) : option BountyKey :=
  match getBountyKeyByName bountyName with Key key => Some key | _ => None end.

(** The keys of [initialRegions]: ["activeBountyRegion" + index],
    ["boardRegion" + index] and the three others. *)
Inductive RegionKey : Set :=
  | activeBountyRegion (index : nat)
  | boardRegion (index : nat)
  | chatRegion
  | bountyBoardTitleRegion
  | timerRegion.

#[global] Instance RegionKey_eq_dec : EqDecision RegionKey.
Proof. solve_decision. Defined.

(** [slots[index] = bounty] *)
Definition setSlot (slots : Slots) (index : nat) (bounty : BountyKey) : Slots :=
  if decide (index < length slots)%nat then <[index := Some bounty]> slots
  else slots ++ replicate (index - length slots) None ++ [Some bounty].

(** [for (const bountyName of bountyNames) if (text.includes(bountyName)
    && text.includes("6")) slots[index] = ...] *)
Definition detectInto (slots : Slots) (index : nat) (text : string) : Slots :=
  foldl (λ slots bountyName,
           if includes text bountyName && includes text "6" then
             match resolveBountyKeyFromName bountyName with
             | Some bountyKey => setSlot slots index bountyKey
             | None => slots
             end
           else slots)
        slots bountyNames.

(** The first loop of [processOCRResultsAsync]: [detectedActive] and
    [detectedBoard] from the texts of the regions. *)
Definition detectBounties (results : list (RegionKey * string)) : Slots * Slots :=
  foldl (λ '(detectedActive, detectedBoard) '(key, text),
           if decide (text = EmptyString) then (detectedActive, detectedBoard)
           else
             match key with
             | activeBountyRegion index =>
                 (detectInto detectedActive index text, detectedBoard)
             | boardRegion index =>
                 (detectedActive, detectInto detectedBoard index text)
             | _ => (detectedActive, detectedBoard)
             end)
        ([], []) results.

(** * Vocabulary of the properties *)

(** ** Status vectors and stops *)

(** How many tasks are held: bought and not yet sold. *)
Definition inProgress (bountyStates : list BountyStatus) : nat :=
  length (filter (λ state, state = IN_PROGRESS) bountyStates).

(** The state of a stop after selling and buying at the node of [state]. *)
Definition stopAt (nodes : Nodes) (gps : GPS) (bounties : list BountyKey)
    (state : SearchState.t) : Stop.t :=
  buyLoop nodes gps (SearchState.previousNode state) (SearchState.currentNode state) 0 bounties
    (sellLoop nodes gps (SearchState.previousNode state) (SearchState.currentNode state) 0 bounties
       (Stop.mk (SearchState.distance state) 0 0 (SearchState.bountyStates state)
          (SearchState.actions state))).

(** The actions a stop's first sale or purchase is appended to: those so
    far, or those plus the travel steps to this node. *)
Definition arrivedWith (nodes : Nodes) (gps : GPS) (actions actions' : list Action.t) : Prop :=
  actions' = actions ∨
  ∃ previousNode currentNode,
    actions' = addTravelSteps nodes gps actions previousNode currentNode.

Definition sellAction (bounty : BountyKey) (distance : Z) : Action.t :=
  Action.mk sell (Some bounty) (AtMarket (buyer (bountyData bounty))) distance.
Definition buyAction (bounty : BountyKey) (distance : Z) : Action.t :=
  Action.mk buy (Some bounty) (AtMarket (seller (bountyData bounty))) distance.
Definition returnAction (distance : Z) : Action.t :=
  Action.mk return_ None AtBountyBoard distance.

(** A property of (time so far, status vector, actions so far), read off a
    stop and off a queued state. *)
Definition InvStop (Inv : Z → list BountyStatus → list Action.t → Prop) (s : Stop.t) : Prop :=
  Inv (Stop.distance s) (Stop.bountyStates s) (Stop.actions s).
Definition InvState (Inv : Z → list BountyStatus → list Action.t → Prop)
    (s : SearchState.t) : Prop :=
  Inv (SearchState.distance s) (SearchState.bountyStates s) (SearchState.actions s).

(** ** Travel steps *)

(** [actions[actions.length - 1].distance], 0 for no actions. *)
Definition lastDistance (actions : list Action.t) : Z :=
  match last actions with Some a => Action.distance a | None => 0 end.

(** A teleport step stamped [currentDistance + teleportTime] of its portal. *)
Definition teleportFrom (nodes : Nodes) (currentDistance : Z) (a : Action.t) : Prop :=
  a = teleportTo (CRENOPOLIS_MARKET nodes) AtCrenopolisMarket currentDistance ∨
  a = teleportTo (CRENOPOLIS_OUTSKIRTS nodes) AtCrenopolisOutskirts currentDistance.

(** ** Inventory along a route *)

(** What an action adds to the inventory space in use: a purchase takes 6
    of the [inventorySpace], a sale frees them. *)
Definition cargo (a : Action.t) : Z :=
  match Action.type a with buy => 6 | sell => -6 | _ => 0 end.

Fixpoint capacityInUse (actions : list Action.t) : Z :=
  match actions with
  | [] => 0
  | a :: actions => cargo a + capacityInUse actions
  end.

(** The space in use never exceeds [inventorySpace], after any number of
    the actions. *)
Definition capacityRespected (actions : list Action.t) : Prop :=
  ∀ n, capacityInUse (take n actions) ≤ inventorySpace.

(** Every purchase is made with room for it: before the [n]-th action, if
    it is a buy, at least 6 of the [inventorySpace] are free. *)
Definition boughtWithRoom (actions : list Action.t) : Prop :=
  ∀ n a, actions !! n = Some a → Action.type a = buy →
         capacityInUse (take n actions) + 6 ≤ inventorySpace.

Definition capacityInv (d : Z) (st : list BountyStatus) (acts : list Action.t) : Prop :=
  capacityInUse acts = 6 * Z.of_nat (inProgress st) ∧ capacityRespected acts.

(** ** Timing along a route *)

(** [wellTimed nodes base actions]: reading the actions in order, with
    [base] the time of the last buy, sell or return seen so far (0 before
    the first), every buy, sell or return is stamped no earlier than
    [base], and every teleport is stamped [base] plus its portal's
    [teleportTime]. *)
Fixpoint wellTimed (nodes : Nodes) (base : Z) (actions : list Action.t) : Prop :=
  match actions with
  | [] => True
  | a :: actions =>
      if decide (Action.type a = teleport)
      then teleportFrom nodes base a ∧ wellTimed nodes base actions
      else base ≤ Action.distance a ∧ wellTimed nodes (Action.distance a) actions
  end.

(** The time of the last buy, sell or return of [actions], [base] if there
    is none. *)
Fixpoint lastStamp (base : Z) (actions : list Action.t) : Z :=
  match actions with
  | [] => base
  | a :: actions =>
      lastStamp (if decide (Action.type a = teleport) then base else Action.distance a) actions
  end.

Definition timingInv (nodes : Nodes) (d : Z) (st : list BountyStatus)
    (acts : list Action.t) : Prop :=
  wellTimed nodes 0 acts ∧ lastStamp 0 acts ≤ d ∧ lastDistance acts = lastStamp 0 acts.

(** The times of consecutive actions never decrease. *)
Definition timesNonDecreasing (actions : list Action.t) : Prop :=
  ∀ i a b, actions !! i = Some a → actions !! S i = Some b →
           Action.distance a ≤ Action.distance b.

(** ** Purchases and sales along a route *)

(** [a] is the action of kind [type] (buy or sell) for the item [k]. *)
Definition actionOn (type : ActionType) (k : BountyKey) (a : Action.t) : Prop :=
  Action.type a = type ∧ Action.item a = Some k.

#[global] Instance actionOn_dec type k a : Decision (actionOn type k a).
Proof. unfold actionOn. apply _. Defined.

(** How many buy (sell) actions for [k] there are among [actions]. *)
Definition countOn (type : ActionType) (k : BountyKey) (actions : list Action.t) : nat :=
  length (filter (actionOn type k) actions).

(** How many actions of kind [type] there are among [actions]. *)
Definition countType (type : ActionType) (actions : list Action.t) : nat :=
  length (filter (λ a, Action.type a = type) actions).

(** How many instances of [k] the subset holds. *)
Definition instances (k : BountyKey) (bounties : list BountyKey) : nat :=
  length (filter (λ b, b = k) bounties).

(** The instances of [k] whose status satisfies [P]. *)
Definition instancesWith (P : BountyStatus → Prop) `{!∀ s, Decision (P s)}
    (k : BountyKey) (bounties : list BountyKey) (bountyStates : list BountyStatus) : nat :=
  length (filter (λ p, p.1 = k ∧ P p.2) (zip bounties bountyStates)).

(** Each instance of the subset is bought exactly once and sold exactly
    once, and at no point of the route has an item been sold more often than
    bought. *)
Definition eachBoughtThenSold (bounties : list BountyKey) (actions : list Action.t) : Prop :=
  countType buy actions = length bounties ∧
  countType sell actions = length bounties ∧
  ∀ k, countOn buy k actions = instances k bounties ∧
       countOn sell k actions = instances k bounties ∧
       ∀ n, (countOn sell k (take n actions) ≤ countOn buy k (take n actions))%nat.

Definition countingInv (bounties : list BountyKey) (d : Z) (st : list BountyStatus)
    (acts : list Action.t) : Prop :=
  length st = length bounties ∧
  countType buy acts = length (filter (λ s, s ≠ NOT_STARTED) st) ∧
  countType sell acts = length (filter (λ s, s = COMPLETED) st) ∧
  ∀ k, countOn buy k acts = instancesWith (λ s, s ≠ NOT_STARTED) k bounties st ∧
       countOn sell k acts = instancesWith (λ s, s = COMPLETED) k bounties st ∧
       ∀ n, (countOn sell k (take n acts) ≤ countOn buy k (take n acts))%nat.

(** ** The measure of the search *)

(** How many status changes (NOT_STARTED to IN_PROGRESS to COMPLETED) a
    status vector is away from all COMPLETED. *)
Definition remaining (bountyStates : list BountyStatus) : nat :=
  sum_list_with (λ state, match state with
                          | NOT_STARTED => 2 | IN_PROGRESS => 1 | COMPLETED => 0
                          end%nat) bountyStates.

(** A bound on the number of states the search visits below a state that is
    [r] status changes away from the end: it has at most [r] successors,
    each at most [r - 1] changes away. *)
Fixpoint treeSize (r : nat) : nat :=
  match r with
  | O => 1
  | S r' => 1 + r * treeSize r'
  end.

(** Something is sold or bought at [node] by a state with the statuses
    [st]. *)
Definition productive (nodes : Nodes) (bounties : list BountyKey) (node : Z)
    (st : list BountyStatus) : Prop :=
  Exists (λ b, buyerNode nodes b = node) (withStatus IN_PROGRESS bounties st) ∨
  (canPurchaseMoreItems st = true ∧
   Exists (λ b, sellerNode nodes b = node) (withStatus NOT_STARTED bounties st)).

#[global] Instance productive_dec nodes bounties node st :
  Decision (productive nodes bounties node st).
Proof. unfold productive. apply _. Defined.

Definition weight (nodes : Nodes) (bounties : list BountyKey) (s : SearchState.t) : nat :=
  if decide (productive nodes bounties (SearchState.currentNode s) (SearchState.bountyStates s))
  then treeSize (remaining (SearchState.bountyStates s))
  else treeSize (S (remaining (SearchState.bountyStates s))).

Definition totalWeight (nodes : Nodes) (bounties : list BountyKey)
    {Q : Type} `{!PriorityQueue Q} (pq : Q) : nat :=
  sum_list_with (weight nodes bounties) (pq_elements pq).

(** The number of loop iterations that is always enough. *)
Definition enoughFuel (nodes : Nodes) (bounties : list BountyKey) : nat :=
  S (weight nodes bounties (startState nodes bounties)).

(** ** The cached solution *)

(** The cached solution: [prevOptimalBounties], [kp], [distanceSeconds]. *)
Definition cached (this : OCRProcessor.t) : list BountyKey * JsNum * JsNum :=
  (OCRProcessor.prevOptimalBounties this, OCRProcessor.kp this,
   OCRProcessor.distanceSeconds this).

(** [kp / distanceSeconds] of the cached solution. *)
Definition cachedEfficiency (this : OCRProcessor.t) : JsNum :=
  js_div (OCRProcessor.kp this) (OCRProcessor.distanceSeconds this).

(** What the planner delivers for a non-empty subset: a positive reward
    (every [kp] of the catalogue is positive) and a positive time. *)
Definition plausible (resp : Solution.t) : Prop :=
  Solution.bounties resp ≠ [] → (0 < Solution.kp resp)%Qc ∧ 0 < Solution.distance resp.

(** A cached solution has a positive reward and a positive time. *)
Definition cacheSound (this : OCRProcessor.t) : Prop :=
  OCRProcessor.prevOptimalBounties this ≠ [] →
  ∃ k d, OCRProcessor.kp this = Num k ∧ OCRProcessor.distanceSeconds this = Num d ∧
         (0 < k)%Qc ∧ (0 < d)%Qc.

(** The state after the computations [completions] have settled, in this
    order; each with the signature it was launched for and its outcome. *)
Definition settleAll (this : OCRProcessor.t)
    (completions : list (gmultiset BountyKey * option Solution.t)) : OCRProcessor.t :=
  foldl (λ this c, OCRProcessor.findBestSettled this c.1 c.2) this completions.

(** The deliveries made in a state. *)
Definition completed (st : list BountyStatus) : nat :=
  length (filter (λ state, state = COMPLETED) st).

(** Every delivery made has taken the time of a sale. *)
Definition salesInv (bounties : list BountyKey) (d : Z) (st : list BountyStatus)
    (acts : list Action.t) : Prop :=
  length st = length bounties ∧ timeToSell * Z.of_nat (completed st) ≤ d.

(** ** Terminal states within reach *)

Section Reach.
Context (nodes : Nodes) (gps : GPS) (bounties : list BountyKey) (roundTrip : bool).

(** The nodes the search moves on to from a stop: the seller of every task
    not started, while there is room in the inventory, and the buyer of
    every task in progress. *)
Definition nextNodes (bountyStates : list BountyStatus) : list Z :=
  (if canPurchaseMoreItems bountyStates
   then sellerNode nodes <$> withStatus NOT_STARTED bounties bountyStates
   else [])
  ++ (buyerNode nodes <$> withStatus IN_PROGRESS bounties bountyStates).

(** The state the search queues for the move from the stop of [state] to
    [nextNode]. *)
Definition moveTo (state : SearchState.t) (nextNode : Z) : SearchState.t :=
  let stop := stopAt nodes gps bounties state in
  let currentNode := SearchState.currentNode state in
  SearchState.mk (Stop.distance stop + Gps.distance (gps (Some currentNode) nextNode))
    (Some currentNode) nextNode (Stop.bountyStates stop) (Stop.actions stop).

(** The time of the route that ends at the stop of [state]: that of the
    stop, with the way back to the bounty board for a round trip. *)
Definition totalAt (state : SearchState.t) : Z :=
  let stop := stopAt nodes gps bounties state in
  let currentNode := SearchState.currentNode state in
  if roundTrip && bool_decide (currentNode ≠ bountyBoard_node nodes)
  then Stop.distance stop + Gps.distance (gps (Some currentNode) (bountyBoard_node nodes))
  else Stop.distance stop.

(** [completes state total]: the moves of the search lead from [state] to a
    terminal state, one whose stop leaves every delivery completed, and the
    route that ends there takes [total]. *)
Inductive completes : SearchState.t → Z → Prop :=
  | completes_here state :
      deliveriesCompleted (Stop.bountyStates (stopAt nodes gps bounties state)) = true →
      completes state (totalAt state)
  | completes_move state nextNode total :
      nextNode ∈ nextNodes (Stop.bountyStates (stopAt nodes gps bounties state)) →
      completes (moveTo state nextNode) total →
      completes state total.
End Reach.

(** Two stops that differ by [delta] in the time, and in the actions. *)
Definition shifted (delta : Z) (a b : Stop.t) : Prop :=
  Stop.distance b = Stop.distance a + delta ∧
  Stop.numItemsBought b = Stop.numItemsBought a ∧
  Stop.numItemsSold b = Stop.numItemsSold a ∧
  Stop.bountyStates b = Stop.bountyStates a.

Section Watch.
Context (nodes : Nodes) (gps : GPS) (bounties : list BountyKey) (roundTrip : bool).
Context {Q : Type} `{!PriorityQueue Q}.

(** A queued state of less weight than [w] completes in [total] at most. *)
Definition covered (pq : Q) (w : nat) (total : Z) : Prop :=
  ∃ state total',
    state ∈ pq_elements pq ∧ (weight nodes bounties state < w)%nat ∧ total' ≤ total ∧
    completes nodes gps bounties roundTrip state total'.

(** Whatever a state skipped for an entry of [visited] would complete
    below [bestDistance], a queued state of less weight completes as well. *)
Definition watched (bestDistance : Z) (pq : Q) (visited : gmap (Z * list BountyStatus) Z)
    : Prop :=
  ∀ state total,
    visited !! (SearchState.currentNode state, SearchState.bountyStates state)
    = Some (SearchState.distance state) →
    total < bestDistance → completes nodes gps bounties roundTrip state total →
    covered pq (weight nodes bounties state) total.
End Watch.

(** ** Routes and selections *)

(** The action types a route is made of, and where a [return] may stand:
    not at all, or once and last, stamped with the route's total time. *)
Definition returnsOnce (route : Route.t) : Prop :=
  countType return_ (Route.actions route) = 0%nat ∨
  ∃ actions,
    Route.actions route = actions ++ [returnAction (Route.distance route)] ∧
    countType return_ actions = 0%nat.

(** A number of loop iterations that is enough for every call of
    [findBestRoute] that [findBestBounties] makes for [bounties]. *)
Definition plannerFuel (bounties : list BountyKey) : nat :=
  S (treeSize (S (2 * Nat.min (length bounties) 6))).

(** [combo.reduce((acc, bounty) => acc + bountyData[bounty].kp, 0)] *)
Definition totalKp (combo : list BountyKey) : Qc :=
  foldl (λ acc bounty, (acc + kp (bountyData bounty))%Qc) 0%Qc combo.

(** What a result of [findBestBounties bounties] is: a selection of
    [min(n, 6)] of the bounties with the sum of their rewards, and a route
    that buys and sells each of them once, within the inventory. *)
Definition validSolution (bounties : list BountyKey) (r : Solution.t) : Prop :=
  Solution.bounties r `sublist_of` bounties ∧
  length (Solution.bounties r) = Nat.min (length bounties) 6 ∧
  Solution.kp r = totalKp (Solution.bounties r) ∧
  eachBoughtThenSold (Solution.bounties r) (Solution.actions r) ∧
  capacityRespected (Solution.actions r).

(** [a] is at least as efficient as [b], both efficiencies being numbers. *)
Definition atLeastAsEfficient (a b : Solution.t) : Prop :=
  ∃ ea eb, efficiency a = Num ea ∧ efficiency b = Num eb ∧ (eb ≤ ea)%Qc.

(** ** The utility process and the detection loop *)

(** A task as an entry of [comboData], and a result of [findBestBounties]
    as a result of the utility process. *)
Definition taskData (task : ComboTask.t) (estimatedDistance : Z) : ComboData.t :=
  ComboData.mk (ComboTask.combo task) (ComboTask.kp task) estimatedDistance
    (ComboTask.estimatedEfficiency task).

Definition asComboResult (r : Solution.t) : ComboResult.t :=
  ComboResult.mk (Solution.bounties r) (Solution.kp r) (Solution.actions r)
    (Solution.distance r).

Definition asComboResults (run : Run (list Solution.t)) : Run (list ComboResult.t) :=
  match run with
  | Ok results => Ok (asComboResult <$> results)
  | Throws => Throws
  | Unfinished => Unfinished
  end.

(** An entry of [comboData] as the task sent to the utility process. *)
Definition asTask (data : ComboData.t) : ComboTask.t :=
  ComboTask.mk (ComboData.combo data) (ComboData.kp data) (ComboData.estimatedEfficiency data).

(** The loop of [detectInto] over any list of names and any way of
    resolving them. *)
Definition detectLoop (resolve : string → option BountyKey) (index : nat) (text : string)
    (names : list string) (slots : Slots) : Slots :=
  foldl (λ slots bountyName,
           if includes text bountyName && includes text "6" then
             match resolve bountyName with
             | Some bountyKey => setSlot slots index bountyKey
             | None => slots
             end
           else slots)
        slots names.

(** ** Slots and statistics *)


(** The slots of [slots] that hold [bounty], in ascending order. *)
Definition slotsWith (bounty : BountyKey) (slots : Slots) : list nat :=
  filter (λ idx, slotAt slots idx = Some bounty) (slotKeys slots).

(** The counters of the statistics, which a completed run leaves alone: it
    adds to the duration only. *)
Definition counters (stats : OCRProcessor.SessionStats) : Qc * nat * gmap BountyKey nat :=
  (OCRProcessor.totalKpEarned stats, OCRProcessor.totalBountiesCompleted stats,
   OCRProcessor.bountyTypeCounts stats).

(** The bounties that [bountyTypeCounts] accounts for. *)
Definition countedBounties (counts : gmap BountyKey nat) : nat :=
  map_fold (λ _ count total, (count + total)%nat) 0%nat counts.

(** The total of the statistics is that of the per-type counts. *)
Definition statsConsistent (stats : OCRProcessor.SessionStats) : Prop :=
  OCRProcessor.totalBountiesCompleted stats
  = countedBounties (OCRProcessor.bountyTypeCounts stats).

(** What happens to a processor: a snapshot is processed, a computation
    settles, the user asks for a recalculation.  [worker] is the
    processor's [useWorkerForPathfinder && pathfinderWorker], which its
    constructor fixes. *)
Inductive Event : Type :=
  | Snapshot (detectedActive detectedBoard : Slots) (boardOpen : bool) (now : Z)
  | Settled (sig : gmultiset BountyKey) (outcome : option Solution.t)
  | ForceOptimal (worker : bool) (now : Z).

Definition handle (this : OCRProcessor.t) (event : Event) : OCRProcessor.t :=
  match event with
  | Snapshot detectedActive detectedBoard boardOpen now =>
      OCRProcessor.processOCRResults this detectedActive detectedBoard boardOpen now
  | Settled sig outcome => OCRProcessor.findBestSettled this sig outcome
  | ForceOptimal worker now => OCRProcessor.forceOptimalRecalculation worker this now
  end.

(** * Concrete inputs

    Markets on a line: a node's number is its position, the time between
    two nodes is the difference of their positions, the bounty board is at
    0.  Markets an example does not use are far away, at 1000. *)

Definition lineGps : GPS := λ startNode endNode,
  match startNode with
  | Some a => Gps.mk (Z.abs (endNode - a)) [a; endNode]
  | None => Gps.mk 0 []
  end.

Definition farPortals (marketNode : Market → Z) : Nodes :=
  mkNodes marketNode 0 (mkPortal 2000 30) (mkPortal 3000 30).

(** Greengrocers at 5, toy stall at 10, chef at 1. *)
Definition grocerNodes : Nodes :=
  farPortals (λ m, match m with
                   | GREENGROCERS => 5 | TOY_STALL => 10 | CHEF => 1 | _ => 1000
                   end).

Definition grocerRun (threshold : Z) : Outcome :=
  findBestRoute grocerNodes lineGps (Q := list SearchState.t) 100
    [CARROTS; TOMATOES] threshold true.

(** Five markets of the clock makers' quarter. *)
Definition clockNodes : Nodes :=
  farPortals (λ m, match m with
                   | CHEF => 4 | CLOCK_STALL => 20 | FRANCESCAS_FRUIT_STALL => 18
                   | PENNYS_CLOCKWORK => 2 | TEXTILES_STALL => 7 | _ => 1000
                   end).

Definition clockBounties : list BountyKey :=
  [ORANGES; HOMESPUN_CLOTH; PENDULUM_CLOCK; BANANAS; CLOCKWORK_SHEEP; PIZZA; CARRIAGE_CLOCK].

Definition withPizza : list BountyKey :=
  [ORANGES; HOMESPUN_CLOTH; PENDULUM_CLOCK; BANANAS; PIZZA; CARRIAGE_CLOCK].

(** The way from the greengrocers (5) to the toy stall (100) leads through
    both portal nodes, 50 and 60; the portals take [marketTime] and
    [outskirtsTime] seconds: 30 and 10 in [portalNodes], 30 each in
    [twinPortalNodes]. *)
Definition portalNodesWith (marketTime outskirtsTime : Z) : Nodes :=
  mkNodes (λ m, match m with GREENGROCERS => 5 | TOY_STALL => 100 | _ => 1000 end)
          0 (mkPortal 50 marketTime) (mkPortal 60 outskirtsTime).

Definition portalNodes : Nodes := portalNodesWith 30 10.
Definition twinPortalNodes : Nodes := portalNodesWith 30 30.

Definition portalGps : GPS := λ startNode endNode,
  match startNode with
  | Some a =>
      let between := filter (λ n, a < n < endNode ∨ endNode < n < a) [50; 60] in
      Gps.mk (Z.abs (endNode - a))
        (a :: (if decide (a ≤ endNode) then between else reverse between) ++ [endNode])
  | None => Gps.mk 0 []
  end.

(** A processor with the default options, and what becomes of it when one
    snapshot after the other is processed and the computation launched by
    the first has settled in between. *)
Definition freshProcessor : OCRProcessor.t := OCRProcessor.new 20000 2000 true.

Definition observed (this : OCRProcessor.t) (held : list (option BountyKey)) (now : Z)
    : OCRProcessor.t :=
  OCRProcessor.processOCRResults this held [] false now.

Definition settled (this : OCRProcessor.t) (allBounties : list BountyKey) : OCRProcessor.t :=
  OCRProcessor.findBestSettled this (sortedJoin allBounties)
    (computeFindBest grocerNodes lineGps (Q := list SearchState.t) 100 this allBounties).

(** A pumpkin is held from time 0 on; the computation for the empty set of
    other bounties settles; the slot is looked at again at time 5000. *)
Definition pumpkinHeld : OCRProcessor.t :=
  observed (settled (observed freshProcessor [Some PUMPKIN] 0) []) [Some PUMPKIN] 5000.

(** Carrots and tomatoes are held and planned for. *)
Definition twoHeld : OCRProcessor.t :=
  observed (settled (observed freshProcessor [Some CARROTS; Some TOMATOES] 0)
              [CARROTS; TOMATOES])
           [Some CARROTS; Some TOMATOES] 1000.

(** Carrots alone are held and planned for. *)
Definition oneHeld : OCRProcessor.t :=
  observed (settled (observed freshProcessor [Some CARROTS] 0) [CARROTS]) [Some CARROTS] 1000.

(** * Properties of the route planner *)

Lemma canPurchaseMoreItems_fold (space : Z) (bountyStates : list BountyStatus) :
  foldl (λ availableSpace state,
           if decide (state = IN_PROGRESS) then availableSpace - 6 else availableSpace)
        space bountyStates
  = space - 6 * Z.of_nat (inProgress bountyStates).
Proof.
  unfold inProgress. revert space.
  induction bountyStates as [|state l IH]; intros space; simpl; [lia|].
  rewrite IH, filter_cons. case_decide; [rewrite length_cons|]; lia.
Qed.

Lemma canPurchaseMoreItems_spec (bountyStates : list BountyStatus) :
  canPurchaseMoreItems bountyStates = true ↔ (inProgress bountyStates ≤ 3)%nat.
Proof.
  unfold canPurchaseMoreItems. rewrite canPurchaseMoreItems_fold, bool_decide_eq_true.
  unfold inventorySpace. lia.
Qed.

Lemma filter_length_insert {A} (P : A → Prop) `{!∀ x, Decision (P x)}
    (l : list A) (i : nat) (x y : A) :
  l !! i = Some y →
  (length (filter P (<[i:=x]> l)) + (if decide (P y) then 1 else 0)
   = length (filter P l) + (if decide (P x) then 1 else 0))%nat.
Proof.
  revert i. induction l as [|z l IH]; intros [|i]; simpl; try done.
  - intros [= ->]. rewrite !filter_cons.
    destruct (decide (P x)), (decide (P y)); simpl; lia.
  - intros Hi. specialize (IH _ Hi). rewrite !filter_cons.
    destruct (decide (P z)); simpl; lia.
Qed.

Lemma deliveriesCompleted_spec (bountyStates : list BountyStatus) :
  deliveriesCompleted bountyStates = true ↔ Forall (λ state, state = COMPLETED) bountyStates.
Proof.
  unfold deliveriesCompleted. rewrite forallb_forall, Forall_forall.
  split; intros H x Hx.
  - apply list_elem_of_In in Hx. apply H in Hx. by apply bool_decide_eq_true in Hx.
  - apply bool_decide_eq_true, H. by apply list_elem_of_In.
Qed.

Lemma withStatus_completed (status : BountyStatus) (bounties : list BountyKey)
    (bountyStates : list BountyStatus) :
  status ≠ COMPLETED →
  deliveriesCompleted bountyStates = true →
  withStatus status bounties bountyStates = [].
Proof.
  intros Hne Hall%deliveriesCompleted_spec. unfold withStatus.
  revert bounties. induction Hall as [|state l -> _ IH]; intros [|b bounties]; simpl; try done.
  rewrite filter_cons. simpl. case_decide; [congruence|]. apply IH.
Qed.

(** ** Invariants of the search

    Every state in the queue was built from the start state by selling,
    buying and moving.  A property of (time so far, status vector, actions
    so far) that these three preserve holds of every queued state, hence of
    the state a route is returned from. *)
Section SearchInvariant.
Context (nodes : Nodes) (gps : GPS).
Context {Q : Type} `{!PriorityQueue Q}.
Context (bounties : list BountyKey).
Context (Inv : Z → list BountyStatus → list Action.t → Prop).
Context (Post : Route.t → Prop).

Hypothesis Inv_start : Inv 0 (replicate (length bounties) NOT_STARTED) [].
Hypothesis Inv_sell : ∀ d st acts acts' i b,
  Inv d st acts → bounties !! i = Some b → st !! i = Some IN_PROGRESS →
  arrivedWith nodes gps acts acts' →
  Inv (d + timeToSell) (<[i:=COMPLETED]> st) (acts' ++ [sellAction b (d + timeToSell)]).
Hypothesis Inv_buy : ∀ d d' st acts acts' i b,
  Inv d st acts → bounties !! i = Some b → st !! i = Some NOT_STARTED →
  canPurchaseMoreItems st = true →
  arrivedWith nodes gps acts acts' → d' = d ∨ d' = d + timeToBuy →
  Inv d' (<[i:=IN_PROGRESS]> st) (acts' ++ [buyAction b d']).
Hypothesis Inv_move : ∀ d st acts currentNode nextNode,
  Inv d st acts → Inv (d + Gps.distance (gps (Some currentNode) nextNode)) st acts.
Hypothesis Post_here : ∀ d st acts,
  Inv d st acts → deliveriesCompleted st = true → Post (Route.mk acts d).
Hypothesis Post_return : ∀ d st acts currentNode,
  Inv d st acts → deliveriesCompleted st = true →
  let d' := d + Gps.distance (gps (Some currentNode) (bountyBoard_node nodes)) in
  Post (Route.mk (addTravelSteps nodes gps acts (Some currentNode) (bountyBoard_node nodes)
                    ++ [returnAction d']) d').

Lemma lookup_middle_length {A} (pre rest : list A) (b : A) :
  (pre ++ b :: rest) !! length pre = Some b.
Proof. by rewrite lookup_app_r, Nat.sub_diag. Qed.

Lemma sellLoop_Inv previousNode currentNode pre rest s :
  bounties = pre ++ rest → InvStop Inv s →
  InvStop Inv (sellLoop nodes gps previousNode currentNode (length pre) rest s).
Proof.
  revert pre s. induction rest as [|b rest IH]; intros pre s Hb Hs; simpl; [done|].
  replace (S (length pre)) with (length (pre ++ [b])) by (rewrite length_app; simpl; lia).
  apply IH; [by rewrite <- app_assoc|].
  destruct (decide (currentNode ≠ buyerNode nodes b)); [done|].
  destruct (decide (Stop.bountyStates s !! length pre ≠ Some IN_PROGRESS)) as [|Hst]; [done|].
  apply dec_stable in Hst.
  unfold InvStop; simpl. apply Inv_sell with (acts := Stop.actions s); try done.
  - subst bounties. apply lookup_middle_length.
  - unfold arrivedWith. case_decide; eauto.
Qed.

Lemma buyLoop_Inv previousNode currentNode pre rest s :
  bounties = pre ++ rest → InvStop Inv s →
  InvStop Inv (buyLoop nodes gps previousNode currentNode (length pre) rest s).
Proof.
  revert pre s. induction rest as [|b rest IH]; intros pre s Hb Hs; simpl; [done|].
  destruct (canPurchaseMoreItems (Stop.bountyStates s)) eqn:Hcan; simpl; [|done].
  replace (S (length pre)) with (length (pre ++ [b])) by (rewrite length_app; simpl; lia).
  apply IH; [by rewrite <- app_assoc|].
  destruct (decide (currentNode ≠ sellerNode nodes b)); [done|].
  destruct (decide (Stop.bountyStates s !! length pre ≠ Some NOT_STARTED)) as [|Hst]; [done|].
  apply dec_stable in Hst.
  unfold InvStop; simpl.
  apply Inv_buy with (d := Stop.distance s) (acts := Stop.actions s); try done.
  - subst bounties. apply lookup_middle_length.
  - unfold arrivedWith. case_decide; eauto.
  - case_decide; eauto.
Qed.

Lemma enqueueNext_Inv bestDistance currentNode d st acts nextNode pq :
  Inv d st acts → Forall (InvState Inv) (pq_elements pq) →
  Forall (InvState Inv)
    (pq_elements (enqueueNext gps bestDistance currentNode d st acts nextNode pq)).
Proof.
  intros Hi Hpq. unfold enqueueNext. case_decide; [|done].
  rewrite pq_enqueue_elements. constructor; [|done].
  unfold InvState; simpl. by apply Inv_move.
Qed.

Lemma enqueueSuccessors_Inv bestDistance currentNode d st acts pq :
  Inv d st acts → Forall (InvState Inv) (pq_elements pq) →
  Forall (InvState Inv)
    (pq_elements (enqueueSuccessors nodes gps bounties bestDistance currentNode d st acts pq)).
Proof.
  intros Hi Hpq. unfold enqueueSuccessors.
  assert (Hfold : ∀ (f : BountyKey → Z) l pq0, Forall (InvState Inv) (pq_elements pq0) →
    Forall (InvState Inv) (pq_elements
      (foldl (λ pq bounty, enqueueNext gps bestDistance currentNode d st acts (f bounty) pq)
             pq0 l))).
  { intros f l. induction l as [|b l IH]; intros pq0 H0; simpl; [done|].
    apply IH. by apply enqueueNext_Inv. }
  apply (Hfold (buyerNode nodes)).
  destruct (canPurchaseMoreItems st); [|done].
  by apply (Hfold (sellerNode nodes)).
Qed.

Lemma stopAt_Inv state : InvState Inv state → InvStop Inv (stopAt nodes gps bounties state).
Proof.
  intros Hs. unfold stopAt.
  apply (buyLoop_Inv _ _ []); [done|]. by apply (sellLoop_Inv _ _ []).
Qed.

Lemma visit_Return bestDistance roundTrip state pq visited route :
  InvState Inv state →
  visit nodes gps bounties bestDistance roundTrip state pq visited = Return route →
  Post route ∧ Route.distance route < bestDistance.
Proof.
  intros Hs%stopAt_Inv. unfold visit. fold (stopAt nodes gps bounties state).
  case_decide; [done|].
  destruct (match visited !! _ with Some _ => _ | None => _ end); [done|].
  case_decide; [done|].
  destruct (deliveriesCompleted _) eqn:Hall; [|done].
  destruct (roundTrip && _); case_decide; try done; intros [= <-]; split; try done.
  - by apply (Post_return _ (Stop.bountyStates (stopAt nodes gps bounties state)) _ (SearchState.currentNode state)).
  - by apply (Post_here _ (Stop.bountyStates (stopAt nodes gps bounties state))).
Qed.

Lemma visit_Continue bestDistance roundTrip state pq visited pq' visited' :
  InvState Inv state → Forall (InvState Inv) (pq_elements pq) →
  visit nodes gps bounties bestDistance roundTrip state pq visited = Continue pq' visited' →
  Forall (InvState Inv) (pq_elements pq').
Proof.
  intros Hs%stopAt_Inv Hpq. unfold visit. fold (stopAt nodes gps bounties state).
  case_decide; [by intros [= <- _]|].
  destruct (match visited !! _ with Some _ => _ | None => _ end); [by intros [= <- _]|].
  case_decide; [by intros [= <- _]|].
  destruct (deliveriesCompleted _) eqn:Hall.
  - assert (∀ d acts, pq_elements (enqueueSuccessors nodes gps bounties bestDistance
        (SearchState.currentNode state) d (Stop.bountyStates (stopAt nodes gps bounties state)) acts pq)
        = pq_elements pq) as Hsame.
    { intros d acts. unfold enqueueSuccessors.
      rewrite !withStatus_completed by done. simpl. by destruct (canPurchaseMoreItems _). }
    destruct (roundTrip && _); case_decide; try done; intros [= <- _]; by rewrite Hsame.
  - intros [= <- _]. by apply enqueueSuccessors_Inv.
Qed.

Lemma search_Inv fuel bestDistance roundTrip pq visited route :
  Forall (InvState Inv) (pq_elements pq) →
  search nodes gps fuel bounties bestDistance roundTrip pq visited = Returned (Some route) →
  Post route ∧ Route.distance route < bestDistance.
Proof.
  revert pq visited. induction fuel as [|fuel IH]; intros pq visited Hpq; simpl; [done|].
  destruct (pq_dequeue pq) as [[state pq1]|] eqn:Hdq; [|done].
  apply pq_dequeue_Some in Hdq as [Hperm _]. rewrite Hperm in Hpq.
  apply Forall_cons in Hpq as [Hstate Hpq1].
  destruct (visit _ _ _ _ _ _ _ _) as [pq2 visited2|r] eqn:Hvisit.
  - apply IH. by eapply visit_Continue.
  - intros [= <-]. by eapply visit_Return.
Qed.

(** Every route [findBestRoute] returns satisfies [Post], and is shorter
    than the threshold. *)
Lemma findBestRoute_Inv fuel threshold roundTrip route :
  findBestRoute nodes gps fuel bounties threshold roundTrip = Returned (Some route) →
  Post route ∧ Route.distance route < threshold.
Proof.
  apply search_Inv. rewrite pq_enqueue_elements, pq_new_elements.
  by constructor.
Qed.
End SearchInvariant.

Section TravelSteps.
Context (nodes : Nodes) (gps : GPS).

Lemma addTravelSteps_app actions startNode endNode :
  ∃ steps, addTravelSteps nodes gps actions startNode endNode = actions ++ steps ∧
           Forall (teleportFrom nodes (lastDistance actions)) steps.
Proof.
  unfold addTravelSteps. fold (lastDistance actions).
  case_decide; [exists []; by rewrite app_nil_r|].
  generalize (take (length (Gps.path (gps startNode endNode)) - 2)
                   (drop 1 (Gps.path (gps startNode endNode)))).
  intros l. generalize (lastDistance actions) as cur. intros cur.
  assert (∀ acc, ∃ steps,
    foldl (λ actions node,
             if includeTeleportSteps
                && bool_decide (node = portal_node (CRENOPOLIS_MARKET nodes)) then
               actions ++ [teleportTo (CRENOPOLIS_MARKET nodes) AtCrenopolisMarket cur]
             else if includeTeleportSteps
                && bool_decide (node = portal_node (CRENOPOLIS_OUTSKIRTS nodes)) then
               actions ++ [teleportTo (CRENOPOLIS_OUTSKIRTS nodes) AtCrenopolisOutskirts cur]
             else actions) acc l = acc ++ steps ∧ Forall (teleportFrom nodes cur) steps) as Hfold.
  { induction l as [|node l IH]; intros acc; simpl.
    - exists []. by rewrite app_nil_r.
    - destruct (bool_decide (node = portal_node (CRENOPOLIS_MARKET nodes)));
        [|destruct (bool_decide (node = portal_node (CRENOPOLIS_OUTSKIRTS nodes)))].
      + destruct (IH (acc ++ [teleportTo (CRENOPOLIS_MARKET nodes) AtCrenopolisMarket cur]))
          as (steps & E & Hs).
        eexists (_ :: steps). split; [|constructor; [by left|done]].
        etransitivity; [exact E|]. by rewrite <- app_assoc.
      + destruct (IH (acc ++ [teleportTo (CRENOPOLIS_OUTSKIRTS nodes) AtCrenopolisOutskirts cur]))
          as (steps & E & Hs).
        eexists (_ :: steps). split; [|constructor; [by right|done]].
        etransitivity; [exact E|]. by rewrite <- app_assoc.
      + apply IH. }
  apply Hfold.
Qed.

Lemma teleportFrom_type cur a : teleportFrom nodes cur a → Action.type a = teleport.
Proof. by intros [-> | ->]. Qed.

Lemma arrivedWith_app actions actions' :
  arrivedWith nodes gps actions actions' →
  ∃ steps, actions' = actions ++ steps ∧ Forall (teleportFrom nodes (lastDistance actions)) steps.
Proof.
  intros [-> | (p & c & ->)]; [exists []; by rewrite app_nil_r|].
  apply addTravelSteps_app.
Qed.
End TravelSteps.

Lemma capacityInUse_app (l1 l2 : list Action.t) :
  capacityInUse (l1 ++ l2) = capacityInUse l1 + capacityInUse l2.
Proof. induction l1 as [|a l1 IH]; simpl; lia. Qed.

Lemma capacityInUse_teleports cur nodes (steps : list Action.t) :
  Forall (teleportFrom nodes cur) steps → capacityInUse steps = 0.
Proof.
  induction 1 as [|a l Ha _ IH]; simpl; [done|].
  unfold cargo. rewrite (teleportFrom_type _ _ _ Ha). lia.
Qed.

Lemma capacityRespected_app (l1 l2 : list Action.t) :
  capacityRespected l1 →
  (∀ n, capacityInUse l1 + capacityInUse (take n l2) ≤ inventorySpace) →
  capacityRespected (l1 ++ l2).
Proof.
  intros H1 H2 n. rewrite take_app.
  destruct (decide (n ≤ length l1)%nat) as [Hle|Hgt].
  - replace (n - length l1)%nat with 0%nat by lia. rewrite take_0, app_nil_r. apply H1.
  - rewrite take_ge by lia. rewrite capacityInUse_app. apply H2.
Qed.

Lemma capacityRespected_arrive nodes cur (l steps : list Action.t) (a : Action.t) :
  capacityRespected l → Forall (teleportFrom nodes cur) steps →
  capacityInUse l + cargo a ≤ inventorySpace →
  capacityInUse l ≤ inventorySpace →
  capacityRespected ((l ++ steps) ++ [a]).
Proof.
  intros Hl Hs Ha Hl'. apply capacityRespected_app.
  - apply capacityRespected_app; [done|]. intros n.
    rewrite (capacityInUse_teleports cur nodes (take n steps)); [lia|]. by apply Forall_take.
  - intros [|n]; rewrite capacityInUse_app, (capacityInUse_teleports cur nodes steps) by done;
      simpl; [lia|]. rewrite take_nil. simpl. lia.
Qed.

Section Capacity.
Context (nodes : Nodes) (gps : GPS).
Context {Q : Type} `{!PriorityQueue Q}.
Context (bounties : list BountyKey).

Lemma findBestRoute_capacity fuel threshold roundTrip route :
  findBestRoute nodes gps fuel bounties threshold roundTrip = Returned (Some route) →
  capacityRespected (Route.actions route).
Proof.
  intros Hrun.
  apply (findBestRoute_Inv nodes gps bounties capacityInv
           (λ r, capacityRespected (Route.actions r))) in Hrun; [tauto|..].
  - split; [|by intros [|n]].
    unfold inProgress. simpl.
    induction (length bounties) as [|n IH]; simpl; [done|].
    rewrite filter_cons. by case_decide.
  - intros d st acts acts' i b [Hload Hok] Hb Hst (steps & -> & Hsteps)%arrivedWith_app.
    pose proof (filter_length_insert (λ s, s = IN_PROGRESS) st i COMPLETED IN_PROGRESS Hst) as Hlen.
    rewrite !decide_True in Hlen by done. rewrite decide_False in Hlen by done.
    fold (inProgress st) in Hlen. fold (inProgress (<[i:=COMPLETED]> st)) in Hlen.
    pose proof (Hok (length acts)) as Hcap. rewrite take_ge in Hcap by lia.
    split.
    + rewrite !capacityInUse_app, (capacityInUse_teleports _ _ _ Hsteps). simpl.
      unfold cargo; simpl. lia.
    + eapply capacityRespected_arrive; try done. unfold cargo; simpl. lia.
  - intros d d' st acts acts' i b [Hload Hok] Hb Hst Hcan%canPurchaseMoreItems_spec
      (steps & -> & Hsteps)%arrivedWith_app _.
    pose proof (filter_length_insert (λ s, s = IN_PROGRESS) st i IN_PROGRESS NOT_STARTED Hst) as Hlen.
    rewrite decide_False in Hlen by done. rewrite decide_True in Hlen by done.
    fold (inProgress st) in Hlen. fold (inProgress (<[i:=IN_PROGRESS]> st)) in Hlen.
    pose proof (Hok (length acts)) as Hcap. rewrite take_ge in Hcap by lia.
    split.
    + rewrite !capacityInUse_app, (capacityInUse_teleports _ _ _ Hsteps). simpl.
      unfold cargo; simpl. lia.
    + eapply capacityRespected_arrive; try done. unfold cargo, inventorySpace; simpl. lia.
  - done.
  - by intros d st acts [_ Hok] _.
  - intros d st acts cur [Hload Hok] _ d'. simpl.
    destruct (addTravelSteps_app nodes gps acts (Some cur) (bountyBoard_node nodes))
      as (steps & -> & Hsteps).
    pose proof (Hok (length acts)) as Hcap. rewrite take_ge in Hcap by lia.
    eapply capacityRespected_arrive; try done. unfold cargo; simpl. lia.
Qed.
End Capacity.

(** ** Timing along a route *)

Lemma wellTimed_app nodes base (l1 l2 : list Action.t) :
  wellTimed nodes base (l1 ++ l2) ↔
  wellTimed nodes base l1 ∧ wellTimed nodes (lastStamp base l1) l2.
Proof.
  revert base. induction l1 as [|a l1 IH]; intros base; simpl; [tauto|].
  case_decide; rewrite IH; tauto.
Qed.

Lemma lastStamp_app base (l1 l2 : list Action.t) :
  lastStamp base (l1 ++ l2) = lastStamp (lastStamp base l1) l2.
Proof. revert base. induction l1 as [|a l1 IH]; intros base; simpl; [done|]. apply IH. Qed.

Lemma wellTimed_teleports nodes base (steps : list Action.t) :
  Forall (teleportFrom nodes base) steps →
  wellTimed nodes base steps ∧ lastStamp base steps = base.
Proof.
  induction 1 as [|a l Ha _ [IH1 IH2]]; simpl; [done|].
  rewrite !decide_True by by eapply teleportFrom_type. done.
Qed.

Lemma lastDistance_snoc (l : list Action.t) (a : Action.t) :
  lastDistance (l ++ [a]) = Action.distance a.
Proof. unfold lastDistance. by rewrite last_snoc. Qed.

Section Timing.
Context (nodes : Nodes) (gps : GPS).
Context {Q : Type} `{!PriorityQueue Q}.
Context (bounties : list BountyKey).
Hypothesis gps_nonneg : ∀ from to, 0 ≤ Gps.distance (gps (Some from) to).

Lemma timingInv_push d d' acts acts' type item location :
  timingInv nodes d (@nil BountyStatus) acts → arrivedWith nodes gps acts acts' →
  d ≤ d' → type ≠ teleport →
  timingInv nodes d' (@nil BountyStatus) (acts' ++ [Action.mk type item location d']).
Proof.
  intros (Hw & Hd & Hlast) (steps & -> & Hsteps)%arrivedWith_app Hle Hty.
  rewrite Hlast in Hsteps. apply wellTimed_teleports in Hsteps as [Hs1 Hs2].
  unfold timingInv.
  rewrite lastDistance_snoc, !wellTimed_app, !lastStamp_app, Hs2. simpl.
  rewrite !decide_False by done. simpl. repeat split; try done; lia.
Qed.

Lemma findBestRoute_timing fuel threshold roundTrip route :
  findBestRoute nodes gps fuel bounties threshold roundTrip = Returned (Some route) →
  wellTimed nodes 0 (Route.actions route) ∧
  lastStamp 0 (Route.actions route) ≤ Route.distance route.
Proof.
  intros Hrun.
  apply (findBestRoute_Inv nodes gps bounties (timingInv nodes)
           (λ r, wellTimed nodes 0 (Route.actions r) ∧
                 lastStamp 0 (Route.actions r) ≤ Route.distance r)) in Hrun; [tauto|..].
  - by repeat split.
  - intros d st acts acts' i b Hinv _ _ Harr.
    apply (timingInv_push d (d + timeToSell) acts acts'); try done. unfold timeToSell; lia.
  - intros d d' st acts acts' i b Hinv _ _ _ Harr Hd'.
    apply (timingInv_push d d' acts acts'); try done. unfold timeToBuy in Hd'; lia.
  - intros d st acts cur next (Hw & Hd & Hlast). repeat split; try done.
    specialize (gps_nonneg cur next). lia.
  - intros d st acts (Hw & Hd & _) _. done.
  - intros d st acts cur Hinv _ d'.
    assert (timingInv nodes d' [] (addTravelSteps nodes gps acts (Some cur) (bountyBoard_node nodes)
              ++ [returnAction d'])) as (Hw & Hd & _); [|done].
    apply (timingInv_push d d' acts); try done.
    + right. eauto.
    + specialize (gps_nonneg cur (bountyBoard_node nodes)). unfold d'. lia.
Qed.
End Timing.

(** ** Purchases and sales along a route *)

Lemma countOn_app type k (l1 l2 : list Action.t) :
  countOn type k (l1 ++ l2) = (countOn type k l1 + countOn type k l2)%nat.
Proof. unfold countOn. by rewrite filter_app, length_app. Qed.

Lemma countType_app type (l1 l2 : list Action.t) :
  countType type (l1 ++ l2) = (countType type l1 + countType type l2)%nat.
Proof. unfold countType. by rewrite filter_app, length_app. Qed.

Lemma countOn_teleports nodes cur type k (steps : list Action.t) :
  type ≠ teleport → Forall (teleportFrom nodes cur) steps → countOn type k steps = 0%nat.
Proof.
  intros Hty. unfold countOn. induction 1 as [|a l Ha _ IH]; [done|].
  rewrite filter_cons. rewrite decide_False; [done|].
  intros [Ht _]. apply teleportFrom_type in Ha. congruence.
Qed.

Lemma countType_teleports nodes cur type (steps : list Action.t) :
  type ≠ teleport → Forall (teleportFrom nodes cur) steps → countType type steps = 0%nat.
Proof.
  intros Hty. unfold countType. induction 1 as [|a l Ha _ IH]; [done|].
  rewrite filter_cons. rewrite decide_False; [done|].
  intros Ht. apply teleportFrom_type in Ha. congruence.
Qed.

Lemma zip_insert_r {A B} (l : list A) (k : list B) (i : nat) (x : A) (y : B) :
  l !! i = Some x → zip l (<[i:=y]> k) = <[i:=(x, y)]> (zip l k).
Proof.
  revert k i. induction l as [|a l IH]; intros [|b k] [|i]; simpl; try done.
  - by intros [= ->].
  - intros Hi. f_equal. by apply IH.
Qed.

Lemma lookup_zip_Some {A B} (l : list A) (k : list B) (i : nat) (x : A) (y : B) :
  l !! i = Some x → k !! i = Some y → zip l k !! i = Some (x, y).
Proof.
  revert k i. induction l as [|a l IH]; intros [|b k] [|i]; simpl; try done.
  - by intros [= ->] [= ->].
  - apply IH.
Qed.

Lemma instancesWith_insert (P : BountyStatus → Prop) `{!∀ s, Decision (P s)}
    k bounties (st : list BountyStatus) i b old new :
  bounties !! i = Some b → st !! i = Some old →
  (instancesWith P k bounties (<[i:=new]> st) + (if decide (b = k ∧ P old) then 1 else 0)
   = instancesWith P k bounties st + (if decide (b = k ∧ P new) then 1 else 0))%nat.
Proof.
  intros Hb Hst. unfold instancesWith. rewrite (zip_insert_r _ _ _ b) by done.
  exact (filter_length_insert (λ p, p.1 = k ∧ P p.2) (zip bounties st) i (b, new) (b, old)
           (lookup_zip_Some _ _ _ _ _ Hb Hst)).
Qed.

Lemma instancesWith_all (P : BountyStatus → Prop) `{!∀ s, Decision (P s)}
    k bounties (st : list BountyStatus) :
  length st = length bounties → Forall P st →
  instancesWith P k bounties st = instances k bounties.
Proof.
  unfold instancesWith, instances. revert st.
  induction bounties as [|b bounties IH]; intros [|s st]; simpl; try done.
  intros [= Hlen] [Hs Hst]%Forall_cons. rewrite !filter_cons. simpl.
  specialize (IH st Hlen Hst).
  destruct (decide (b = k)); [rewrite decide_True by done|rewrite decide_False by tauto];
    simpl; by rewrite IH.
Qed.

Lemma countWith_all (P : BountyStatus → Prop) `{!∀ s, Decision (P s)} (st : list BountyStatus) :
  Forall P st → length (filter P st) = length st.
Proof.
  induction 1 as [|s st Hs _ IH]; [done|]. rewrite filter_cons, decide_True by done.
  simpl. by rewrite IH.
Qed.

Lemma take_snoc_cases {A} (n : nat) (l : list A) (a : A) :
  take n (l ++ [a]) = take n l ∨ take n (l ++ [a]) = l ++ [a].
Proof.
  destruct (decide (n ≤ length l)%nat).
  - left. by rewrite take_app_le.
  - right. apply take_ge. rewrite length_app. simpl. lia.
Qed.

Lemma instancesWith_mono (P P' : BountyStatus → Prop)
    `{!∀ s, Decision (P s)} `{!∀ s, Decision (P' s)} k bounties (st : list BountyStatus) :
  (∀ s, P s → P' s) →
  (instancesWith P k bounties st ≤ instancesWith P' k bounties st)%nat.
Proof.
  intros HPP'. unfold instancesWith.
  induction (zip bounties st) as [|p l IH]; [done|].
  rewrite !filter_cons.
  destruct (decide (p.1 = k ∧ P p.2)) as [[??]|]; destruct (decide (p.1 = k ∧ P' p.2)) as [|Hn];
    simpl; try lia.
  destruct Hn; auto.
Qed.

Lemma instancesWith_replicate (P : BountyStatus → Prop) `{!∀ s, Decision (P s)} k bounties :
  ¬ P NOT_STARTED →
  instancesWith P k bounties (replicate (length bounties) NOT_STARTED) = 0%nat.
Proof.
  intros HP. unfold instancesWith.
  induction bounties as [|b bs IH]; [done|]. simpl.
  rewrite filter_cons, decide_False; [exact IH|]. simpl. tauto.
Qed.

Lemma countOn_single type k type' b location d :
  countOn type k [Action.mk type' (Some b) location d]
  = if decide (type' = type ∧ b = k) then 1%nat else 0%nat.
Proof.
  unfold countOn. rewrite filter_cons, filter_nil. unfold actionOn. simpl.
  destruct (decide (type' = type ∧ b = k)) as [[-> ->]|Hn].
  - by rewrite decide_True.
  - rewrite decide_False; [done|]. intros [-> [= ->]]. tauto.
Qed.

(** Closes the side conditions [P] and [¬ P] of [decide_True] and
    [decide_False] on statuses and action kinds. *)
Ltac decided :=
  solve [ done | tauto | split; done | intros [? ?]; done | intros [? ?]; congruence ].

Section Counting.
Context (nodes : Nodes) (gps : GPS).
Context {Q : Type} `{!PriorityQueue Q}.
Context (bounties : list BountyKey).

(** The part of [countingInv] about prefixes carries over to the actions
    with travel steps and one more action, when the counts of the whole
    still agree with the status vector. *)
Lemma prefixes_push k (st' : list BountyStatus) (acts steps : list Action.t) cur a :
  (∀ n, (countOn sell k (take n acts) ≤ countOn buy k (take n acts))%nat) →
  Forall (teleportFrom nodes cur) steps →
  countOn buy k ((acts ++ steps) ++ [a]) = instancesWith (λ s, s ≠ NOT_STARTED) k bounties st' →
  countOn sell k ((acts ++ steps) ++ [a]) = instancesWith (λ s, s = COMPLETED) k bounties st' →
  ∀ n, (countOn sell k (take n ((acts ++ steps) ++ [a]))
        ≤ countOn buy k (take n ((acts ++ steps) ++ [a])))%nat.
Proof.
  intros Hpre Hsteps Hb Hs n.
  destruct (take_snoc_cases n (acts ++ steps) a) as [-> | ->].
  - rewrite take_app, !countOn_app.
    rewrite !(countOn_teleports nodes cur _ _ (take _ steps)) by (done || by apply Forall_take).
    specialize (Hpre n). lia.
  - rewrite Hb, Hs. apply instancesWith_mono. by intros s ->.
Qed.

Lemma findBestRoute_counting fuel threshold roundTrip route :
  findBestRoute nodes gps fuel bounties threshold roundTrip = Returned (Some route) →
  eachBoughtThenSold bounties (Route.actions route).
Proof.
  intros Hrun.
  assert (Hfinal : ∀ d st acts steps cur a,
    countingInv bounties d st acts → deliveriesCompleted st = true →
    Forall (teleportFrom nodes cur) steps → Action.type a = return_ →
    eachBoughtThenSold bounties ((acts ++ steps) ++ [a])).
  { intros d st acts steps cur a (Hlen & Hbuy & Hsell & Hk) Hall%deliveriesCompleted_spec Hsteps Ha.
    assert (∀ type k, type ≠ return_ → countOn type k [a] = 0%nat) as Ha0.
    { intros type k Hty. unfold countOn. rewrite filter_cons, decide_False; [done|].
      intros [? _]. congruence. }
    assert (∀ type, type ≠ return_ → countType type [a] = 0%nat) as Ha1.
    { intros type Hty. unfold countType. rewrite filter_cons, decide_False; [done|]. congruence. }
    assert (Forall (λ s, s ≠ NOT_STARTED) st) as Hall'.
    { eapply Forall_impl; [exact Hall|]. by intros s ->. }
    unfold eachBoughtThenSold.
    rewrite !countType_app, !(countType_teleports nodes cur _ steps), !Ha1, Hbuy, Hsell by done.
    rewrite !countWith_all, Hlen by done.
    split; [lia|]. split; [lia|]. intros k. destruct (Hk k) as (Hkb & Hks & Hpre).
    rewrite !countOn_app, !(countOn_teleports nodes cur _ _ steps), !Ha0, Hkb, Hks by done.
    rewrite !instancesWith_all by done.
    split; [lia|]. split; [lia|]. intros n.
    destruct (take_snoc_cases n (acts ++ steps) a) as [-> | ->].
    - rewrite take_app, !countOn_app.
      rewrite !(countOn_teleports nodes cur _ _ (take _ steps)) by (done || by apply Forall_take).
      specialize (Hpre n). lia.
    - rewrite !countOn_app, !(countOn_teleports nodes cur _ _ steps), !Ha0, Hkb, Hks by done.
      rewrite !instancesWith_all by done. lia. }
  apply (findBestRoute_Inv nodes gps bounties (countingInv bounties)
           (λ r, eachBoughtThenSold bounties (Route.actions r))) in Hrun; [tauto|..].
  - unfold countingInv. rewrite length_replicate. split; [done|].
    assert (∀ n, filter (λ s, s ≠ NOT_STARTED) (replicate n NOT_STARTED) = []) as E1.
    { induction n as [|n IH]; [done|]. simpl. by rewrite filter_cons, decide_False by tauto. }
    assert (∀ n, filter (λ s, s = COMPLETED) (replicate n NOT_STARTED) = []) as E2.
    { induction n as [|n IH]; [done|]. simpl. by rewrite filter_cons, decide_False by done. }
    rewrite E1, E2. split; [done|]. split; [done|]. intros k.
    rewrite !instancesWith_replicate by (done || tauto). split; [done|]. split; [done|]. by intros [|n].
  - (* a sale *)
    intros d st acts acts' i b (Hlen & Hbuy & Hsell & Hk) Hb Hst (steps & -> & Hsteps)%arrivedWith_app.
    assert (Hcounts :
      countType buy ((acts ++ steps) ++ [sellAction b (d + timeToSell)])
        = length (filter (λ s, s ≠ NOT_STARTED) (<[i:=COMPLETED]> st)) ∧
      countType sell ((acts ++ steps) ++ [sellAction b (d + timeToSell)])
        = length (filter (λ s, s = COMPLETED) (<[i:=COMPLETED]> st))).
    { rewrite !countType_app, !(countType_teleports nodes _ _ steps) by done.
      pose proof (filter_length_insert (λ s, s ≠ NOT_STARTED) st i COMPLETED IN_PROGRESS Hst) as H1.
      pose proof (filter_length_insert (λ s, s = COMPLETED) st i COMPLETED IN_PROGRESS Hst) as H2.
      rewrite !decide_True in H1 by decided.
      rewrite decide_False, decide_True in H2 by decided.
      unfold countType at 2 4. simpl. lia. }
    destruct Hcounts as [Hbuy' Hsell'].
    split; [by rewrite length_insert|]. split; [done|]. split; [done|].
    intros k. destruct (Hk k) as (Hkb & Hks & Hpre).
    assert (Hkcounts :
      countOn buy k ((acts ++ steps) ++ [sellAction b (d + timeToSell)])
        = instancesWith (λ s, s ≠ NOT_STARTED) k bounties (<[i:=COMPLETED]> st) ∧
      countOn sell k ((acts ++ steps) ++ [sellAction b (d + timeToSell)])
        = instancesWith (λ s, s = COMPLETED) k bounties (<[i:=COMPLETED]> st)).
    { rewrite !countOn_app, !(countOn_teleports nodes _ _ _ steps) by done.
      pose proof (instancesWith_insert (λ s, s ≠ NOT_STARTED) k bounties st i b
                    IN_PROGRESS COMPLETED Hb Hst) as H1.
      pose proof (instancesWith_insert (λ s, s = COMPLETED) k bounties st i b
                    IN_PROGRESS COMPLETED Hb Hst) as H2.
      unfold sellAction. rewrite !countOn_single.
      destruct (decide (b = k)) as [->|Hne].
      - rewrite !decide_True in H1 by decided.
        rewrite decide_False, decide_True in H2 by decided.
        rewrite decide_False, decide_True by decided. lia.
      - rewrite !decide_False in H1 by decided. rewrite !decide_False in H2 by decided.
        rewrite !decide_False by decided. lia. }
    destruct Hkcounts as [Hkb' Hks']. split; [done|]. split; [done|].
    by eapply prefixes_push.
  - (* a purchase *)
    intros d d' st acts acts' i b (Hlen & Hbuy & Hsell & Hk) Hb Hst _
      (steps & -> & Hsteps)%arrivedWith_app _.
    assert (Hcounts :
      countType buy ((acts ++ steps) ++ [buyAction b d'])
        = length (filter (λ s, s ≠ NOT_STARTED) (<[i:=IN_PROGRESS]> st)) ∧
      countType sell ((acts ++ steps) ++ [buyAction b d'])
        = length (filter (λ s, s = COMPLETED) (<[i:=IN_PROGRESS]> st))).
    { rewrite !countType_app, !(countType_teleports nodes _ _ steps) by done.
      pose proof (filter_length_insert (λ s, s ≠ NOT_STARTED) st i IN_PROGRESS NOT_STARTED Hst) as H1.
      pose proof (filter_length_insert (λ s, s = COMPLETED) st i IN_PROGRESS NOT_STARTED Hst) as H2.
      rewrite decide_False, decide_True in H1 by decided.
      rewrite !decide_False in H2 by decided.
      unfold countType at 2 4. simpl. lia. }
    destruct Hcounts as [Hbuy' Hsell'].
    split; [by rewrite length_insert|]. split; [done|]. split; [done|].
    intros k. destruct (Hk k) as (Hkb & Hks & Hpre).
    assert (Hkcounts :
      countOn buy k ((acts ++ steps) ++ [buyAction b d'])
        = instancesWith (λ s, s ≠ NOT_STARTED) k bounties (<[i:=IN_PROGRESS]> st) ∧
      countOn sell k ((acts ++ steps) ++ [buyAction b d'])
        = instancesWith (λ s, s = COMPLETED) k bounties (<[i:=IN_PROGRESS]> st)).
    { rewrite !countOn_app, !(countOn_teleports nodes _ _ _ steps) by done.
      pose proof (instancesWith_insert (λ s, s ≠ NOT_STARTED) k bounties st i b
                    NOT_STARTED IN_PROGRESS Hb Hst) as H1.
      pose proof (instancesWith_insert (λ s, s = COMPLETED) k bounties st i b
                    NOT_STARTED IN_PROGRESS Hb Hst) as H2.
      unfold buyAction. rewrite !countOn_single.
      destruct (decide (b = k)) as [->|Hne].
      - rewrite decide_False, decide_True in H1 by decided.
        rewrite !decide_False in H2 by decided.
        rewrite decide_True, decide_False by decided. lia.
      - rewrite !decide_False in H1 by decided. rewrite !decide_False in H2 by decided.
        rewrite !decide_False by decided. lia. }
    destruct Hkcounts as [Hkb' Hks']. split; [done|]. split; [done|].
    by eapply prefixes_push.
  - done.
  - intros d st acts Hinv Hall.
    (* the route that ends here has no return action *)
    destruct Hinv as (Hlen & Hbuy & Hsell & Hk). apply deliveriesCompleted_spec in Hall.
    assert (Forall (λ s, s ≠ NOT_STARTED) st) as Hall'.
    { eapply Forall_impl; [exact Hall|]. by intros s ->. }
    unfold eachBoughtThenSold. simpl.
    rewrite Hbuy, Hsell, !countWith_all, Hlen by done.
    split; [done|]. split; [done|]. intros k. destruct (Hk k) as (Hkb & Hks & Hpre).
    rewrite Hkb, Hks, !instancesWith_all by done. done.
  - intros d st acts cur Hinv Hall d'. simpl.
    destruct (addTravelSteps_app nodes gps acts (Some cur) (bountyBoard_node nodes))
      as (steps & -> & Hsteps).
    by eapply Hfinal.
Qed.
End Counting.

(** ** Termination of the search *)

Section Termination.
Context (nodes : Nodes) (gps : GPS).
Context {Q : Type} `{!PriorityQueue Q}.
Context (bounties : list BountyKey).

Lemma treeSize_pos r : (1 ≤ treeSize r)%nat.
Proof. destruct r; simpl; lia. Qed.

Lemma treeSize_mono r r' : (r ≤ r')%nat → (treeSize r ≤ treeSize r')%nat.
Proof.
  induction 1 as [|r' _ IH]; [done|]. simpl.
  pose proof (treeSize_pos r'). nia.
Qed.

Lemma weight_pos s : (1 ≤ weight nodes bounties s)%nat.
Proof. unfold weight. case_decide; apply treeSize_pos. Qed.

Lemma remaining_insert (st : list BountyStatus) i old new :
  st !! i = Some old →
  (remaining (<[i:=new]> st) + remaining [old] = remaining st + remaining [new])%nat.
Proof.
  unfold remaining. revert i. induction st as [|s st IH]; intros [|i]; simpl; try done.
  - intros [= ->]. lia.
  - intros Hi. specialize (IH _ Hi). simpl in IH. lia.
Qed.

(** Selling and buying never undo a status change. *)
Lemma sellLoop_remaining previousNode currentNode i rest s :
  (remaining (Stop.bountyStates (sellLoop nodes gps previousNode currentNode i rest s))
   ≤ remaining (Stop.bountyStates s))%nat.
Proof.
  revert i s. induction rest as [|b rest IH]; intros i s; simpl; [done|].
  etransitivity; [apply IH|].
  destruct (decide (currentNode ≠ buyerNode nodes b)); [done|].
  destruct (decide (Stop.bountyStates s !! i ≠ Some IN_PROGRESS)) as [|Hst%dec_stable]; [done|].
  simpl. pose proof (remaining_insert _ _ _ COMPLETED Hst) as Hr. simpl in Hr.
  unfold remaining in *. simpl in *. lia.
Qed.

Lemma buyLoop_remaining previousNode currentNode i rest s :
  (remaining (Stop.bountyStates (buyLoop nodes gps previousNode currentNode i rest s))
   ≤ remaining (Stop.bountyStates s))%nat.
Proof.
  revert i s. induction rest as [|b rest IH]; intros i s; simpl; [done|].
  destruct (canPurchaseMoreItems _); simpl; [|done].
  etransitivity; [apply IH|].
  destruct (decide (currentNode ≠ sellerNode nodes b)); [done|].
  destruct (decide (Stop.bountyStates s !! i ≠ Some NOT_STARTED)) as [|Hst%dec_stable]; [done|].
  simpl. pose proof (remaining_insert _ _ _ IN_PROGRESS Hst) as Hr.
  unfold remaining in *. simpl in *. lia.
Qed.

Lemma sellLoop_progress previousNode currentNode pre rest s j b :
  (length pre ≤ j)%nat → (pre ++ rest) !! j = Some b →
  currentNode = buyerNode nodes b → Stop.bountyStates s !! j = Some IN_PROGRESS →
  (remaining (Stop.bountyStates (sellLoop nodes gps previousNode currentNode (length pre) rest s))
   + 1 ≤ remaining (Stop.bountyStates s))%nat.
Proof.
  revert pre s. induction rest as [|b0 rest IH]; intros pre s Hj Hb Hnode Hst.
  { rewrite app_nil_r in Hb. apply lookup_lt_Some in Hb. lia. }
  simpl. destruct (decide (j = length pre)) as [->|Hne].
  - rewrite lookup_middle_length in Hb. injection Hb as ->.
    rewrite decide_False by (by intros ?). rewrite decide_False by (by intros ?).
    etransitivity; [apply Nat.add_le_mono_r, sellLoop_remaining|]. simpl.
    pose proof (remaining_insert _ _ _ COMPLETED Hst) as Hr.
    unfold remaining in *. simpl in *. lia.
  - replace (S (length pre)) with (length (pre ++ [b0])) by (rewrite length_app; simpl; lia).
    assert (length (pre ++ [b0]) ≤ j)%nat as Hj' by (rewrite length_app; simpl; lia).
    assert (((pre ++ [b0]) ++ rest) !! j = Some b) as Hb' by (by rewrite <- app_assoc).
    destruct (decide (currentNode ≠ buyerNode nodes b0)); [by apply IH|].
    destruct (decide (Stop.bountyStates s !! length pre ≠ Some IN_PROGRESS))
      as [|Hst0%dec_stable]; [by apply IH|].
    etransitivity; [apply IH; try done|].
    + simpl. by rewrite list_lookup_insert_ne.
    + simpl. pose proof (remaining_insert _ _ _ COMPLETED Hst0) as Hr.
      unfold remaining in *. simpl in *. lia.
Qed.

Lemma buyLoop_progress previousNode currentNode pre rest s j b :
  (length pre ≤ j)%nat → (pre ++ rest) !! j = Some b →
  currentNode = sellerNode nodes b → Stop.bountyStates s !! j = Some NOT_STARTED →
  canPurchaseMoreItems (Stop.bountyStates s) = true →
  (remaining (Stop.bountyStates (buyLoop nodes gps previousNode currentNode (length pre) rest s))
   + 1 ≤ remaining (Stop.bountyStates s))%nat.
Proof.
  revert pre s. induction rest as [|b0 rest IH]; intros pre s Hj Hb Hnode Hst Hcan.
  { rewrite app_nil_r in Hb. apply lookup_lt_Some in Hb. lia. }
  simpl. rewrite Hcan. simpl.
  assert (∀ s0, Stop.bountyStates s !! length pre = Some NOT_STARTED →
    s0 = <[length pre := IN_PROGRESS]> (Stop.bountyStates s) →
    (remaining s0 + 1 ≤ remaining (Stop.bountyStates s))%nat) as Hbuy.
  { intros s0 Hst0 ->. pose proof (remaining_insert _ _ _ IN_PROGRESS Hst0) as Hr.
    unfold remaining in *. simpl in *. lia. }
  destruct (decide (j = length pre)) as [->|Hne].
  - rewrite lookup_middle_length in Hb. injection Hb as ->.
    rewrite decide_False by (by intros ?). rewrite decide_False by (by intros ?).
    etransitivity; [apply Nat.add_le_mono_r, buyLoop_remaining|]. simpl. by apply Hbuy.
  - replace (S (length pre)) with (length (pre ++ [b0])) by (rewrite length_app; simpl; lia).
    assert (length (pre ++ [b0]) ≤ j)%nat as Hj' by (rewrite length_app; simpl; lia).
    assert (((pre ++ [b0]) ++ rest) !! j = Some b) as Hb' by (by rewrite <- app_assoc).
    destruct (decide (currentNode ≠ sellerNode nodes b0)); [by apply IH|].
    destruct (decide (Stop.bountyStates s !! length pre ≠ Some NOT_STARTED))
      as [|Hst0%dec_stable]; [by apply IH|].
    etransitivity; [apply Nat.add_le_mono_r, buyLoop_remaining|]. simpl. by apply Hbuy.
Qed.

Lemma sellLoop_NOT_STARTED previousNode currentNode i rest s j :
  Stop.bountyStates s !! j = Some NOT_STARTED →
  Stop.bountyStates (sellLoop nodes gps previousNode currentNode i rest s) !! j
  = Some NOT_STARTED.
Proof.
  revert i s. induction rest as [|b0 rest IH]; intros i s Hst; simpl; [done|].
  apply IH.
  destruct (decide (currentNode ≠ buyerNode nodes b0)); [done|].
  destruct (decide (Stop.bountyStates s !! i ≠ Some IN_PROGRESS)) as [|Hst0%dec_stable]; [done|].
  simpl. rewrite list_lookup_insert_ne; [done|]. intros ->. congruence.
Qed.

Lemma sellLoop_inProgress previousNode currentNode i rest s :
  (inProgress (Stop.bountyStates (sellLoop nodes gps previousNode currentNode i rest s))
   ≤ inProgress (Stop.bountyStates s))%nat.
Proof.
  revert i s. induction rest as [|b0 rest IH]; intros i s; simpl; [done|].
  etransitivity; [apply IH|].
  destruct (decide (currentNode ≠ buyerNode nodes b0)); [done|].
  destruct (decide (Stop.bountyStates s !! i ≠ Some IN_PROGRESS)) as [|Hst0%dec_stable]; [done|].
  simpl.
  pose proof (filter_length_insert (λ s, s = IN_PROGRESS) _ i COMPLETED IN_PROGRESS Hst0) as Hlen.
  rewrite decide_True, decide_False in Hlen by done. unfold inProgress. lia.
Qed.

Lemma elem_of_withStatus status b (st : list BountyStatus) :
  b ∈ withStatus status bounties st ↔
  ∃ i, bounties !! i = Some b ∧ st !! i = Some status.
Proof.
  unfold withStatus. rewrite list_elem_of_fmap. split.
  - intros ([b' s'] & -> & [Hs Hin%list_elem_of_lookup]%list_elem_of_filter).
    destruct Hin as [i Hi]. simpl in *. subst s'. exists i.
    apply lookup_zip_with_Some in Hi as (x & y & [= -> ->] & ? & ?). done.
  - intros (i & Hb & Hs). exists (b, status). split; [done|].
    apply list_elem_of_filter. split; [done|].
    apply list_elem_of_lookup. exists i. by apply lookup_zip_Some.
Qed.

Lemma stopAt_remaining state :
  (remaining (Stop.bountyStates (stopAt nodes gps bounties state))
   ≤ remaining (SearchState.bountyStates state))%nat.
Proof.
  unfold stopAt. etransitivity; [apply buyLoop_remaining|].
  etransitivity; [apply sellLoop_remaining|]. done.
Qed.

Lemma stopAt_progress state :
  productive nodes bounties (SearchState.currentNode state) (SearchState.bountyStates state) →
  (remaining (Stop.bountyStates (stopAt nodes gps bounties state)) + 1
   ≤ remaining (SearchState.bountyStates state))%nat.
Proof.
  unfold stopAt.
  set (s0 := Stop.mk (SearchState.distance state) 0 0 (SearchState.bountyStates state)
               (SearchState.actions state)).
  change (SearchState.bountyStates state) with (Stop.bountyStates s0).
  intros [(b & [Hb Hnode])%Exists_exists | [Hcan (b & [Hb Hnode])%Exists_exists]];
    apply elem_of_withStatus in Hb as (j & Hb & Hst).
  - etransitivity; [apply Nat.add_le_mono_r, buyLoop_remaining|].
    by apply (sellLoop_progress _ _ [] bounties s0 j b); [simpl; lia|..].
  - etransitivity; [|apply (sellLoop_remaining (SearchState.previousNode state)
                               (SearchState.currentNode state) 0 bounties s0)].
    apply (buyLoop_progress _ _ [] bounties _ j b); [simpl; lia|done|done|..].
    + by apply sellLoop_NOT_STARTED.
    + apply canPurchaseMoreItems_spec. apply canPurchaseMoreItems_spec in Hcan.
      etransitivity; [apply sellLoop_inProgress|]. done.
Qed.

Lemma withStatus_length (st : list BountyStatus) :
  (length (withStatus NOT_STARTED bounties st) + length (withStatus IN_PROGRESS bounties st)
   ≤ remaining st)%nat.
Proof.
  unfold withStatus, remaining. rewrite !length_fmap. revert st.
  induction bounties as [|b bs IH]; intros [|s st]; simpl; try lia.
  rewrite !filter_cons. simpl. specialize (IH st).
  destruct s; repeat case_decide; simpl; try done; lia.
Qed.

Lemma enqueueNext_weight bestDistance currentNode d st acts nextNode pq :
  productive nodes bounties nextNode st →
  (totalWeight nodes bounties (enqueueNext gps bestDistance currentNode d st acts nextNode pq)
   ≤ totalWeight nodes bounties pq + treeSize (remaining st))%nat.
Proof.
  intros Hprod. unfold enqueueNext, totalWeight. case_decide; [|lia].
  rewrite pq_enqueue_elements. simpl. unfold weight at 1. simpl.
  rewrite decide_True by done. lia.
Qed.

Lemma enqueueAll_weight bestDistance currentNode d st acts (f : BountyKey → Z) l pq :
  Forall (λ b, productive nodes bounties (f b) st) l →
  (totalWeight nodes bounties (foldl (λ pq bounty,
                         enqueueNext gps bestDistance currentNode d st acts (f bounty) pq) pq l)
   ≤ totalWeight nodes bounties pq + length l * treeSize (remaining st))%nat.
Proof.
  revert pq. induction l as [|b l IH]; intros pq Hl; simpl; [lia|].
  apply Forall_cons in Hl as [Hb Hl].
  etransitivity; [by apply IH|].
  pose proof (enqueueNext_weight bestDistance currentNode d st acts (f b) pq Hb). lia.
Qed.

Lemma enqueueSuccessors_weight bestDistance currentNode d st acts pq :
  (totalWeight nodes bounties (enqueueSuccessors nodes gps bounties bestDistance currentNode d st acts pq)
   ≤ totalWeight nodes bounties pq + remaining st * treeSize (remaining st))%nat.
Proof.
  unfold enqueueSuccessors.
  pose proof (withStatus_length st) as Hlen.
  etransitivity; [apply enqueueAll_weight|].
  { apply Forall_forall. intros b Hb. left. apply Exists_exists. by exists b. }
  destruct (canPurchaseMoreItems st) eqn:Hcan.
  - etransitivity; [apply Nat.add_le_mono_r, enqueueAll_weight|].
    { apply Forall_forall. intros b Hb. right. split; [done|]. apply Exists_exists. by exists b. }
    nia.
  - nia.
Qed.

Lemma visit_weight bestDistance roundTrip state pq visited pq' visited' :
  visit nodes gps bounties bestDistance roundTrip state pq visited = Continue pq' visited' →
  (totalWeight nodes bounties pq' + 1 ≤ weight nodes bounties state + totalWeight nodes bounties pq)%nat.
Proof.
  pose proof (weight_pos state) as Hpos.
  unfold visit. fold (stopAt nodes gps bounties state).
  case_decide; [intros [= <- _]; lia|].
  destruct (match visited !! _ with Some _ => _ | None => _ end); [intros [= <- _]; lia|].
  case_decide; [intros [= <- _]; lia|].
  destruct (deliveriesCompleted _) eqn:Hall.
  - assert (∀ d acts, enqueueSuccessors nodes gps bounties bestDistance
        (SearchState.currentNode state) d (Stop.bountyStates (stopAt nodes gps bounties state))
        acts pq = pq) as Hsame.
    { intros d acts. unfold enqueueSuccessors.
      rewrite !withStatus_completed by done. simpl. by destruct (canPurchaseMoreItems _). }
    destruct (roundTrip && _); case_decide; try done; intros [= <- _]; rewrite Hsame; lia.
  - intros [= <- _].
    etransitivity; [apply Nat.add_le_mono_r, enqueueSuccessors_weight|].
    set (r' := remaining (Stop.bountyStates (stopAt nodes gps bounties state))).
    assert (treeSize (S r') ≤ weight nodes bounties state)%nat as Hw.
    { unfold weight. case_decide as Hprod.
      - apply treeSize_mono. apply stopAt_progress in Hprod. unfold r'. lia.
      - apply treeSize_mono. pose proof (stopAt_remaining state). unfold r'. lia. }
    simpl in Hw. lia.
Qed.

Lemma search_terminates fuel bestDistance roundTrip pq visited :
  (totalWeight nodes bounties pq ≤ fuel)%nat →
  ∃ result, search nodes gps (S fuel) bounties bestDistance roundTrip pq visited
            = Returned result.
Proof.
  revert pq visited. induction fuel as [|fuel IH]; intros pq visited Hw.
  - simpl. destruct (pq_dequeue pq) as [[state pq1]|] eqn:Hdq; [|by eexists].
    apply pq_dequeue_Some in Hdq as [Hperm _]. unfold totalWeight in Hw.
    rewrite Hperm in Hw. simpl in Hw. pose proof (weight_pos state). lia.
  - cbn [search]. destruct (pq_dequeue pq) as [[state pq1]|] eqn:Hdq; [|by eexists].
    apply pq_dequeue_Some in Hdq as [Hperm _]. unfold totalWeight in Hw.
    rewrite Hperm in Hw. simpl in Hw.
    destruct (visit _ _ _ _ _ _ _ _) as [pq2 visited2|r] eqn:Hvisit; [|by eexists].
    apply IH. apply visit_weight in Hvisit. fold (totalWeight nodes bounties pq1) in Hw. lia.
Qed.

(** More fuel does not change what a finished search returned. *)
Lemma search_more_fuel fuel fuel' bestDistance roundTrip pq visited result :
  (fuel ≤ fuel')%nat →
  search nodes gps fuel bounties bestDistance roundTrip pq visited = Returned result →
  search nodes gps fuel' bounties bestDistance roundTrip pq visited = Returned result.
Proof.
  revert fuel' pq visited. induction fuel as [|fuel IH]; intros fuel' pq visited Hle; [done|].
  destruct fuel' as [|fuel']; [lia|]. simpl.
  destruct (pq_dequeue pq) as [[state pq1]|]; [|done].
  destruct (visit _ _ _ _ _ _ _ _) as [pq2 visited2|r]; [|done].
  apply IH. lia.
Qed.

Lemma findBestRoute_terminates fuel threshold roundTrip :
  (enoughFuel nodes bounties ≤ fuel)%nat →
  ∃ result, findBestRoute nodes gps fuel bounties threshold roundTrip = Returned result.
Proof.
  intros Hfuel. unfold findBestRoute.
  destruct (search_terminates (weight nodes bounties (startState nodes bounties)) threshold roundTrip
              (pq_enqueue (startState nodes bounties) pq_new) ∅) as [result Hres].
  { unfold totalWeight. rewrite pq_enqueue_elements, pq_new_elements. simpl. lia. }
  exists result. by eapply search_more_fuel.
Qed.
End Termination.

(** * What the planner delivers *)

Section Sales.
Context (nodes : Nodes) (gps : GPS).
Context {Q : Type} `{!PriorityQueue Q}.
Context (bounties : list BountyKey).
Hypothesis gps_nonneg : ∀ from to, 0 ≤ Gps.distance (gps (Some from) to).

Lemma completed_insert st i old new :
st !! i = Some old → old ≠ COMPLETED →
completed (<[i:=new]> st)
= (completed st + (if decide (new = COMPLETED) then 1 else 0))%nat.
Proof.
intros Hi Hold. unfold completed.
pose proof (filter_length_insert (λ state, state = COMPLETED) st i new old Hi) as E.
rewrite (decide_False (P := old = COMPLETED)) in E by done. lia.
Qed.

Lemma completed_all st :
deliveriesCompleted st = true → completed st = length st.
Proof.
rewrite deliveriesCompleted_spec. unfold completed.
induction 1 as [|x l Hx _ IH]; [done|].
rewrite filter_cons, decide_True by done. simpl. by rewrite IH.
Qed.

(** A returned route takes at least the time of its sales. *)
Lemma findBestRoute_sales fuel threshold roundTrip route :
findBestRoute nodes gps fuel bounties threshold roundTrip = Returned (Some route) →
timeToSell * Z.of_nat (length bounties) ≤ Route.distance route.
Proof.
intros Hrun.
apply (findBestRoute_Inv nodes gps bounties (salesInv bounties)
         (λ r, timeToSell * Z.of_nat (length bounties) ≤ Route.distance r)) in Hrun;
  [tauto|..].
- split; [by rewrite length_replicate|].
  replace (completed (replicate (length bounties) NOT_STARTED)) with 0%nat;
    [unfold timeToSell; lia|].
  unfold completed. induction (length bounties) as [|n IH]; [done|].
  simpl. by rewrite filter_cons, decide_False.
- intros d st acts acts' i b [Hlen Hd] _ Hst _. split; [by rewrite length_insert|].
  rewrite (completed_insert st i IN_PROGRESS) by done.
  rewrite decide_True by done. unfold timeToSell in *. lia.
- intros d d' st acts acts' i b [Hlen Hd] _ Hst _ _ Hd'. split; [by rewrite length_insert|].
  rewrite (completed_insert st i NOT_STARTED) by done.
  rewrite decide_False by done. unfold timeToSell, timeToBuy in *. lia.
- intros d st acts cur next [Hlen Hd]. split; [done|].
  specialize (gps_nonneg cur next). lia.
- intros d st acts [Hlen Hd] Hall. simpl. by rewrite <- Hlen, <- (completed_all st).
- intros d st acts cur [Hlen Hd] Hall d'. simpl.
  rewrite <- Hlen, <- (completed_all st) by done.
  specialize (gps_nonneg cur (bountyBoard_node nodes)). unfold d'. lia.
Qed.
End Sales.

Lemma jsInsert_Permutation {A} (compare : A → A → JsNum) a l :
  jsInsert compare a l ≡ₚ a :: l.
Proof.
  induction l as [|b l IH]; [done|]. cbn [jsInsert].
  destruct (js_gt (compare a b) (Num 0%Qc)); [|done]. rewrite IH. apply Permutation_swap.
Qed.

(** [sort] rearranges. *)
Lemma jsSort_Permutation {A} (compare : A → A → JsNum) l : jsSort compare l ≡ₚ l.
Proof.
  induction l as [|a l IH]; simpl; [done|].
  by rewrite jsInsert_Permutation, IH.
Qed.

Lemma kp_pos (bounty : BountyKey) : (0 < kp (bountyData bounty))%Qc.
Proof. by destruct bounty. Qed.

Lemma comboData_kp_pos nodes combo :
  combo ≠ [] → (0 < ComboData.kp (comboDataOf nodes combo))%Qc.
Proof.
  simpl. intros Hne.
  assert (∀ l acc, (0 < acc)%Qc →
            (0 < foldl (λ acc bounty, acc + kp (bountyData bounty)) acc l)%Qc) as Hfold.
  { induction l as [|b l IH]; intros acc Hacc; simpl; [done|].
    apply IH, Qcplus_pos_pos; [done|apply kp_pos]. }
  destruct combo as [|b l]; [done|]. simpl. apply Hfold.
  apply Qcplus_nonneg_pos; [done|apply kp_pos].
Qed.

Section PlannerResults.
Context (nodes : Nodes) (gps : GPS).
Context {Q : Type} `{!PriorityQueue Q}.
Hypothesis gps_nonneg : ∀ from to, 0 ≤ Gps.distance (gps (Some from) to).

Lemma evaluate_plausible fuel roundTrip numResults options comboData results evaluated kept :
Forall (λ data, data = comboDataOf nodes (ComboData.combo data)) comboData →
Forall plausible results →
evaluate nodes gps fuel roundTrip numResults options comboData results evaluated = Ok kept →
Forall plausible kept.
Proof.
revert results evaluated.
induction comboData as [|data comboData IH]; intros results evaluated Hdata Hres; simpl.
{ by intros [= <-]. }
apply Forall_cons in Hdata as [Hd Hdata].
destruct (if _ && _ then _ else _) as [[]| |]; try done; [by intros [= <-]|].
destruct (match maxEvaluations options with Some _ => _ | None => _ end);
  [by intros [= <-]|].
destruct (if bool_decide _ then _ else _) as [threshold|]; [|done].
destruct (findBestRoute _ _ _ _ _ _) as [[route|]|] eqn:Hroute; [| |done].
- apply IH; [done|].
  assert (Forall plausible
            (results ++ [Solution.mk (ComboData.combo data) (Route.actions route)
                           (Route.distance route) (ComboData.kp data)])) as Hnew.
  { apply Forall_app. split; [done|]. apply Forall_singleton.
    intros Hne. simpl in *. split.
    - rewrite Hd. by apply comboData_kp_pos.
    - apply (findBestRoute_sales nodes gps _ gps_nonneg) in Hroute.
      destruct (ComboData.combo data); [done|]. simpl length in Hroute.
      unfold timeToSell in Hroute. lia. }
  case_bool_decide; [|done].
  apply Forall_take. by rewrite jsSort_Permutation.
- by apply IH.
Qed.

(** What [findBestBounties] returns is plausible. *)
Lemma findBestBounties_plausible fuel bounties roundTrip numResults options results :
findBestBounties nodes gps fuel bounties roundTrip numResults options = Ok results →
Forall plausible results.
Proof.
unfold findBestBounties.
destruct (evaluate _ _ _ _ _ _ _ _ _) as [kept| |] eqn:Hrun; try done.
intros [= <-]. rewrite jsSort_Permutation.
apply evaluate_plausible in Hrun; [done| |done].
rewrite jsSort_Permutation. apply Forall_fmap, Forall_true. by intros combo.
Qed.

Lemma computeFindBest_plausible fuel this allBounties resp :
computeFindBest nodes gps fuel this allBounties = Some resp → plausible resp.
Proof.
unfold computeFindBest.
destruct (findBestBounties _ _ _ _ _ _ _) as [[|r0 l]| |] eqn:Hrun; try done.
intros [= <-]. apply findBestBounties_plausible in Hrun.
by apply Forall_cons in Hrun as [? _].
Qed.
End PlannerResults.

(** ** The search finds a terminal state that is within reach *)

Section Stops.
Context (nodes : Nodes) (gps : GPS).

Lemma sellLoop_shifted delta previousNode previousNode' currentNode i rest a b :
  shifted delta a b →
  shifted delta (sellLoop nodes gps previousNode currentNode i rest a)
                (sellLoop nodes gps previousNode' currentNode i rest b).
Proof.
  revert i a b. induction rest as [|bounty rest IH]; intros i a b Hab; simpl; [done|].
  apply IH. destruct Hab as (Hd & Hb & Hs & Hst).
  destruct (decide (currentNode ≠ buyerNode nodes bounty)); [done|].
  rewrite Hst. destruct (decide (Stop.bountyStates a !! i ≠ Some IN_PROGRESS)); [done|].
  unfold shifted. simpl. rewrite Hd, Hb, Hs. split; [lia|done].
Qed.

Lemma buyLoop_shifted delta previousNode previousNode' currentNode i rest a b :
  shifted delta a b →
  shifted delta (buyLoop nodes gps previousNode currentNode i rest a)
                (buyLoop nodes gps previousNode' currentNode i rest b).
Proof.
  revert i a b. induction rest as [|bounty rest IH]; intros i a b Hab; simpl; [done|].
  pose proof Hab as (Hd & Hb & Hs & Hst). rewrite Hst.
  destruct (canPurchaseMoreItems (Stop.bountyStates a)); simpl; [|done].
  apply IH.
  destruct (decide (currentNode ≠ sellerNode nodes bounty)); [done|].
  destruct (decide (Stop.bountyStates a !! i ≠ Some NOT_STARTED)); [done|].
  unfold shifted. simpl. rewrite Hd, Hb, Hs.
  split; [case_decide; lia|done].
Qed.

Lemma sellLoop_later previousNode currentNode i rest s :
  Stop.distance s ≤ Stop.distance (sellLoop nodes gps previousNode currentNode i rest s).
Proof.
  revert i s. induction rest as [|bounty rest IH]; intros i s; simpl; [done|].
  etransitivity; [|apply IH].
  destruct (decide (currentNode ≠ buyerNode nodes bounty)); [done|].
  destruct (decide (Stop.bountyStates s !! i ≠ Some IN_PROGRESS)); [done|].
  simpl. unfold timeToSell. lia.
Qed.

Lemma buyLoop_later previousNode currentNode i rest s :
  Stop.distance s ≤ Stop.distance (buyLoop nodes gps previousNode currentNode i rest s).
Proof.
  revert i s. induction rest as [|bounty rest IH]; intros i s; simpl; [done|].
  destruct (canPurchaseMoreItems (Stop.bountyStates s)); simpl; [|done].
  etransitivity; [|apply IH].
  destruct (decide (currentNode ≠ sellerNode nodes bounty)); [done|].
  destruct (decide (Stop.bountyStates s !! i ≠ Some NOT_STARTED)); [done|].
  simpl. unfold timeToBuy. case_decide; lia.
Qed.
End Stops.

Section Completeness.
Context (nodes : Nodes) (gps : GPS) (bounties : list BountyKey) (roundTrip : bool).
Context {Q : Type} `{!PriorityQueue Q}.

Lemma stopAt_shifted state state' :
  SearchState.currentNode state' = SearchState.currentNode state →
  SearchState.bountyStates state' = SearchState.bountyStates state →
  shifted (SearchState.distance state' - SearchState.distance state)
          (stopAt nodes gps bounties state) (stopAt nodes gps bounties state').
Proof.
  intros Hnode Hst. unfold stopAt. rewrite Hnode.
  apply buyLoop_shifted, sellLoop_shifted. unfold shifted. simpl. rewrite Hst.
  split; [lia|done].
Qed.

Lemma stopAt_later state :
  SearchState.distance state ≤ Stop.distance (stopAt nodes gps bounties state).
Proof.
  unfold stopAt. etransitivity; [|apply buyLoop_later].
  etransitivity; [|apply sellLoop_later]. done.
Qed.

(** What a state completes in depends on its node, its statuses and its
    time only, and moves with its time. *)
Lemma completes_shifted state total state' :
  completes nodes gps bounties roundTrip state total →
  SearchState.currentNode state' = SearchState.currentNode state →
  SearchState.bountyStates state' = SearchState.bountyStates state →
  completes nodes gps bounties roundTrip state'
    (total + (SearchState.distance state' - SearchState.distance state)).
Proof.
  intros Hc. revert state'.
  induction Hc as [state Hall|state nextNode total Hnext _ IH]; intros state' Hnode Hst.
  - destruct (stopAt_shifted state state' Hnode Hst) as (Hd & _ & _ & Hs).
    replace (totalAt nodes gps bounties roundTrip state
             + (SearchState.distance state' - SearchState.distance state))
      with (totalAt nodes gps bounties roundTrip state').
    + apply completes_here. by rewrite Hs.
    + unfold totalAt. rewrite Hnode, Hd. destruct (_ && _); lia.
  - destruct (stopAt_shifted state state' Hnode Hst) as (Hd & _ & _ & Hs).
    apply (completes_move _ _ _ _ _ nextNode); [by rewrite Hs|].
    specialize (IH (moveTo nodes gps bounties state' nextNode)).
    replace (total + (SearchState.distance state' - SearchState.distance state))
      with (total + (SearchState.distance (moveTo nodes gps bounties state' nextNode)
                     - SearchState.distance (moveTo nodes gps bounties state nextNode))).
    + apply IH; simpl; [done|by rewrite Hs].
    + simpl. rewrite Hnode, Hd. lia.
Qed.

Lemma completes_later state total :
  (∀ from to, 0 ≤ Gps.distance (gps (Some from) to)) →
  completes nodes gps bounties roundTrip state total →
  Stop.distance (stopAt nodes gps bounties state) ≤ total.
Proof.
  intros gps_nonneg. induction 1 as [state Hall|state nextNode total Hnext Hc IH].
  - unfold totalAt.
    pose proof (gps_nonneg (SearchState.currentNode state) (bountyBoard_node nodes)).
    destruct (_ && _); lia.
  - pose proof (stopAt_later (moveTo nodes gps bounties state nextNode)) as Hl. simpl in Hl.
    pose proof (gps_nonneg (SearchState.currentNode state) nextNode). lia.
Qed.

(** ** The weight goes down along a move *)

Lemma treeSize_lt r : (treeSize r < treeSize (S r))%nat.
Proof. pose proof (treeSize_pos r). simpl. nia. Qed.

Lemma nextNodes_productive (bountyStates : list BountyStatus) nextNode :
  nextNode ∈ nextNodes nodes bounties bountyStates →
  productive nodes bounties nextNode bountyStates.
Proof.
  unfold nextNodes, productive. intros [Hin|Hin]%elem_of_app.
  - destruct (canPurchaseMoreItems bountyStates) eqn:Hcan; [|by apply elem_of_nil in Hin].
    apply list_elem_of_fmap in Hin as (b & -> & Hb). right. split; [done|].
    apply Exists_exists. by exists b.
  - apply list_elem_of_fmap in Hin as (b & -> & Hb). left. apply Exists_exists. by exists b.
Qed.

Lemma weight_moveTo state nextNode :
  nextNode ∈ nextNodes nodes bounties (Stop.bountyStates (stopAt nodes gps bounties state)) →
  (weight nodes bounties (moveTo nodes gps bounties state nextNode)
   < weight nodes bounties state)%nat.
Proof.
  intros Hprod%nextNodes_productive. unfold weight at 1. simpl.
  rewrite decide_True by done. unfold weight.
  pose proof (stopAt_remaining nodes gps bounties state) as Hle.
  case_decide as Hp.
  - pose proof (stopAt_progress nodes gps bounties state Hp) as Hlt.
    eapply Nat.lt_le_trans; [apply treeSize_lt|]. apply treeSize_mono. lia.
  - eapply Nat.le_lt_trans; [|apply treeSize_lt]. by apply treeSize_mono.
Qed.
(** ** What an iteration leaves in the queue *)

Lemma elem_of_enqueueNext bestDistance currentNode d st acts nextNode (pq : Q) state :
  state ∈ pq_elements (enqueueNext gps bestDistance currentNode d st acts nextNode pq) ↔
  state ∈ pq_elements pq ∨
  d + Gps.distance (gps (Some currentNode) nextNode) < bestDistance ∧
  state = SearchState.mk (d + Gps.distance (gps (Some currentNode) nextNode))
            (Some currentNode) nextNode st acts.
Proof.
  unfold enqueueNext. case_decide.
  - rewrite pq_enqueue_elements, elem_of_cons. split.
    + intros [->|?]; [by right|by left].
    + intros [?|[_ ->]]; [by right|by left].
  - split; [by left|]. by intros [?|[? _]].
Qed.

Lemma elem_of_enqueueAll bestDistance currentNode d st acts (f : BountyKey → Z) l (pq : Q)
    state :
  state ∈ pq_elements
            (foldl (λ pq bounty,
                      enqueueNext gps bestDistance currentNode d st acts (f bounty) pq) pq l) ↔
  state ∈ pq_elements pq ∨
  ∃ nextNode,
    nextNode ∈ f <$> l ∧
    d + Gps.distance (gps (Some currentNode) nextNode) < bestDistance ∧
    state = SearchState.mk (d + Gps.distance (gps (Some currentNode) nextNode))
              (Some currentNode) nextNode st acts.
Proof.
  revert pq. induction l as [|b l IH]; intros pq; simpl.
  - split; [by left|]. intros [?|(n & ?%elem_of_nil & _)]; done.
  - rewrite IH, elem_of_enqueueNext. split.
    + intros [[?|[? ?]]|(n & ? & ? & ?)]; [by left| |].
      * right. exists (f b). split; [by left|done].
      * right. exists n. split; [by right|done].
    + intros [?|(n & [->|?]%elem_of_cons & ? & ?)]; [by left; left| |].
      * left. by right.
      * right. by exists n.
Qed.

Lemma elem_of_enqueueSuccessors bestDistance currentNode d st acts (pq : Q) state :
  state ∈ pq_elements
            (enqueueSuccessors nodes gps bounties bestDistance currentNode d st acts pq) ↔
  state ∈ pq_elements pq ∨
  ∃ nextNode,
    nextNode ∈ nextNodes nodes bounties st ∧
    d + Gps.distance (gps (Some currentNode) nextNode) < bestDistance ∧
    state = SearchState.mk (d + Gps.distance (gps (Some currentNode) nextNode))
              (Some currentNode) nextNode st acts.
Proof.
  unfold enqueueSuccessors, nextNodes.
  rewrite (elem_of_enqueueAll _ _ _ _ _ (buyerNode nodes)).
  destruct (canPurchaseMoreItems st).
  - rewrite (elem_of_enqueueAll _ _ _ _ _ (sellerNode nodes)). split.
    + intros [[?|(n & ? & ?)]|(n & ? & ?)]; [by left| |].
      * right. exists n. split; [apply elem_of_app; by left|done].
      * right. exists n. split; [apply elem_of_app; by right|done].
    + intros [?|(n & [?|?]%elem_of_app & ?)]; [by left; left| |].
      * left. right. by exists n.
      * right. by exists n.
  - split.
    + intros [?|(n & ? & ?)]; [by left|]. right. exists n. split; [by apply elem_of_app; right|done].
    + intros [?|(n & [?%elem_of_nil|?]%elem_of_app & ?)]; [by left|done|]. right. by exists n.
Qed.

Lemma nextNodes_completed (bountyStates : list BountyStatus) :
  deliveriesCompleted bountyStates = true → nextNodes nodes bounties bountyStates = [].
Proof.
  intros Hall. unfold nextNodes. rewrite !withStatus_completed by done.
  by destruct (canPurchaseMoreItems _).
Qed.

(** The ways an iteration goes round again: the state is dropped, or it
    is entered in [visited] and its moves are queued. *)
Lemma visit_Continue_cases bestDistance state (pq : Q) visited pq' visited' :
  visit nodes gps bounties bestDistance roundTrip state pq visited = Continue pq' visited' →
  (pq' = pq ∧ visited' = visited ∧
   (bestDistance ≤ SearchState.distance state ∨
    ∃ d, visited !! (SearchState.currentNode state, SearchState.bountyStates state) = Some d ∧
         d ≤ SearchState.distance state)) ∨
  (visited' = <[(SearchState.currentNode state, SearchState.bountyStates state)
                := SearchState.distance state]> visited ∧
   (bestDistance ≤ Stop.distance (stopAt nodes gps bounties state) ∧ pq' = pq ∨
    Stop.distance (stopAt nodes gps bounties state) < bestDistance ∧
    (if deliveriesCompleted (Stop.bountyStates (stopAt nodes gps bounties state))
     then bestDistance ≤ totalAt nodes gps bounties roundTrip state
     else True) ∧
    ∀ state',
      state' ∈ pq_elements pq' ↔
      state' ∈ pq_elements pq ∨
      ∃ nextNode,
        nextNode ∈ nextNodes nodes bounties
                     (Stop.bountyStates (stopAt nodes gps bounties state)) ∧
        SearchState.distance (moveTo nodes gps bounties state nextNode) < bestDistance ∧
        state' = moveTo nodes gps bounties state nextNode)).
Proof.
  unfold visit. fold (stopAt nodes gps bounties state).
  case_decide as Hfar; [intros [= <- <-]; left; by eauto|].
  destruct (match visited !! _ with Some d => _ | None => false end) eqn:Hhit.
  { intros [= <- <-]. left. split; [done|]. split; [done|]. right.
    destruct (visited !! _) as [d|]; [|done]. apply bool_decide_eq_true in Hhit. by exists d. }
  case_decide as Hlong; [intros [= <- <-]; right; split; [done|]; by left|].
  destruct (deliveriesCompleted _) eqn:Hall.
  - destruct (roundTrip && _) eqn:Hrt;
      destruct (decide (_ < bestDistance)) as [Hret|Hret]; try (by intros [=]);
      intros [= <- <-]; right; (split; [done|]); right; (split; [lia|]);
      (split; [unfold totalAt; rewrite Hrt; lia|]);
      intros state'; rewrite elem_of_enqueueSuccessors, nextNodes_completed by done;
      split; intros [?|(n & ?%elem_of_nil & _)]; done || by left.
  - intros [= <- <-]. right. split; [done|]. right. split; [lia|]. split; [done|].
    intros state'. apply elem_of_enqueueSuccessors.
Qed.

(** ** Nothing that completes below the threshold is lost *)

Section NonNegative.
Hypothesis gps_nonneg : ∀ from to, 0 ≤ Gps.distance (gps (Some from) to).

(** The state an iteration takes from the queue, if it completes below the
    threshold and the search goes on, is made up for by a queued state of
    less weight. *)
Lemma visit_covered bestDistance state (pq0 pq : Q) visited pq' visited' total :
  pq_elements pq0 ≡ₚ state :: pq_elements pq →
  watched nodes gps bounties roundTrip bestDistance pq0 visited →
  visit nodes gps bounties bestDistance roundTrip state pq visited = Continue pq' visited' →
  total < bestDistance → completes nodes gps bounties roundTrip state total →
  covered nodes gps bounties roundTrip pq' (weight nodes bounties state) total.
Proof.
  intros Hperm Hwatched Hvisit Htotal Hc.
  pose proof (completes_later state total gps_nonneg Hc) as Hstop.
  pose proof (stopAt_later state) as Harrive.
  destruct (visit_Continue_cases _ _ _ _ _ _ Hvisit) as
    [(-> & -> & [Hfar|(d & Hd & Hle)])|(-> & [[Hlong _]|(_ & Hterminal & Hpq')])];
    [lia| |lia|].
  - set (state1 := SearchState.mk d (SearchState.previousNode state)
                     (SearchState.currentNode state) (SearchState.bountyStates state)
                     (SearchState.actions state)).
    pose proof (completes_shifted state total state1 Hc eq_refl eq_refl) as Hc1.
    apply Hwatched in Hc1; [|done|simpl; lia].
    destruct Hc1 as (state2 & total2 & Hin & Hw & Hle2 & Hc2).
    exists state2, total2. split; [|split; [done|split; [simpl in Hle2; lia|done]]].
    rewrite Hperm in Hin. apply elem_of_cons in Hin as [->|Hin]; [|done].
    unfold weight in Hw. simpl in Hw. lia.
  - inversion Hc as [state0 Hall|state0 nextNode total0 Hnext Hc']; subst.
    + rewrite Hall in Hterminal. lia.
    + exists (moveTo nodes gps bounties state nextNode), total.
      split; [|split; [by apply weight_moveTo|split; [lia|done]]].
      apply Hpq'. right. exists nextNode. split; [done|]. split; [|done].
      pose proof (completes_later _ _ gps_nonneg Hc') as Hstop'.
      pose proof (stopAt_later (moveTo nodes gps bounties state nextNode)). lia.
Qed.

Lemma visit_keeps bestDistance state (pq : Q) visited pq' visited' state' :
  visit nodes gps bounties bestDistance roundTrip state pq visited = Continue pq' visited' →
  state' ∈ pq_elements pq → state' ∈ pq_elements pq'.
Proof.
  intros Hvisit Hin.
  destruct (visit_Continue_cases _ _ _ _ _ _ Hvisit) as [(-> & _)|(_ & [[_ ->]|(_ & _ & Hpq')])];
    try done.
  apply Hpq'. by left.
Qed.

Lemma covered_step bestDistance state (pq0 pq : Q) visited pq' visited' w total :
  pq_elements pq0 ≡ₚ state :: pq_elements pq →
  watched nodes gps bounties roundTrip bestDistance pq0 visited →
  visit nodes gps bounties bestDistance roundTrip state pq visited = Continue pq' visited' →
  total < bestDistance →
  covered nodes gps bounties roundTrip pq0 w total →
  covered nodes gps bounties roundTrip pq' w total.
Proof.
  intros Hperm Hwatched Hvisit Htotal (state1 & total1 & Hin & Hw & Hle & Hc).
  rewrite Hperm in Hin. apply elem_of_cons in Hin as [->|Hin].
  - destruct (visit_covered _ _ _ _ _ _ _ total1 Hperm Hwatched Hvisit) as
      (state2 & total2 & Hin2 & Hw2 & Hle2 & Hc2); [lia|done|].
    exists state2, total2. split; [done|]. split; [lia|]. split; [lia|done].
  - exists state1, total1. split; [by eapply visit_keeps|done].
Qed.

Lemma visit_watched bestDistance state (pq0 pq : Q) visited pq' visited' :
  pq_elements pq0 ≡ₚ state :: pq_elements pq →
  watched nodes gps bounties roundTrip bestDistance pq0 visited →
  visit nodes gps bounties bestDistance roundTrip state pq visited = Continue pq' visited' →
  watched nodes gps bounties roundTrip bestDistance pq' visited'.
Proof.
  intros Hperm Hwatched Hvisit state1 total Hentry Htotal Hc.
  destruct (visit_Continue_cases _ _ _ _ _ _ Hvisit) as [(_ & -> & _)|(-> & _)].
  - eapply covered_step; [done..|]. by apply Hwatched.
  - destruct (decide ((SearchState.currentNode state1, SearchState.bountyStates state1)
                      = (SearchState.currentNode state, SearchState.bountyStates state)))
      as [Hkey|Hkey].
    + rewrite Hkey, lookup_insert_eq in Hentry. injection Hentry as Hd.
      injection Hkey as Hnode Hst.
      pose proof (completes_shifted state1 total state Hc (eq_sym Hnode) (eq_sym Hst)) as Hc0.
      replace (total + (SearchState.distance state - SearchState.distance state1))
        with total in Hc0 by lia.
      replace (weight nodes bounties state1) with (weight nodes bounties state)
        by (unfold weight; by rewrite Hnode, Hst).
      by eapply visit_covered.
    + rewrite lookup_insert_ne in Hentry by done.
      eapply covered_step; [done..|]. by apply Hwatched.
Qed.

Lemma search_finds fuel bestDistance (pq : Q) visited :
  watched nodes gps bounties roundTrip bestDistance pq visited →
  (∃ state total,
     state ∈ pq_elements pq ∧ total < bestDistance ∧
     completes nodes gps bounties roundTrip state total) →
  search nodes gps fuel bounties bestDistance roundTrip pq visited ≠ Returned None.
Proof.
  revert pq visited. induction fuel as [|fuel IH]; intros pq visited Hwatched Hsome; [done|].
  simpl. destruct (pq_dequeue pq) as [[state pq1]|] eqn:Hdq.
  - apply pq_dequeue_Some in Hdq as [Hperm _].
    destruct (visit _ _ _ _ _ _ _ _) as [pq2 visited2|route] eqn:Hvisit; [|done].
    apply IH; [by eapply visit_watched|].
    destruct Hsome as (state1 & total & Hin & Htotal & Hc).
    assert (covered nodes gps bounties roundTrip pq (S (weight nodes bounties state1)) total)
      as Hcov by (exists state1, total; split; [done|split; [lia|split; [lia|done]]]).
    eapply covered_step in Hcov as (state2 & total2 & Hin2 & _ & Hle2 & Hc2); [|done..].
    exists state2, total2. split; [done|]. split; [lia|done].
  - apply pq_dequeue_None in Hdq. destruct Hsome as (state1 & total & Hin & _).
    rewrite Hdq in Hin. by apply elem_of_nil in Hin.
Qed.
End NonNegative.

(** ** What is returned is a terminal state within reach *)

Lemma search_reaches fuel bestDistance (pq : Q) visited route (start : SearchState.t) :
  (∀ state total, state ∈ pq_elements pq →
     completes nodes gps bounties roundTrip state total →
     completes nodes gps bounties roundTrip start total) →
  search nodes gps fuel bounties bestDistance roundTrip pq visited = Returned (Some route) →
  completes nodes gps bounties roundTrip start (Route.distance route).
Proof.
  revert pq visited. induction fuel as [|fuel IH]; intros pq visited Hpq; [done|].
  simpl. destruct (pq_dequeue pq) as [[state pq1]|] eqn:Hdq; [|done].
  apply pq_dequeue_Some in Hdq as [Hperm _].
  destruct (visit _ _ _ _ _ _ _ _) as [pq2 visited2|route'] eqn:Hvisit.
  - apply IH. intros state' total Hin Hc.
    destruct (visit_Continue_cases _ _ _ _ _ _ Hvisit) as [(-> & _)|(_ & [[_ ->]|(_ & _ & Hpq')])].
    + apply (Hpq state'); [|done]. rewrite Hperm. by right.
    + apply (Hpq state'); [|done]. rewrite Hperm. by right.
    + apply Hpq' in Hin as [Hin|(nextNode & Hnext & _ & ->)].
      * apply (Hpq state'); [|done]. rewrite Hperm. by right.
      * apply (Hpq state); [rewrite Hperm; by left|].
        by apply (completes_move _ _ _ _ _ nextNode).
  - intros [= <-]. apply (Hpq state); [rewrite Hperm; by left|].
    revert Hvisit. unfold visit. fold (stopAt nodes gps bounties state).
    case_decide; [done|].
    destruct (match visited !! _ with Some _ => _ | None => _ end); [done|].
    case_decide; [done|].
    destruct (deliveriesCompleted _) eqn:Hall; [|done].
    pose proof (completes_here nodes gps bounties roundTrip state Hall) as Hc.
    unfold totalAt in Hc.
    destruct (roundTrip && _); case_decide; try done; by intros [= <-].
Qed.
End Completeness.

(** * Properties of the reconciliation state machine *)

Import OCRProcessor.

(** ** In-flight computations *)

Lemma launch_same_signature this sig now inFlight :
  inFlightFind this = Some inFlight → signature inFlight = sig →
  launchFindBestIfNeeded this sig now = this.
Proof. intros Hin Hsig. unfold launchFindBestIfNeeded. rewrite Hin. by rewrite decide_True. Qed.

Lemma launch_stale this sig now inFlight :
  inFlightFind this = Some inFlight → signature inFlight ≠ sig →
  pathfinderWorkerTimeoutMs this + 1000 < now - startedAtMs inFlight →
  inFlightFind (launchFindBestIfNeeded this sig now) = Some (mkInFlight sig now).
Proof.
  intros Hin Hsig Hage. unfold launchFindBestIfNeeded. rewrite Hin.
  by rewrite decide_False, decide_True.
Qed.

Lemma launch_blocked this sig now inFlight :
  inFlightFind this = Some inFlight → signature inFlight ≠ sig →
  now - startedAtMs inFlight ≤ pathfinderWorkerTimeoutMs this + 1000 →
  launchFindBestIfNeeded this sig now = this.
Proof.
  intros Hin Hsig Hage. unfold launchFindBestIfNeeded. rewrite Hin.
  rewrite decide_False by done. rewrite decide_False by lia. done.
Qed.

Lemma launch_idle this sig now :
  inFlightFind this = None →
  inFlightFind (launchFindBestIfNeeded this sig now) = Some (mkInFlight sig now).
Proof. intros Hin. unfold launchFindBestIfNeeded. by rewrite Hin. Qed.

(** ** The acceptance rule *)

Lemma js_div_pos k d : (0 < d)%Qc → js_div (Num k) (Num d) = Num (k / d)%Qc.
Proof.
  intros Hd. unfold js_div. rewrite decide_False; [done|].
  by apply not_symmetry, Qclt_not_eq.
Qed.

Lemma Qc_div_pos (k d : Qc) : (0 < k)%Qc → (0 < d)%Qc → (0 < k / d)%Qc.
Proof.
  intros Hk Hd. unfold Qcdiv. apply Qcmult_pos_pos; [done|].
  by apply Qcinv_pos.
Qed.

Lemma currentEfficiency_sound this :
  cacheSound this → prevOptimalBounties this ≠ [] →
  ∃ e, currentEfficiency this = Num e ∧ cachedEfficiency this = Num e ∧ (0 < e)%Qc.
Proof.
  intros Hsound Hne. destruct (Hsound Hne) as (k & d & Hk & Hd & Hkpos & Hdpos).
  unfold currentEfficiency, cachedEfficiency. rewrite Hk, Hd.
  rewrite bool_decide_eq_true_2 by (destruct (prevOptimalBounties this); [done|simpl; lia]).
  change (js_gt (Num d) (Num 0%Qc)) with (Qc_ltb 0 d).
  unfold Qc_ltb. rewrite bool_decide_eq_true_2 by done.
  cbn [andb]. rewrite js_div_pos by done. eexists. split; [done|]. split; [done|]. by apply Qc_div_pos.
Qed.

Lemma cached_settled this sig outcome :
  cached (findBestSettled this sig outcome) = cached this ∨
  ∃ resp, outcome = Some resp ∧
    cached (findBestSettled this sig outcome)
      = (Solution.bounties resp, Num (Solution.kp resp), js_of_Z (Solution.distance resp)) ∧
    (js_is_zero (currentEfficiency this) = true ∨
     js_gt (js_div (Num (Solution.kp resp)) (js_of_Z (Solution.distance resp)))
           (currentEfficiency this) = true).
Proof.
  unfold findBestSettled.
  assert (∀ s, cached (match inFlightFind s with
                       | Some inFlight =>
                           if decide (signature inFlight = sig) then set_inFlightFind None s else s
                       | None => s
                       end) = cached s) as Hfin.
  { intros s. destruct (inFlightFind s) as [f|]; [|done]. by case_decide. }
  rewrite Hfin. destruct outcome as [resp|]; [|by left].
  change (currentEfficiency (set_forceOptimal false this)) with (currentEfficiency this).
  destruct (js_is_zero (currentEfficiency this) || js_gt _ (currentEfficiency this)) eqn:Hacc;
    [|by left].
  right. exists resp. split; [done|]. split.
  - unfold accept. by destruct (_ && _).
  - by apply orb_true_iff in Hacc.
Qed.

Lemma cacheSound_cached this this' : cached this' = cached this → cacheSound this → cacheSound this'.
Proof. unfold cached, cacheSound. by intros [= -> -> ->]. Qed.

(** One settled computation keeps the cache sound and does not lower the
    efficiency of a cached solution. *)
Lemma settled_step this sig outcome :
  cacheSound this → (∀ resp, outcome = Some resp → plausible resp) →
  cacheSound (findBestSettled this sig outcome) ∧
  (prevOptimalBounties this ≠ [] → prevOptimalBounties (findBestSettled this sig outcome) ≠ [] →
   ∃ e e', cachedEfficiency this = Num e ∧
           cachedEfficiency (findBestSettled this sig outcome) = Num e' ∧ (e ≤ e')%Qc).
Proof.
  intros Hsound Hpl.
  destruct (cached_settled this sig outcome) as [Hsame | (resp & -> & Hnew & Hwhy)].
  - split; [by eapply cacheSound_cached|]. intros Hne _.
    destruct (currentEfficiency_sound this Hsound Hne) as (e & _ & He & _).
    exists e, e. unfold cachedEfficiency in *. unfold cached in Hsame.
    injection Hsame as _ -> ->. split; [done|]. split; [done|]. apply Qcle_refl.
  - specialize (Hpl resp eq_refl). unfold cached in Hnew. injection Hnew as Hb Hk Hd.
    assert (cacheSound (findBestSettled this sig (Some resp))) as Hsound'.
    { intros Hne. rewrite Hb in Hne. destruct (Hpl Hne) as [Hkpos Hdpos].
      exists (Solution.kp resp), (Qc_of_Z (Solution.distance resp)).
      split; [done|]. split; [exact Hd|]. split; [done|].
      apply (proj1 (Z2Qc_inj_lt 0 _)) in Hdpos. by rewrite Z2Qc_inj_0 in Hdpos. }
    split; [done|]. intros Hne Hne'.
    destruct (currentEfficiency_sound this Hsound Hne) as (e & Hcur & He & Hepos).
    destruct (currentEfficiency_sound _ Hsound' Hne') as (e' & _ & He' & _).
    exists e, e'. split; [done|]. split; [done|].
    rewrite Hcur in Hwhy. destruct Hwhy as [Hzero | Hgt].
    + simpl in Hzero. apply bool_decide_eq_true in Hzero. subst e.
      by apply Qclt_not_eq, not_symmetry in Hepos.
    + unfold cachedEfficiency in He'. rewrite Hk, Hd in He'. rewrite He' in Hgt.
      simpl in Hgt. apply bool_decide_eq_true in Hgt. by apply Qclt_le_weak.
Qed.

Lemma settleAll_sound this completions :
  cacheSound this →
  Forall (λ c, ∀ resp, c.2 = Some resp → plausible resp) completions →
  cacheSound (settleAll this completions).
Proof.
  revert this. induction completions as [|c l IH]; intros this Hsound Hall; [done|].
  apply Forall_cons in Hall as [Hc Hl]. simpl. apply IH; [|done].
  by apply settled_step.
Qed.

Lemma settleAll_monotone this completions :
  cacheSound this →
  Forall (λ c, ∀ resp, c.2 = Some resp → plausible resp) completions →
  (∀ n, prevOptimalBounties (settleAll this (take n completions)) ≠ []) →
  ∃ e e', cachedEfficiency this = Num e ∧
          cachedEfficiency (settleAll this completions) = Num e' ∧ (e ≤ e')%Qc.
Proof.
  revert this. induction completions as [|c l IH]; intros this Hsound Hall Hheld.
  - specialize (Hheld 0%nat). simpl in Hheld.
    destruct (currentEfficiency_sound this Hsound Hheld) as (e & _ & He & _).
    exists e, e. split; [done|]. split; [done|]. apply Qcle_refl.
  - apply Forall_cons in Hall as [Hc Hl].
    destruct (settled_step this c.1 c.2 Hsound Hc) as [Hsound1 Hstep].
    destruct Hstep as (e & e1 & He & He1 & Hle).
    { apply (Hheld 0%nat). } { apply (Hheld 1%nat). }
    destruct (IH (findBestSettled this c.1 c.2) Hsound1 Hl) as (e1' & e2 & He1' & He2 & Hle').
    { intros n. apply (Hheld (S n)). }
    rewrite He1 in He1'. injection He1' as <-.
    exists e, e2. split; [done|]. split; [done|]. by eapply Qcle_trans.
Qed.

(** Reads fields through assignments: [field (set_other v this)] becomes
    [field this], and [field (set_field v this)] becomes [v]. *)
Ltac fields :=
  lazy beta iota delta
    [
      OCRProcessor.activeBounties OCRProcessor.boardBounties OCRProcessor.activeDrops
      OCRProcessor.boardPickups OCRProcessor.steps OCRProcessor.kp
      OCRProcessor.distanceSeconds OCRProcessor.displaySteps OCRProcessor.displayKp
      OCRProcessor.displayDistanceSeconds OCRProcessor.stepIdx
      OCRProcessor.prevActiveBounties OCRProcessor.prevOptimalBounties
      OCRProcessor.prevAllBountiesSignature OCRProcessor.prevBoardOpenSignature
      OCRProcessor.pathfinderWorkerTimeoutMs OCRProcessor.inFlightFind
      OCRProcessor.launchedAtLeastOnce OCRProcessor.dropGraceMs
      OCRProcessor.recentActiveAdds OCRProcessor.suppressDropsWhileRecompute
      OCRProcessor.runStartTime OCRProcessor.actualRunTimeSeconds
      OCRProcessor.runBounties OCRProcessor.runEstimatedTime OCRProcessor.sessionStats
      OCRProcessor.sessionLogWrites OCRProcessor.forceOptimal
      OCRProcessor.set_activeBounties OCRProcessor.set_boardBounties
      OCRProcessor.set_activeDrops OCRProcessor.set_boardPickups OCRProcessor.set_steps
      OCRProcessor.set_kp OCRProcessor.set_distanceSeconds OCRProcessor.set_displaySteps
      OCRProcessor.set_displayKp OCRProcessor.set_displayDistanceSeconds
      OCRProcessor.set_stepIdx OCRProcessor.set_prevActiveBounties
      OCRProcessor.set_prevOptimalBounties OCRProcessor.set_prevAllBountiesSignature
      OCRProcessor.set_prevBoardOpenSignature OCRProcessor.set_inFlightFind
      OCRProcessor.set_launchedAtLeastOnce OCRProcessor.set_recentActiveAdds
      OCRProcessor.set_runStartTime OCRProcessor.set_actualRunTimeSeconds
      OCRProcessor.set_runBounties OCRProcessor.set_runEstimatedTime
      OCRProcessor.set_sessionStats OCRProcessor.set_sessionLogWrites
      OCRProcessor.set_forceOptimal ].
Tactic Notation "fields" "in" hyp(H) :=
  lazy beta iota delta
    [
      OCRProcessor.activeBounties OCRProcessor.boardBounties OCRProcessor.activeDrops
      OCRProcessor.boardPickups OCRProcessor.steps OCRProcessor.kp
      OCRProcessor.distanceSeconds OCRProcessor.displaySteps OCRProcessor.displayKp
      OCRProcessor.displayDistanceSeconds OCRProcessor.stepIdx
      OCRProcessor.prevActiveBounties OCRProcessor.prevOptimalBounties
      OCRProcessor.prevAllBountiesSignature OCRProcessor.prevBoardOpenSignature
      OCRProcessor.pathfinderWorkerTimeoutMs OCRProcessor.inFlightFind
      OCRProcessor.launchedAtLeastOnce OCRProcessor.dropGraceMs
      OCRProcessor.recentActiveAdds OCRProcessor.suppressDropsWhileRecompute
      OCRProcessor.runStartTime OCRProcessor.actualRunTimeSeconds
      OCRProcessor.runBounties OCRProcessor.runEstimatedTime OCRProcessor.sessionStats
      OCRProcessor.sessionLogWrites OCRProcessor.forceOptimal
      OCRProcessor.set_activeBounties OCRProcessor.set_boardBounties
      OCRProcessor.set_activeDrops OCRProcessor.set_boardPickups OCRProcessor.set_steps
      OCRProcessor.set_kp OCRProcessor.set_distanceSeconds OCRProcessor.set_displaySteps
      OCRProcessor.set_displayKp OCRProcessor.set_displayDistanceSeconds
      OCRProcessor.set_stepIdx OCRProcessor.set_prevActiveBounties
      OCRProcessor.set_prevOptimalBounties OCRProcessor.set_prevAllBountiesSignature
      OCRProcessor.set_prevBoardOpenSignature OCRProcessor.set_inFlightFind
      OCRProcessor.set_launchedAtLeastOnce OCRProcessor.set_recentActiveAdds
      OCRProcessor.set_runStartTime OCRProcessor.set_actualRunTimeSeconds
      OCRProcessor.set_runBounties OCRProcessor.set_runEstimatedTime
      OCRProcessor.set_sessionStats OCRProcessor.set_sessionLogWrites
      OCRProcessor.set_forceOptimal ] in H.

(** ** Slot signals *)

Lemma elem_of_slotKeys (slots : Slots) (idx : nat) :
  idx ∈ slotKeys slots ↔ is_Some (slotAt slots idx).
Proof.
  unfold slotKeys, slotAt. rewrite list_elem_of_fmap. split.
  - intros ([i x] & -> & [Hx Hin]%list_elem_of_filter). simpl in *.
    apply elem_of_lookup_imap in Hin as (j & y & Heq & Hj). simplify_eq/=. by rewrite Hj.
  - intros [b Hb]. destruct (slots !! idx) as [x|] eqn:Hx; [|done]. simpl in Hb. subst x.
    exists (idx, Some b). split; [done|]. apply list_elem_of_filter. split; [by eexists|].
    apply elem_of_lookup_imap. by exists idx, (Some b).
Qed.

Lemma slotKeys_length (slots : Slots) : length (slotKeys slots) = length (slotValues slots).
Proof.
  unfold slotKeys, slotValues. rewrite length_fmap.
  assert (∀ g : nat → nat,
    length (filter (λ p : nat * option BountyKey, is_Some p.2) (imap (λ i x, (g i, x)) slots))
    = length (omap id slots)) as Hg; [|exact (Hg id)].
  induction slots as [|x slots IH]; intros g; [done|].
  rewrite imap_cons, filter_cons. simpl.
  destruct x as [b|]; simpl.
  - f_equal. apply (IH (g ∘ S)).
  - apply (IH (g ∘ S)).
Qed.

Lemma findCompleted_last (b : BountyKey) : findCompleted [b] [] = Some b.
Proof.
  unfold findCompleted, insertionOrder, occurrences. simpl.
  rewrite filter_cons, decide_True by done. by rewrite bool_decide_eq_true_2 by (simpl; lia).
Qed.

(** Case analysis on every condition of a straight-line method body. *)
Ltac branches :=
  cbv zeta;
  repeat match goal with
         | |- context [match ?o with Some _ => _ | None => _ end] =>
             lazymatch o with
             | context [if _ then _ else _] => fail
             | context [match _ with Some _ => _ | None => _ end] => fail
             | _ => destruct o eqn:?
             end
         | |- context [if ?b then _ else _] =>
             lazymatch b with
             | context [if _ then _ else _] => fail
             | context [match _ with Some _ => _ | None => _ end] => fail
             | _ => destruct b eqn:?
             end
         end.

Lemma launch_frame this sig now :
  let this' := launchFindBestIfNeeded this sig now in
  cached this' = cached this ∧
  recentActiveAdds this' = recentActiveAdds this ∧
  suppressDropsWhileRecompute this' = suppressDropsWhileRecompute this ∧
  prevActiveBounties this' = prevActiveBounties this ∧
  steps this' = steps this ∧
  sessionLogWrites this' = sessionLogWrites this ∧
  runStartTime this' = runStartTime this.
Proof.
  unfold launchFindBestIfNeeded, cached. branches; fields; done.
Qed.

Lemma triggerRecompute_frame this detectedActive detectedBoard boardOpen now :
  let this' := triggerRecompute this detectedActive detectedBoard boardOpen now in
  cached this' = cached this ∧
  recentActiveAdds this' = trackRecentAdds this detectedActive now ∧
  suppressDropsWhileRecompute this' = suppressDropsWhileRecompute this ∧
  prevActiveBounties this' = prevActiveBounties this ∧
  steps this' = steps this ∧
  sessionLogWrites this' = sessionLogWrites this.
Proof.
  unfold triggerRecompute.
  set (sig := sortedJoin _).
  generalize (bool_decide (sig ≠ prevAllBountiesSignature
                                   (set_recentActiveAdds (trackRecentAdds this detectedActive now) this))).
  intros signatureChanged.
  branches;
    try match goal with
    | |- context [launchFindBestIfNeeded ?s ?g ?n] =>
        destruct (launch_frame s g n) as (Hc & Hr & Hs & Hp & Hst & Hlog & _);
        unfold cached in Hc; fields in Hc; fields in Hr; fields in Hs; fields in Hp;
        fields in Hst; fields in Hlog
    end;
    unfold cached; fields; repeat split; congruence.
Qed.

Lemma detectCompletion_frame this detectedActive boardOpen now :
  let this' := detectCompletion this detectedActive boardOpen now in
  recentActiveAdds this' = recentActiveAdds this ∧
  suppressDropsWhileRecompute this' = suppressDropsWhileRecompute this ∧
  inFlightFind this' = inFlightFind this.
Proof.
  unfold detectCompletion, allBountiesCompleted, bountyCompleted. branches; fields; done.
Qed.

(** A held slot with a pumpkin is among the drops [computeActiveDrops]
    yields, once its grace window is over. *)
Lemma computeActiveDrops_pumpkin this detectedActive optimalBounties now idx :
  slotAt detectedActive idx = Some PUMPKIN → graceOver this idx now = true →
  idx ∈ computeActiveDrops this detectedActive optimalBounties now.
Proof.
  intros Hslot Hgrace. unfold computeActiveDrops.
  apply elem_of_app. left. apply list_elem_of_filter. split.
  - split; [done|]. by apply Is_true_true.
  - apply elem_of_slotKeys. by rewrite Hslot.
Qed.

Lemma processOCRResults_pumpkin this detectedActive detectedBoard boardOpen now idx :
  slotAt detectedActive idx = Some PUMPKIN →
  prevOptimalBounties this ≠ [] →
  suppressDropsWhileRecompute this = false ∨
    inFlightFind (processOCRResults this detectedActive detectedBoard boardOpen now) = None →
  graceOver (processOCRResults this detectedActive detectedBoard boardOpen now) idx now = true →
  idx ∈ activeDrops (processOCRResults this detectedActive detectedBoard boardOpen now).
Proof.
  intros Hslot Hcached. unfold processOCRResults.
  destruct (triggerRecompute_frame this detectedActive detectedBoard boardOpen now)
    as (Hc & Hadds & Hsup & _).
  set (this1 := triggerRecompute this detectedActive detectedBoard boardOpen now) in *.
  unfold cached in Hc. injection Hc as Hopt _ _. cbv zeta.
  rewrite bool_decide_eq_true_2 by (rewrite Hopt; destruct (prevOptimalBounties this); [done|simpl; lia]).
  cbn [negb].
  destruct (detectCompletion_frame this1 detectedActive boardOpen now) as (Hadds2 & Hsup2 & Hin2).
  set (this2 := detectCompletion this1 detectedActive boardOpen now) in *.
  assert (∀ drops pickups,
    graceOver (set_prevActiveBounties detectedActive
                 (set_boardBounties detectedBoard (set_activeBounties detectedActive
                    (set_boardPickups pickups (set_activeDrops drops this2))))) idx now
    = graceOver this2 idx now) as Hg by done.
  destruct (suppressDropsWhileRecompute this2 && bool_decide (is_Some (inFlightFind this2))) eqn:Hsupp.
  - apply andb_true_iff in Hsupp as [Hs Hf%bool_decide_eq_true].
    intros [Hoff | Hidle]; [congruence|].
    destruct boardOpen; simpl in Hidle; rewrite Hidle in Hf; by destruct Hf.
  - intros _. destruct boardOpen; rewrite Hg; intros Hgrace; simpl;
      by apply computeActiveDrops_pumpkin.
Qed.

Lemma slotValues_single (slots : Slots) :
  length (slotKeys slots) = 1%nat → ∃ b, slotValues slots = [b].
Proof.
  rewrite slotKeys_length. destruct (slotValues slots) as [|b [|??]]; try done. by exists b.
Qed.

Lemma slotValues_none (slots : Slots) : slotKeys slots = [] → slotValues slots = [].
Proof.
  intros H. apply (f_equal length) in H. rewrite slotKeys_length in H.
  by destruct (slotValues slots).
Qed.

Lemma allBountiesCompleted_clears this now :
  let this' := allBountiesCompleted this now in
  prevOptimalBounties this' = [] ∧ kp this' = Num 0%Qc ∧ distanceSeconds this' = NaN ∧
  steps this' = [] ∧ runBounties this' = [] ∧ runEstimatedTime this' = Num 0%Qc ∧
  sessionLogWrites this' = S (sessionLogWrites this).
Proof. unfold allBountiesCompleted. branches; fields; done. Qed.

Lemma bountyCompleted_log this bounty boardOpen :
  sessionLogWrites (bountyCompleted this bounty boardOpen) = sessionLogWrites this.
Proof. unfold bountyCompleted. branches; fields; done. Qed.

Lemma single_completion_clears this detectedActive detectedBoard boardOpen now :
  prevOptimalBounties this ≠ [] →
  length (slotKeys (prevActiveBounties this)) = 1%nat →
  slotKeys detectedActive = [] →
  let this' := processOCRResults this detectedActive detectedBoard boardOpen now in
  prevOptimalBounties this' = [] ∧ kp this' = Num 0%Qc ∧ distanceSeconds this' = NaN ∧
  steps this' = [] ∧ runBounties this' = [] ∧ runEstimatedTime this' = Num 0%Qc ∧
  sessionLogWrites this' = S (sessionLogWrites this).
Proof.
  intros Hcached Hprev Hcurr. unfold processOCRResults.
  destruct (triggerRecompute_frame this detectedActive detectedBoard boardOpen now)
    as (Hc & _ & _ & Hp & _ & Hlog).
  set (this1 := triggerRecompute this detectedActive detectedBoard boardOpen now) in *.
  unfold cached in Hc. injection Hc as Hopt _ _. cbv zeta.
  rewrite bool_decide_eq_true_2 by (rewrite Hopt; destruct (prevOptimalBounties this); [done|simpl; lia]).
  cbn [negb].
  assert (∃ this0 , detectCompletion this1 detectedActive boardOpen now
                    = allBountiesCompleted this0 now
                    ∧ sessionLogWrites this0 = sessionLogWrites this) as (this0 & -> & Hlog0).
  { unfold detectCompletion. rewrite Hp, Hprev, Hcurr. simpl.
    destruct (slotValues_single _ Hprev) as [b ->]. rewrite (slotValues_none _ Hcurr).
    rewrite findCompleted_last. simpl. eexists. split; [done|].
    by rewrite bountyCompleted_log. }
  destruct (allBountiesCompleted_clears this0 now) as (H1 & H2 & H3 & H4 & H5 & H6 & H7).
  rewrite Hlog0 in H7.
  destruct (suppressDropsWhileRecompute _ && _); destruct boardOpen; fields; done.
Qed.

Lemma findBestSettled_inFlight this sig outcome :
  inFlightFind (findBestSettled this sig outcome)
  = match inFlightFind this with
    | Some inFlight => if decide (signature inFlight = sig) then None else Some inFlight
    | None => None
    end.
Proof.
  unfold findBestSettled.
  assert (∀ s, inFlightFind s = inFlightFind this →
    inFlightFind (match inFlightFind s with
                  | Some inFlight =>
                      if decide (signature inFlight = sig) then set_inFlightFind None s else s
                  | None => s
                  end)
    = match inFlightFind this with
      | Some inFlight => if decide (signature inFlight = sig) then None else Some inFlight
      | None => None
      end) as Hfin.
  { intros s Hs. rewrite <- Hs. destruct (inFlightFind s) as [f|] eqn:E; [|done].
    case_decide; [|done]. by fields. }
  apply Hfin. destruct outcome as [resp|]; [|by fields].
  unfold accept. branches; by fields.
Qed.

(** * The claims *)

Lemma findBestRoute_more_fuel nodes gps {Q : Type} `{!PriorityQueue Q} fuel fuel' bounties threshold
    roundTrip result :
  (fuel ≤ fuel')%nat →
  findBestRoute nodes gps fuel bounties threshold roundTrip = Returned result →
  findBestRoute nodes gps fuel' bounties threshold roundTrip = Returned result.
Proof. apply search_more_fuel. Qed.

Lemma findBestRoute_below_threshold nodes gps {Q : Type} `{!PriorityQueue Q} fuel bounties threshold
    roundTrip route :
  findBestRoute nodes gps fuel bounties threshold roundTrip = Returned (Some route) →
  Route.distance route < threshold.
Proof.
  intros Hrun.
  by apply (findBestRoute_Inv nodes gps bounties (λ _ _ _, True) (λ _, True)) in Hrun as [_ ?].
Qed.

Lemma capacityRespected_room actions : capacityRespected actions → boughtWithRoom actions.
Proof.
  intros Hok n a Ha Hbuy. specialize (Hok (S n)).
  rewrite (take_S_r _ _ _ Ha), capacityInUse_app in Hok. simpl in Hok.
  unfold cargo in Hok. rewrite Hbuy in Hok. lia.
Qed.

Lemma lineGps_nonneg from to : 0 ≤ Gps.distance (lineGps (Some from) to).
Proof. simpl. lia. Qed.

(** The route for carrots through both portals, whatever their times: the
    two teleports are stamped from the time of the purchase. *)
Lemma two_portals_on_one_leg marketTime outskirtsTime :
  findBestRoute (portalNodesWith marketTime outskirtsTime) portalGps (Q := list SearchState.t) 100
    [CARROTS] MAX_SAFE_INTEGER false
  = Returned (Some (Route.mk
      [buyAction CARROTS 8;
       teleportTo (mkPortal 50 marketTime) AtCrenopolisMarket 8;
       teleportTo (mkPortal 60 outskirtsTime) AtCrenopolisOutskirts 8;
       sellAction CARROTS 107] 107)).
Proof. vm_compute. reflexivity. Qed.

(** C1 (the code departs from it).  [findBestRoute] is documented to
    determine the shortest route, and returns the first terminal state
    taken from the queue.  The queue is ordered by the time of arrival at a
    node; the time to sell there and the way back to the bounty board are
    added afterwards.  For carrots and tomatoes with the greengrocers at 5,
    the toy stall at 10 and the chef at 1, the route it returns takes 39
    seconds, although one of 31 seconds completes the same two tasks: asked
    again with 39 as the threshold, [findBestRoute] returns it. *)
Theorem first_terminal_route_not_shortest :
  ∃ route shorter,
    grocerRun MAX_SAFE_INTEGER = Returned (Some route) ∧
    grocerRun (Route.distance route) = Returned (Some shorter) ∧
    Route.distance route = 39 ∧
    Route.distance shorter = 31 ∧
    eachBoughtThenSold [CARROTS; TOMATOES] (Route.actions shorter) ∧
    capacityRespected (Route.actions shorter).
Proof.
  eexists _, _. split; [vm_compute; reflexivity|].
  assert (∀ r, grocerRun 39 = Returned (Some r) →
               eachBoughtThenSold [CARROTS; TOMATOES] (Route.actions r) ∧
               capacityRespected (Route.actions r)) as Hvalid.
  { intros r Hr. split.
    - by eapply findBestRoute_counting.
    - by eapply findBestRoute_capacity. }
  split; [vm_compute; reflexivity|]. split; [done|]. split; [done|].
  apply Hvalid. vm_compute. reflexivity.
Qed.

(** C2 (the code departs from it).  With [pruningThreshold = 1] and no
    bound on the evaluations, every subset is passed to [findBestRoute],
    but with the time of the kept result as the threshold.  Of the seven
    bounties of [clockBounties], [findBestBounties] keeps a subset worth 52
    that takes 76 seconds; the subset with the pizza is worth 55 and also
    takes 76 seconds, so its efficiency is higher, and the threshold has
    made [findBestRoute] return [null] for it. *)
Theorem exhaustive_mode_keeps_worse_subset :
  ∃ kept route,
    findBestBounties clockNodes lineGps (Q := list SearchState.t) 5000
      clockBounties true 1 optimalPruning = Ok [kept] ∧
    withPizza ∈ combinations clockBounties (Nat.min (length clockBounties) 6) ∧
    findBestRoute clockNodes lineGps (Q := list SearchState.t) 5000
      withPizza MAX_SAFE_INTEGER true = Returned (Some route) ∧
    js_lt (efficiency kept)
          (js_div (Num (ComboData.kp (comboDataOf clockNodes withPizza)))
                  (js_of_Z (Route.distance route))) = true.
Proof.
  eexists _, _. split; [vm_compute; reflexivity|].
  split; [apply (bool_decide_unpack _); vm_compute; exact I|].
  split; [vm_compute; reflexivity|].
  vm_compute. reflexivity.
Qed.

(** C3.  A settled computation replaces the cached solution only when no
    solution is cached or when the efficiency of the new one is strictly
    greater; and over any sequence of settled computations during which a
    solution stays cached, the efficiency of the cached solution does not
    decrease.  Solutions are what the planner delivers: a positive reward
    and a positive time for a non-empty subset. *)
Theorem acceptance_never_lowers_efficiency (this : OCRProcessor.t)
    (completions : list (gmultiset BountyKey * option Solution.t)) :
  cacheSound this →
  Forall (λ c, ∀ resp, c.2 = Some resp → plausible resp) completions →
  (∀ sig resp,
     plausible resp →
     cached (OCRProcessor.findBestSettled this sig (Some resp)) ≠ cached this →
     OCRProcessor.prevOptimalBounties this = [] ∨
     js_gt (efficiency resp) (cachedEfficiency this) = true) ∧
  ((∀ n, OCRProcessor.prevOptimalBounties (settleAll this (take n completions)) ≠ []) →
   ∃ e e', cachedEfficiency this = Num e ∧
           cachedEfficiency (settleAll this completions) = Num e' ∧ (e ≤ e')%Qc).
Proof.
  intros Hsound Hall. split; [|by apply settleAll_monotone].
  intros sig resp Hpl Hchanged.
  destruct (cached_settled this sig (Some resp)) as [Hsame | (r & [= <-] & _ & Hwhy)]; [done|].
  destruct (OCRProcessor.prevOptimalBounties this) as [|b l] eqn:Hopt; [by left|right].
  destruct (currentEfficiency_sound this Hsound) as (e & Hcur & He & Hpos);
    [by rewrite Hopt|].
  rewrite Hcur in Hwhy. rewrite He. destruct Hwhy as [Hzero | Hgt]; [|done].
  simpl in Hzero. apply bool_decide_eq_true in Hzero. subst e.
  by apply Qclt_not_eq, not_symmetry in Hpos.
Qed.

Lemma acceptance_never_lowers_efficiency_witness :
  ∃ e e',
    cachedEfficiency twoHeld = Num e ∧
    cachedEfficiency
      (settleAll twoHeld
         [(sortedJoin [CARROTS], Some (Solution.mk [CARROTS] [] 27 (Q2Qc 9)));
          (sortedJoin [CARROTS; TOMATOES],
           Some (Solution.mk [CARROTS; TOMATOES] [] 31 (Q2Qc 17)))]) = Num e' ∧
    (e ≤ e')%Qc.
Proof.
  apply (acceptance_never_lowers_efficiency twoHeld).
  - intros _. eexists _, _. split; [vm_compute; reflexivity|].
    split; [vm_compute; reflexivity|]. split; by vm_compute.
  - apply Forall_cons_2; [|apply Forall_cons_2; [|apply Forall_nil_2]];
      intros resp [= <-] _; split; by vm_compute.
  - intros [|[|[|n]]]; by vm_compute.
Defined.

(** C4 (as stated, it fails on the code).  With no solution cached,
    [processOCRResultsAsync] returns before the signals are computed ("If
    no optimal yet, don't show DROP/ACCEPT"): a held pumpkin whose grace
    window is over is not signalled, with no computation in flight. *)
Lemma pumpkin_kept_without_solution :
  slotAt [Some PUMPKIN] 0 = Some PUMPKIN ∧
  OCRProcessor.graceOver pumpkinHeld 0 5000 = true ∧
  OCRProcessor.inFlightFind pumpkinHeld = None ∧
  OCRProcessor.prevOptimalBounties pumpkinHeld = [] ∧
  0%nat ∉ OCRProcessor.activeDrops pumpkinHeld.
Proof.
  repeat split; try (vm_compute; reflexivity).
  vm_compute. by intros ?%elem_of_nil.
Qed.

(** C4, amended.  When a solution is cached, a held slot with a pumpkin is
    signalled "drop" whatever the cached subset is, unless its grace window
    is running, or drops are suppressed while a computation is in flight. *)
Theorem pumpkin_dropped_when_cached (this : OCRProcessor.t)
    (detectedActive detectedBoard : list (option BountyKey)) (boardOpen : bool)
    (now : Z) (idx : nat) :
  slotAt detectedActive idx = Some PUMPKIN →
  OCRProcessor.prevOptimalBounties this ≠ [] →
  OCRProcessor.suppressDropsWhileRecompute this = false ∨
    OCRProcessor.inFlightFind
      (OCRProcessor.processOCRResults this detectedActive detectedBoard boardOpen now) = None →
  OCRProcessor.graceOver
    (OCRProcessor.processOCRResults this detectedActive detectedBoard boardOpen now) idx now
    = true →
  idx ∈ OCRProcessor.activeDrops
          (OCRProcessor.processOCRResults this detectedActive detectedBoard boardOpen now).
Proof. apply processOCRResults_pumpkin. Qed.

Lemma pumpkin_dropped_when_cached_witness :
  2%nat ∈ OCRProcessor.activeDrops
    (OCRProcessor.processOCRResults
       (observed twoHeld [Some CARROTS; Some TOMATOES; Some PUMPKIN] 2000)
       [Some CARROTS; Some TOMATOES; Some PUMPKIN] [] false 5000).
Proof.
  apply pumpkin_dropped_when_cached.
  - reflexivity.
  - by vm_compute.
  - right. vm_compute. reflexivity.
  - vm_compute. reflexivity.
Defined.

(** C5.  [findBestRoute] returns, whatever the subset and the threshold.
    A route it returns takes less than the threshold, and is the route to a
    terminal state that the moves of the search reach from the start.  With
    a distance oracle that returns no negative time, it returns [null] only
    when no terminal state within reach takes less than the threshold; and
    when none does, it returns [null]. *)
Theorem findBestRoute_within_threshold (nodes : Nodes) (gps : GPS) {Q : Type} `{!PriorityQueue Q}
    (bounties : list BountyKey) (threshold : Z) (roundTrip : bool) :
  ∃ result,
    (∀ fuel, (enoughFuel nodes bounties ≤ fuel)%nat →
             findBestRoute nodes gps fuel bounties threshold roundTrip = Returned result) ∧
    (∀ fuel route,
       findBestRoute nodes gps fuel bounties threshold roundTrip = Returned (Some route) →
       Route.distance route < threshold ∧ result = Some route ∧
       completes nodes gps bounties roundTrip (startState nodes bounties)
         (Route.distance route)) ∧
    ((∀ from to, 0 ≤ Gps.distance (gps (Some from) to)) →
     result = None →
     ∀ total, completes nodes gps bounties roundTrip (startState nodes bounties) total →
              threshold ≤ total) ∧
    ((∀ total, completes nodes gps bounties roundTrip (startState nodes bounties) total →
               threshold ≤ total) →
     result = None).
Proof.
  destruct (findBestRoute_terminates nodes gps bounties (enoughFuel nodes bounties)
              threshold roundTrip) as [result Hres]; [done|].
  assert (∀ fuel route,
            findBestRoute nodes gps fuel bounties threshold roundTrip = Returned (Some route) →
            completes nodes gps bounties roundTrip (startState nodes bounties)
              (Route.distance route)) as Hreach.
  { intros fuel route Hrun. unfold findBestRoute in Hrun.
    eapply search_reaches; [|exact Hrun].
    intros state total Hin Hc.
    rewrite pq_enqueue_elements, pq_new_elements in Hin.
    by apply list_elem_of_singleton in Hin as ->. }
  exists result. split; [|split; [|split]].
  - intros fuel Hfuel. by eapply findBestRoute_more_fuel.
  - intros fuel route Hrun. split; [by eapply findBestRoute_below_threshold|].
    split; [|by eapply Hreach].
    destruct (Nat.le_ge_cases fuel (enoughFuel nodes bounties)) as [Hle | Hge].
    + apply (findBestRoute_more_fuel _ _ _ _ _ _ _ _ Hle) in Hrun. congruence.
    + apply (findBestRoute_more_fuel _ _ _ _ _ _ _ _ Hge) in Hres. congruence.
  - intros Hgps -> total Hc.
    destruct (decide (threshold ≤ total)) as [|Hlt]; [done|].
    exfalso. revert Hres. unfold findBestRoute.
    apply (search_finds nodes gps bounties roundTrip Hgps).
    + intros state total' Hvisited. by rewrite lookup_empty in Hvisited.
    + exists (startState nodes bounties), total.
      split; [|split; [lia|done]].
      rewrite pq_enqueue_elements, pq_new_elements. by left.
  - intros Hnone. destruct result as [route|]; [|done].
    pose proof (findBestRoute_below_threshold _ _ _ _ _ _ _ Hres) as Hbelow.
    apply Hreach, Hnone in Hres. lia.
Qed.

Lemma findBestRoute_within_threshold_witness :
  (∃ route,
     grocerRun 39 = Returned (Some route) ∧ Route.distance route < 39 ∧
     completes grocerNodes lineGps [CARROTS; TOMATOES] true
       (startState grocerNodes [CARROTS; TOMATOES]) (Route.distance route)) ∧
  grocerRun 31 = Returned None ∧
  ∀ total, completes grocerNodes lineGps [CARROTS; TOMATOES] true
             (startState grocerNodes [CARROTS; TOMATOES]) total → 31 ≤ total.
Proof.
  split; [|split].
  - destruct (findBestRoute_within_threshold grocerNodes lineGps (Q := list SearchState.t)
                [CARROTS; TOMATOES] 39 true) as (result & _ & Hsound & _).
    eexists. split; [vm_compute; reflexivity|].
    destruct (Hsound 100%nat _ ltac:(vm_compute; reflexivity)) as (Hbelow & _ & Hreach).
    split; [exact Hbelow|exact Hreach].
  - vm_compute. reflexivity.
  - destruct (findBestRoute_within_threshold grocerNodes lineGps (Q := list SearchState.t)
                [CARROTS; TOMATOES] 31 true) as (result & Hret & _ & Hnone & _).
    apply Hnone; [apply lineGps_nonneg|].
    assert (enoughFuel grocerNodes [CARROTS; TOMATOES] ≤ 400)%nat as Hfuel.
    { apply Nat.leb_le. vm_compute. reflexivity. }
    specialize (Hret 400%nat Hfuel).
    assert (findBestRoute grocerNodes lineGps (Q := list SearchState.t) 400
              [CARROTS; TOMATOES] 31 true = Returned None) as Hrun.
    { vm_compute. reflexivity. }
    rewrite Hrun in Hret. by injection Hret.
Defined.

(** C6.  Along every route [findBestRoute] returns, the inventory space in
    use (6 per task bought and not yet sold) never exceeds the
    [inventorySpace] of 24, and every purchase is made with 6 free. *)
Theorem capacity_never_exceeded (nodes : Nodes) (gps : GPS) {Q : Type} `{!PriorityQueue Q}
    (fuel : nat) (bounties : list BountyKey) (threshold : Z) (roundTrip : bool)
    (route : Route.t) :
  findBestRoute nodes gps fuel bounties threshold roundTrip = Returned (Some route) →
  capacityRespected (Route.actions route) ∧ boughtWithRoom (Route.actions route).
Proof.
  intros Hrun%findBestRoute_capacity. split; [done|]. by apply capacityRespected_room.
Qed.

Lemma capacity_never_exceeded_witness :
  ∃ route, grocerRun MAX_SAFE_INTEGER = Returned (Some route) ∧
           capacityRespected (Route.actions route) ∧ boughtWithRoom (Route.actions route).
Proof.
  eexists. split; [vm_compute; reflexivity|].
  apply (capacity_never_exceeded grocerNodes lineGps (Q := list SearchState.t) 100 [CARROTS; TOMATOES]
           MAX_SAFE_INTEGER true).
  vm_compute. reflexivity.
Defined.

(** C7 (the code departs from it).  An action's [distance] is documented
    as the total time it takes to complete the action, and the buy, sell
    and return actions are stamped with the running time.
    [#addTravelSteps] reads that time once, before its loop over the path,
    and stamps every teleport of the leg with it plus the portal's own
    time: the walk to the portal and the teleports before it are left out.
    On a leg through both portals, of 30 and of 10 seconds, the stamps run
    8, 38, 18, 107: the second teleport is stamped 20 seconds before the
    first.  With portals of 30 seconds each, the two stamps are equal: the
    second is not the one before it plus the portal's time. *)
Lemma teleports_stamped_out_of_order :
  (∃ route,
     findBestRoute portalNodes portalGps (Q := list SearchState.t) 100
       [CARROTS] MAX_SAFE_INTEGER false = Returned (Some route) ∧
     ¬ timesNonDecreasing (Route.actions route)) ∧
  (∃ route first second,
     findBestRoute twinPortalNodes portalGps (Q := list SearchState.t) 100
       [CARROTS] MAX_SAFE_INTEGER false = Returned (Some route) ∧
     Route.actions route !! 1%nat = Some first ∧
     Route.actions route !! 2%nat = Some second ∧
     Action.type second = teleport ∧
     Action.distance second
     ≠ Action.distance first + teleportTime (CRENOPOLIS_OUTSKIRTS twinPortalNodes)).
Proof.
  split.
  - eexists. split; [apply two_portals_on_one_leg|].
    intros Hmono. specialize (Hmono 1%nat _ _ eq_refl eq_refl). simpl in Hmono. lia.
  - eexists _, _, _. split; [apply two_portals_on_one_leg|].
    split; [reflexivity|]. split; [reflexivity|]. split; [reflexivity|]. simpl. lia.
Qed.

(** The stamps of the other actions are in order.  With a distance oracle
    that returns no negative time: along every route [findBestRoute]
    returns, the times of the buy, sell and return actions never decrease,
    none is later than the route's total time, and every teleport is
    stamped with the time of the last buy or sell before it (0 if there is
    none) plus its portal's teleport time. *)
Theorem route_times_well_stamped (nodes : Nodes) (gps : GPS) {Q : Type} `{!PriorityQueue Q}
    (fuel : nat) (bounties : list BountyKey) (threshold : Z) (roundTrip : bool)
    (route : Route.t) :
  (∀ from to, 0 ≤ Gps.distance (gps (Some from) to)) →
  findBestRoute nodes gps fuel bounties threshold roundTrip = Returned (Some route) →
  wellTimed nodes 0 (Route.actions route) ∧
  lastStamp 0 (Route.actions route) ≤ Route.distance route.
Proof. intros Hgps Hrun. by eapply findBestRoute_timing. Qed.

Lemma route_times_well_stamped_witness :
  ∃ route, grocerRun MAX_SAFE_INTEGER = Returned (Some route) ∧
           wellTimed grocerNodes 0 (Route.actions route) ∧
           lastStamp 0 (Route.actions route) ≤ Route.distance route.
Proof.
  eexists. split; [vm_compute; reflexivity|].
  apply (route_times_well_stamped grocerNodes lineGps (Q := list SearchState.t) 100 [CARROTS; TOMATOES]
           MAX_SAFE_INTEGER true).
  - intros from to. simpl. lia.
  - vm_compute. reflexivity.
Defined.

(** When the number of held slots goes down by more than one, the
    completed bounty is not looked for, and the snapshot leaves the cached
    solution and the session log as they were. *)
Lemma several_slots_vanish_cache_kept (this : OCRProcessor.t)
    (detectedActive detectedBoard : list (option BountyKey)) (boardOpen : bool) (now : Z) :
  (length (slotKeys detectedActive) + 1
   < length (slotKeys (OCRProcessor.prevActiveBounties this)))%nat →
  let this' := OCRProcessor.processOCRResults this detectedActive detectedBoard boardOpen now in
  cached this' = cached this ∧
  OCRProcessor.sessionLogWrites this' = OCRProcessor.sessionLogWrites this.
Proof.
  intros Hgone. cbv zeta. unfold OCRProcessor.processOCRResults. cbv zeta.
  destruct (triggerRecompute_frame this detectedActive detectedBoard boardOpen now)
    as (Hc & _ & _ & Hprev & _ & Hlog).
  set (this1 := OCRProcessor.triggerRecompute this detectedActive detectedBoard boardOpen now)
    in *.
  assert (OCRProcessor.detectCompletion this1 detectedActive boardOpen now = this1) as ->.
  { unfold OCRProcessor.detectCompletion. cbv zeta. rewrite Hprev.
    rewrite (bool_decide_eq_false_2 (_ - _ = 1)%nat) by lia.
    rewrite andb_false_r. cbv iota.
    rewrite (bool_decide_eq_false_2 (is_Some None)) by apply is_Some_None.
    by rewrite andb_false_r. }
  rewrite <- Hc, <- Hlog. unfold cached. branches; by fields.
Qed.

(** C8 (the code departs from it).  The block under "All bounties just
    completed" is to reset the cached solution "so new bounties can be
    accepted", and does so when the last held slot goes.  It also asks for
    [completedBounty], which is only looked for when exactly one held slot
    has gone.  With carrots and tomatoes held and their solution cached, a
    snapshot that shows no held slot leaves [completedBounty] undefined:
    the cached solution of 39 seconds is kept, and no entry is written to
    the session log. *)
Lemma two_slots_vanish_cache_kept :
  length (slotKeys (OCRProcessor.prevActiveBounties twoHeld)) = 2%nat ∧
  slotKeys [] = [] ∧
  OCRProcessor.prevOptimalBounties (observed twoHeld [] 60000) = [CARROTS; TOMATOES] ∧
  OCRProcessor.distanceSeconds (observed twoHeld [] 60000) = js_of_Z 39 ∧
  OCRProcessor.sessionLogWrites (observed twoHeld [] 60000) = 0%nat.
Proof. repeat split; vm_compute; reflexivity. Qed.

(** The last held slot going alone does clear the cache.  When a solution
    is cached and a snapshot shows no held task where the snapshot before
    showed exactly one, the cached solution is cleared (subset emptied,
    [kp] 0, [distanceSeconds] NaN, no steps), the bounties and the estimate
    of the run are reset, and an entry is written to the session log. *)
Theorem single_completion_clears_cache (this : OCRProcessor.t)
    (detectedActive detectedBoard : list (option BountyKey)) (boardOpen : bool) (now : Z) :
  OCRProcessor.prevOptimalBounties this ≠ [] →
  length (slotKeys (OCRProcessor.prevActiveBounties this)) = 1%nat →
  slotKeys detectedActive = [] →
  let this' := OCRProcessor.processOCRResults this detectedActive detectedBoard boardOpen now in
  OCRProcessor.prevOptimalBounties this' = [] ∧
  OCRProcessor.kp this' = Num 0%Qc ∧
  OCRProcessor.distanceSeconds this' = NaN ∧
  OCRProcessor.steps this' = [] ∧
  OCRProcessor.runBounties this' = [] ∧
  OCRProcessor.runEstimatedTime this' = Num 0%Qc ∧
  OCRProcessor.sessionLogWrites this' = S (OCRProcessor.sessionLogWrites this).
Proof. apply single_completion_clears. Qed.

Lemma single_completion_clears_cache_witness :
  OCRProcessor.prevOptimalBounties (observed oneHeld [] 60000) = [] ∧
  OCRProcessor.kp (observed oneHeld [] 60000) = Num 0%Qc ∧
  OCRProcessor.distanceSeconds (observed oneHeld [] 60000) = NaN ∧
  OCRProcessor.steps (observed oneHeld [] 60000) = [] ∧
  OCRProcessor.runBounties (observed oneHeld [] 60000) = [] ∧
  OCRProcessor.runEstimatedTime (observed oneHeld [] 60000) = Num 0%Qc ∧
  OCRProcessor.sessionLogWrites (observed oneHeld [] 60000)
    = S (OCRProcessor.sessionLogWrites oneHeld).
Proof.
  apply (single_completion_clears_cache oneHeld [] [] false 60000).
  - by vm_compute.
  - vm_compute. reflexivity.
  - reflexivity.
Defined.

(** C9.  The processor tracks at most one computation ([inFlightFind] is
    one record or [null]).  A trigger with the signature of the tracked
    computation changes nothing; with another signature it replaces a
    tracked computation older than the timeout plus 1000 ms, and changes
    nothing while the tracked one is younger; with nothing tracked it
    starts tracking.  A settled computation clears the record when the
    record carries its signature, and only then. *)
Theorem in_flight_deduplicated (this : OCRProcessor.t) (sig : gmultiset BountyKey) (now : Z) :
  match OCRProcessor.inFlightFind this with
  | Some inFlight =>
      if decide (OCRProcessor.signature inFlight = sig) then
        OCRProcessor.launchFindBestIfNeeded this sig now = this
      else if decide (OCRProcessor.pathfinderWorkerTimeoutMs this + 1000
                      < now - OCRProcessor.startedAtMs inFlight) then
        OCRProcessor.inFlightFind (OCRProcessor.launchFindBestIfNeeded this sig now)
        = Some (OCRProcessor.mkInFlight sig now)
      else OCRProcessor.launchFindBestIfNeeded this sig now = this
  | None =>
      OCRProcessor.inFlightFind (OCRProcessor.launchFindBestIfNeeded this sig now)
      = Some (OCRProcessor.mkInFlight sig now)
  end ∧
  ∀ outcome,
    OCRProcessor.inFlightFind (OCRProcessor.findBestSettled this sig outcome)
    = match OCRProcessor.inFlightFind this with
      | Some inFlight =>
          if decide (OCRProcessor.signature inFlight = sig) then None else Some inFlight
      | None => None
      end.
Proof.
  split.
  - destruct (OCRProcessor.inFlightFind this) as [inFlight|] eqn:Hin.
    + case_decide; [by eapply launch_same_signature|].
      case_decide; [by eapply launch_stale|]. eapply launch_blocked; [done..|lia].
    + by apply launch_idle.
  - intros outcome. apply findBestSettled_inFlight.
Qed.

(** C10.  Every route [findBestRoute] returns holds, for every bounty key,
    as many buy actions and as many sell actions as the subset has
    instances of it, and no others; and at no point of the route has a key
    been sold more often than bought: each instance is bought once, then
    sold once. *)
Theorem each_bounty_bought_then_sold (nodes : Nodes) (gps : GPS) {Q : Type} `{!PriorityQueue Q}
    (fuel : nat) (bounties : list BountyKey) (threshold : Z) (roundTrip : bool)
    (route : Route.t) :
  findBestRoute nodes gps fuel bounties threshold roundTrip = Returned (Some route) →
  eachBoughtThenSold bounties (Route.actions route).
Proof. apply findBestRoute_counting. Qed.

Lemma each_bounty_bought_then_sold_witness :
  ∃ route, grocerRun MAX_SAFE_INTEGER = Returned (Some route) ∧
           eachBoughtThenSold [CARROTS; TOMATOES] (Route.actions route).
Proof.
  eexists. split; [vm_compute; reflexivity|].
  apply (each_bounty_bought_then_sold grocerNodes lineGps (Q := list SearchState.t) 100 [CARROTS; TOMATOES]
           MAX_SAFE_INTEGER true).
  vm_compute. reflexivity.
Defined.

(** * Further properties of the route planner *)

(** ** Edge cases and the way back *)

Section Queue.
Context {Q : Type} `{!PriorityQueue Q}.

Lemma pq_dequeue_empty (pq : Q) : pq_elements pq = [] → pq_dequeue pq = None.
Proof.
intros Hel. destruct (pq_dequeue pq) as [[s pq']|] eqn:Hdq; [|done].
apply pq_dequeue_Some in Hdq as [Hperm _]. rewrite Hel in Hperm.
by apply Permutation_nil_cons in Hperm.
Qed.

Lemma pq_dequeue_single (s : SearchState.t) :
∃ pq', pq_dequeue (pq_enqueue s pq_new) = Some (s, pq') ∧ pq_elements pq' = [].
Proof.
pose proof (pq_enqueue_elements s pq_new) as Hel. rewrite pq_new_elements in Hel.
destruct (pq_dequeue (pq_enqueue s pq_new)) as [[s' pq']|] eqn:Hdq.
- apply pq_dequeue_Some in Hdq as [Hperm _]. rewrite Hel in Hperm.
  apply Permutation_singleton_l in Hperm. injection Hperm as <- Hnil.
  by exists pq'.
- apply pq_dequeue_None in Hdq. rewrite Hdq in Hel.
  by apply Permutation_nil_cons in Hel.
Qed.
End Queue.

Section Edge.
Context (nodes : Nodes) (gps : GPS).
Context {Q : Type} `{!PriorityQueue Q}.

Lemma findBestRoute_no_budget fuel bounties threshold roundTrip :
(2 ≤ fuel)%nat → threshold ≤ 0 →
findBestRoute nodes gps fuel bounties threshold roundTrip = Returned None.
Proof.
intros Hfuel Hth. unfold findBestRoute.
destruct (pq_dequeue_single (startState nodes bounties)) as (pq' & Hdq & Hnil).
destruct fuel as [|[|fuel]]; [lia..|]. simpl. rewrite Hdq.
unfold visit. simpl. rewrite decide_True by done.
by rewrite (pq_dequeue_empty pq').
Qed.

Lemma findBestRoute_nothing_to_do fuel threshold roundTrip :
(1 ≤ fuel)%nat → 0 < threshold →
findBestRoute nodes gps fuel [] threshold roundTrip
= Returned (Some (Route.mk [] 0)).
Proof.
intros Hfuel Hth. unfold findBestRoute.
destruct (pq_dequeue_single (startState nodes [])) as (pq' & Hdq & Hnil).
destruct fuel as [|fuel]; [lia|]. simpl. rewrite Hdq.
unfold visit. simpl. rewrite decide_False by lia.
rewrite lookup_empty. rewrite decide_False by lia.
rewrite bool_decide_eq_false_2 by (by intros []).
rewrite andb_false_r. by rewrite decide_True.
Qed.
End Edge.

Section Shape.
Context (nodes : Nodes) (gps : GPS).
Context {Q : Type} `{!PriorityQueue Q}.
Context (bounties : list BountyKey).
Context (Inv : Z → list BountyStatus → list Action.t → Prop).

Hypothesis Inv_start : Inv 0 (replicate (length bounties) NOT_STARTED) [].
Hypothesis Inv_sell : ∀ d st acts acts' i b,
Inv d st acts → bounties !! i = Some b → st !! i = Some IN_PROGRESS →
arrivedWith nodes gps acts acts' →
Inv (d + timeToSell) (<[i:=COMPLETED]> st) (acts' ++ [sellAction b (d + timeToSell)]).
Hypothesis Inv_buy : ∀ d d' st acts acts' i b,
Inv d st acts → bounties !! i = Some b → st !! i = Some NOT_STARTED →
canPurchaseMoreItems st = true →
arrivedWith nodes gps acts acts' → d' = d ∨ d' = d + timeToBuy →
Inv d' (<[i:=IN_PROGRESS]> st) (acts' ++ [buyAction b d']).
Hypothesis Inv_move : ∀ d st acts currentNode nextNode,
Inv d st acts → Inv (d + Gps.distance (gps (Some currentNode) nextNode)) st acts.

(** The iteration that returns: the state it took from the queue. *)
Lemma search_returning fuel bestDistance roundTrip pq visited route :
Forall (InvState Inv) (pq_elements pq) →
search nodes gps fuel bounties bestDistance roundTrip pq visited = Returned (Some route) →
∃ state pq' visited',
  InvState Inv state ∧
  visit nodes gps bounties bestDistance roundTrip state pq' visited' = Return route.
Proof.
revert pq visited. induction fuel as [|fuel IH]; intros pq visited Hpq; simpl; [done|].
destruct (pq_dequeue pq) as [[state pq1]|] eqn:Hdq; [|done].
apply pq_dequeue_Some in Hdq as [Hperm _]. rewrite Hperm in Hpq.
apply Forall_cons in Hpq as [Hstate Hpq1].
destruct (visit _ _ _ _ _ _ _ _) as [pq2 visited2|r] eqn:Hvisit.
- apply IH. by eapply visit_Continue.
- intros [= <-]. by exists state, pq1, visited.
Qed.

(** What the returning iteration returns: the actions and the time of the
  stop, or those with the way back to the bounty board. *)
Lemma findBestRoute_last_stop fuel threshold roundTrip route :
findBestRoute nodes gps fuel bounties threshold roundTrip = Returned (Some route) →
∃ d st acts,
  Inv d st acts ∧ deliveriesCompleted st = true ∧
  (route = Route.mk acts d ∨
   roundTrip = true ∧
   ∃ currentNode,
     currentNode ≠ bountyBoard_node nodes ∧
     let d' := d + Gps.distance (gps (Some currentNode) (bountyBoard_node nodes)) in
     route = Route.mk (addTravelSteps nodes gps acts (Some currentNode) (bountyBoard_node nodes)
                         ++ [returnAction d']) d').
Proof.
intros Hrun. apply search_returning in Hrun as (state & pq & visited & Hs & Hvisit).
2:{ rewrite pq_enqueue_elements, pq_new_elements. by constructor. }
apply (stopAt_Inv nodes gps bounties Inv Inv_start Inv_sell Inv_buy) in Hs.
revert Hvisit. unfold visit. fold (stopAt nodes gps bounties state).
case_decide; [done|].
destruct (match visited !! _ with Some _ => _ | None => _ end); [done|].
case_decide; [done|].
destruct (deliveriesCompleted _) eqn:Hall; [|done].
exists (Stop.distance (stopAt nodes gps bounties state)),
       (Stop.bountyStates (stopAt nodes gps bounties state)),
       (Stop.actions (stopAt nodes gps bounties state)).
split; [done|]. split; [done|].
destruct roundTrip; simpl in Hvisit.
- case_bool_decide as Hnode; case_decide; try done; injection Hvisit as <-.
  + right. split; [done|]. by exists (SearchState.currentNode state).
  + by left.
- case_decide; [|done]. injection Hvisit as <-. by left.
Qed.
End Shape.

Section Returns.
Context (nodes : Nodes) (gps : GPS).
Context {Q : Type} `{!PriorityQueue Q}.

Lemma countType_arrived type acts acts' :
type ≠ teleport → arrivedWith nodes gps acts acts' →
countType type acts' = countType type acts.
Proof.
intros Hty (steps & -> & Hsteps)%arrivedWith_app.
rewrite countType_app, (countType_teleports nodes _ type steps) by done. lia.
Qed.

Lemma findBestRoute_returns fuel bounties threshold roundTrip route :
findBestRoute nodes gps fuel bounties threshold roundTrip = Returned (Some route) →
returnsOnce route ∧ (roundTrip = false → countType return_ (Route.actions route) = 0%nat).
Proof.
intros Hrun.
apply (findBestRoute_last_stop nodes gps bounties
         (λ _ _ acts, countType return_ acts = 0%nat)) in Hrun
  as (d & st & acts & Hinv & _ & Hroute).
- destruct Hroute as [-> | (-> & cur & _ & ->)].
  + split; [by left|done].
  + split; [|done]. right. simpl. eexists. split; [done|].
    rewrite (countType_arrived return_ acts); [done..|]. right. eauto.
- done.
- intros d st acts acts' i b Hinv _ _ Harr.
  rewrite countType_app, (countType_arrived return_ acts) by done.
  by rewrite Hinv.
- intros d d' st acts acts' i b Hinv _ _ _ Harr _.
  rewrite countType_app, (countType_arrived return_ acts) by done.
  by rewrite Hinv.
- done.
Qed.
End Returns.

(** ** The selection of bounties *)

Lemma combinations_spec {A} (items : list A) (k : nat) (combo : list A) :
  combo ∈ combinations items k → combo `sublist_of` items ∧ length combo = k.
Proof.
  revert k combo. induction items as [|x items IH]; intros [|k] combo; simpl.
  - intros ->%list_elem_of_singleton. split; [constructor|done].
  - by intros ?%elem_of_nil.
  - intros ->%list_elem_of_singleton. split; [apply sublist_nil_l|done].
  - intros [Hin|Hin]%elem_of_app.
    + apply list_elem_of_fmap in Hin as (c & -> & Hc).
      apply IH in Hc as [Hs Hl]. split; [by constructor|]. simpl. by rewrite Hl.
    + apply IH in Hin as [Hs Hl]. split; [by constructor|done].
Qed.

Lemma combinations_nonempty {A} (items : list A) (k : nat) :
  (k ≤ length items)%nat → combinations items k ≠ [].
Proof.
  revert k. induction items as [|x items IH]; intros [|k] Hk; simpl in *; try done; [lia|].
  intros [Hl _]%app_eq_nil. apply fmap_nil_inv in Hl. revert Hl. apply IH. lia.
Qed.

Lemma remaining_replicate n : remaining (replicate n NOT_STARTED) = (2 * n)%nat.
Proof. unfold remaining. induction n as [|n IH]; simpl; [done|]. rewrite IH. lia. Qed.

Lemma enoughFuel_bound nodes combo n :
  (length combo ≤ n)%nat → (enoughFuel nodes combo ≤ S (treeSize (S (2 * n))))%nat.
Proof.
  intros Hlen. unfold enoughFuel, weight.
  change (SearchState.bountyStates (startState nodes combo))
    with (replicate (length combo) NOT_STARTED).
  rewrite remaining_replicate.
  apply le_n_S. case_decide; apply treeSize_mono; lia.
Qed.

Section JsSort.
Context {A : Type} (compare : A → A → JsNum) (R : A → A → Prop) (P : A → Prop).
Hypothesis R_trans : ∀ a b c, R a b → R b c → R a c.
Hypothesis behind : ∀ a b, P a → P b → js_gt (compare a b) (Num 0%Qc) = true → R b a.
Hypothesis before : ∀ a b, P a → P b → js_gt (compare a b) (Num 0%Qc) = false → R a b.

Lemma jsInsert_sorted a l :
P a → Forall P l → StronglySorted R l → StronglySorted R (jsInsert compare a l).
Proof.
intros Ha. induction l as [|b l IH]; intros HP Hs; cbn [jsInsert].
{ constructor; constructor. }
apply Forall_cons in HP as [Hb HP]. apply StronglySorted_inv in Hs as [Hs Hbl].
destruct (js_gt (compare a b) (Num 0%Qc)) eqn:Hgt.
- constructor; [by apply IH|].
  rewrite jsInsert_Permutation. constructor; [by apply behind|done].
- constructor; [by constructor|].
  constructor; [by apply before|].
  eapply Forall_impl; [exact Hbl|]. intros c Hbc. apply R_trans with b; [|done].
  by apply before.
Qed.

Lemma jsSort_sorted l : Forall P l → StronglySorted R (jsSort compare l).
Proof.
induction l as [|a l IH]; intros HP; simpl; [constructor|].
apply Forall_cons in HP as [Ha HP]. apply jsInsert_sorted; [done| |by apply IH].
by rewrite jsSort_Permutation.
Qed.
End JsSort.

Lemma efficiency_Num (r : Solution.t) :
  (0 < Solution.kp r)%Qc → 0 < Solution.distance r →
  ∃ e, efficiency r = Num e.
Proof.
  intros Hk Hd. unfold efficiency, js_of_Z. eexists. apply js_div_pos.
  apply (proj1 (Z2Qc_inj_lt 0 _)) in Hd. by rewrite Z2Qc_inj_0 in Hd.
Qed.

Lemma byEfficiency_gt (a b : Solution.t) ea eb :
  efficiency a = Num ea → efficiency b = Num eb →
  js_gt (byEfficiency a b) (Num 0%Qc) = bool_decide (ea < eb)%Qc.
Proof.
  intros Ha Hb. unfold byEfficiency. rewrite Ha, Hb. simpl. unfold Qc_ltb.
  apply bool_decide_ext. symmetry. apply Qclt_minus_iff.
Qed.

Lemma atLeastAsEfficient_trans a b c :
  atLeastAsEfficient a b → atLeastAsEfficient b c → atLeastAsEfficient a c.
Proof.
  intros (ea & eb & Ha & Hb & Hab) (eb' & ec & Hb' & Hc & Hbc).
  rewrite Hb in Hb'. injection Hb' as <-.
  exists ea, ec. split; [done|]. split; [done|]. by eapply Qcle_trans.
Qed.

(** [sort((a, b) => b.kp / b.distance - a.kp / a.distance)] puts results
    whose efficiencies are numbers in non-increasing order of efficiency. *)
Lemma sorted_byEfficiency (l : list Solution.t) :
  Forall (λ r, ∃ e, efficiency r = Num e) l →
  StronglySorted atLeastAsEfficient (jsSort byEfficiency l).
Proof.
  apply jsSort_sorted.
  - apply atLeastAsEfficient_trans.
  - intros a b [ea Ha] [eb Hb]. rewrite (byEfficiency_gt a b ea eb) by done.
    intros Hlt%bool_decide_eq_true. exists eb, ea. split; [done|]. split; [done|].
    by apply Qclt_le_weak.
  - intros a b [ea Ha] [eb Hb]. rewrite (byEfficiency_gt a b ea eb) by done.
    intros Hlt%bool_decide_eq_false. exists ea, eb. split; [done|]. split; [done|].
    by apply Qcnot_lt_le.
Qed.

Section Selector.
Context (nodes : Nodes) (gps : GPS).
Context {Q : Type} `{!PriorityQueue Q}.

(** The data [findBestBounties] goes through: one entry per combination. *)
Lemma comboData_spec bounties data :
data ∈ jsSort byEstimatedEfficiency
         (comboDataOf nodes <$> combinations bounties (Nat.min (length bounties) 6)) →
data = comboDataOf nodes (ComboData.combo data) ∧
ComboData.combo data `sublist_of` bounties ∧
length (ComboData.combo data) = Nat.min (length bounties) 6.
Proof.
rewrite jsSort_Permutation. intros (combo & -> & Hin)%list_elem_of_fmap.
apply combinations_spec in Hin as [Hs Hl]. done.
Qed.

Lemma findBestRoute_fuel fuel fuel' combo threshold roundTrip :
(enoughFuel nodes combo ≤ fuel)%nat → (enoughFuel nodes combo ≤ fuel')%nat →
findBestRoute nodes gps fuel combo threshold roundTrip
= findBestRoute nodes gps fuel' combo threshold roundTrip ∧
findBestRoute nodes gps fuel combo threshold roundTrip ≠ OutOfFuel.
Proof.
intros H1 H2.
destruct (findBestRoute_terminates nodes gps combo _ threshold roundTrip (Nat.le_refl _))
  as [result Hres].
rewrite (findBestRoute_more_fuel nodes gps _ fuel combo threshold roundTrip result H1 Hres).
by rewrite (findBestRoute_more_fuel nodes gps _ fuel' combo threshold roundTrip result H2 Hres).
Qed.

(** With fuel for every combination, the loop does not depend on the fuel
  and is not cut short; with [1 ≤ numResults] it does not throw. *)
Lemma evaluate_fuel fuel fuel' roundTrip numResults options comboData results evaluated :
Forall (λ data, (enoughFuel nodes (ComboData.combo data) ≤ fuel)%nat ∧
                (enoughFuel nodes (ComboData.combo data) ≤ fuel')%nat) comboData →
evaluate nodes gps fuel roundTrip numResults options comboData results evaluated
= evaluate nodes gps fuel' roundTrip numResults options comboData results evaluated ∧
evaluate nodes gps fuel roundTrip numResults options comboData results evaluated ≠ Unfinished ∧
((1 ≤ numResults)%nat →
 evaluate nodes gps fuel roundTrip numResults options comboData results evaluated ≠ Throws).
Proof.
revert results evaluated.
induction comboData as [|data comboData IH]; intros results evaluated Hfuel; [done|].
apply Forall_cons in Hfuel as [[H1 H2] Hfuel]. cbn [evaluate].
assert (bool_decide (numResults ≤ length results)%nat = true → (1 ≤ numResults)%nat →
        ∃ worst, last results = Some worst) as Hlast.
{ intros Hfull%bool_decide_eq_true Hn. destruct results as [|r results _] using rev_ind.
  - simpl in Hfull. lia.
  - exists r. by rewrite last_snoc. }
destruct (bool_decide (numResults ≤ length results)%nat) eqn:Hfull.
- rewrite andb_true_r.
  destruct (last results) as [worst|] eqn:Hworst.
  + cbn [fmap option_fmap option_map].
    destruct (Qc_ltb _ _); [destruct (js_lt _ _); [done|]|];
      (destruct (match maxEvaluations options with Some _ => _ | None => _ end); [done|]);
      destruct (findBestRoute_fuel fuel fuel' (ComboData.combo data)
                  (Solution.distance worst) roundTrip H1 H2) as [<- Hne];
      destruct (findBestRoute _ _ _ _ _ _) as [[route|]|]; try done; by apply IH.
  + cbn [fmap option_fmap option_map].
    destruct (Qc_ltb _ _);
      [|destruct (match maxEvaluations options with Some _ => _ | None => _ end)];
      (split; [done|]); (split; [done|]);
      intros Hn; by destruct (Hlast eq_refl Hn).
- rewrite andb_false_r.
  assert ((match maxEvaluations options with
           | Some n => bool_decide (n ≤ evaluated)%nat && false
           | None => false
           end) = false) as -> by (destruct (maxEvaluations options); by rewrite ?andb_false_r).
  destruct (findBestRoute_fuel fuel fuel' (ComboData.combo data)
              MAX_SAFE_INTEGER roundTrip H1 H2) as [<- Hne].
  destruct (findBestRoute _ _ _ _ _ _) as [[route|]|]; try done; by apply IH.
Qed.

Lemma findBestBounties_total bounties roundTrip numResults options :
(1 ≤ numResults)%nat →
∃ results, ∀ fuel,
  (plannerFuel bounties ≤ fuel)%nat →
  findBestBounties nodes gps fuel bounties roundTrip numResults options = Ok results.
Proof.
intros Hn.
set (comboData := jsSort byEstimatedEfficiency
       (comboDataOf nodes <$> combinations bounties (Nat.min (length bounties) 6))).
assert (∀ fuel, (plannerFuel bounties ≤ fuel)%nat →
  Forall (λ data, (enoughFuel nodes (ComboData.combo data) ≤ fuel)%nat ∧
                  (enoughFuel nodes (ComboData.combo data) ≤ plannerFuel bounties)%nat)
         comboData) as Hfuel.
{ intros fuel Hle. apply Forall_forall. intros data (_ & _ & Hlen)%comboData_spec.
  pose proof (enoughFuel_bound nodes (ComboData.combo data) (Nat.min (length bounties) 6)) as Hb.
  unfold plannerFuel in *. lia. }
destruct (evaluate_fuel _ _ roundTrip numResults options comboData [] 0%nat
            (Hfuel _ (Nat.le_refl _))) as (_ & Hfin & Hok).
specialize (Hok Hn).
destruct (evaluate nodes gps (plannerFuel bounties) roundTrip numResults options comboData [] 0)
  as [kept| |] eqn:Hrun; try done.
exists (jsSort byEfficiency kept). intros fuel Hle. unfold findBestBounties.
fold comboData.
destruct (evaluate_fuel _ _ roundTrip numResults options comboData [] 0%nat
            (Hfuel _ Hle)) as (-> & _). by rewrite Hrun.
Qed.

(** ** No results asked for *)

Lemma findBestBounties_none_asked fuel bounties roundTrip options :
(pruningThreshold options < 1)%Qc ∨ maxEvaluations options ≠ Some 0%nat →
findBestBounties nodes gps fuel bounties roundTrip 0 options = Throws.
Proof.
intros Hopt. unfold findBestBounties.
destruct (jsSort byEstimatedEfficiency _) as [|data comboData] eqn:Hdata.
{ pose proof (jsSort_Permutation byEstimatedEfficiency
    (comboDataOf nodes <$> combinations bounties (Nat.min (length bounties) 6))) as Hp.
  rewrite Hdata in Hp. apply Permutation_nil in Hp.
  apply fmap_nil_inv in Hp. apply combinations_nonempty in Hp; [done|lia]. }
cbn [evaluate]. simpl.
destruct (Qc_ltb (pruningThreshold options) 1) eqn:Hlt; [done|]. simpl.
destruct Hopt as [Hopt | Hopt].
{ unfold Qc_ltb in Hlt. by rewrite bool_decide_eq_true_2 in Hlt. }
destruct (maxEvaluations options) as [[|n]|]; try done.
Qed.

(** ** What the results are *)

Lemma evaluate_Forall (P : Solution.t → Prop) fuel roundTrip numResults options comboData
  results evaluated kept :
(∀ data threshold route,
   data ∈ comboData →
   findBestRoute nodes gps fuel (ComboData.combo data) threshold roundTrip
   = Returned (Some route) →
   P (Solution.mk (ComboData.combo data) (Route.actions route) (Route.distance route)
        (ComboData.kp data))) →
Forall P results →
evaluate nodes gps fuel roundTrip numResults options comboData results evaluated = Ok kept →
Forall P kept.
Proof.
revert results evaluated.
induction comboData as [|data comboData IH]; intros results evaluated Hpush Hres; simpl.
{ by intros [= <-]. }
assert (∀ data' threshold route,
   data' ∈ comboData →
   findBestRoute nodes gps fuel (ComboData.combo data') threshold roundTrip
   = Returned (Some route) →
   P (Solution.mk (ComboData.combo data') (Route.actions route) (Route.distance route)
        (ComboData.kp data'))) as Hpush'.
{ intros data' threshold route Hin. apply Hpush. by right. }
destruct (if _ && _ then _ else _) as [[]| |]; try done; [by intros [= <-]|].
destruct (match maxEvaluations options with Some _ => _ | None => _ end);
  [by intros [= <-]|].
destruct (if bool_decide _ then _ else _) as [threshold|]; [|done].
destruct (findBestRoute _ _ _ _ _ _) as [[route|]|] eqn:Hroute; [| |done].
- apply IH; [done|].
  assert (Forall P
            (results ++ [Solution.mk (ComboData.combo data) (Route.actions route)
                           (Route.distance route) (ComboData.kp data)])) as Hnew.
  { apply Forall_app. split; [done|]. apply Forall_singleton.
    eapply Hpush; [by left|done]. }
  case_bool_decide; [|done].
  apply Forall_take. by rewrite jsSort_Permutation.
- by apply IH.
Qed.

Lemma evaluate_length fuel roundTrip numResults options comboData results evaluated kept :
(length results ≤ numResults)%nat →
evaluate nodes gps fuel roundTrip numResults options comboData results evaluated = Ok kept →
(length kept ≤ numResults)%nat.
Proof.
revert results evaluated.
induction comboData as [|data comboData IH]; intros results evaluated Hres; simpl.
{ by intros [= <-]. }
destruct (if _ && _ then _ else _) as [[]| |]; try done; [by intros [= <-]|].
destruct (match maxEvaluations options with Some _ => _ | None => _ end);
  [by intros [= <-]|].
destruct (if bool_decide _ then _ else _) as [threshold|]; [|done].
destruct (findBestRoute _ _ _ _ _ _) as [[route|]|] eqn:Hroute; [| |done].
- apply IH. case_bool_decide as Hlen.
  + rewrite length_take. lia.
  + lia.
- by apply IH.
Qed.

Lemma findBestBounties_valid fuel bounties roundTrip numResults options results :
findBestBounties nodes gps fuel bounties roundTrip numResults options = Ok results →
Forall (validSolution bounties) results ∧ (length results ≤ numResults)%nat.
Proof.
unfold findBestBounties.
destruct (evaluate _ _ _ _ _ _ _ _ _) as [kept| |] eqn:Hrun; try done.
intros [= <-]. rewrite jsSort_Permutation. split.
- apply (evaluate_Forall (validSolution bounties)) in Hrun; [done| |done].
  intros data threshold route (Hdata & Hsub & Hlen)%comboData_spec Hroute.
  split; [done|]. split; [done|]. split; [by rewrite Hdata|].
  split; [by eapply findBestRoute_counting|by eapply findBestRoute_capacity].
- apply evaluate_length in Hrun; simpl; [done|lia].
Qed.

Lemma findBestBounties_sorted fuel bounties roundTrip numResults options results :
(∀ from to, 0 ≤ Gps.distance (gps (Some from) to)) →
bounties ≠ [] →
findBestBounties nodes gps fuel bounties roundTrip numResults options = Ok results →
StronglySorted atLeastAsEfficient results.
Proof.
intros Hgps Hne Hrun.
pose proof (findBestBounties_plausible nodes gps Hgps _ _ _ _ _ _ Hrun) as Hpl.
pose proof (findBestBounties_valid _ _ _ _ _ _ Hrun) as [Hvalid _].
revert Hrun Hpl Hvalid. unfold findBestBounties.
destruct (evaluate _ _ _ _ _ _ _ _ _) as [kept| |]; try done.
intros [= <-] Hpl Hvalid. rewrite jsSort_Permutation in Hpl, Hvalid.
apply sorted_byEfficiency. apply Forall_forall. intros r Hr.
rewrite Forall_forall in Hpl, Hvalid.
destruct (Hvalid r Hr) as (_ & Hlen & _).
destruct (Hpl r Hr) as [Hk Hd].
{ intros Hnil. rewrite Hnil in Hlen. destruct bounties; [done|]. simpl in Hlen. lia. }
by apply efficiency_Num.
Qed.

End Selector.

(** ** The utility process *)

Lemma jsInsert_fmap {A B} (f : A → B) (compare : A → A → JsNum) (compare' : B → B → JsNum)
    a l :
  (∀ a b, compare' (f a) (f b) = compare a b) →
  jsInsert compare' (f a) (f <$> l) = f <$> jsInsert compare a l.
Proof.
  intros Hcmp. induction l as [|b l IH]; [done|]. cbn [jsInsert fmap list_fmap].
  rewrite Hcmp. destruct (js_gt (compare a b) (Num 0%Qc)); [|done].
  cbn [fmap list_fmap]. f_equal. apply IH.
Qed.

Lemma jsSort_fmap {A B} (f : A → B) (compare : A → A → JsNum) (compare' : B → B → JsNum) l :
  (∀ a b, compare' (f a) (f b) = compare a b) →
  jsSort compare' (f <$> l) = f <$> jsSort compare l.
Proof.
  intros Hcmp. unfold jsSort. induction l as [|a l IH]; [done|].
  cbn [fmap list_fmap foldr]. fold (fmap f l). rewrite IH. by apply jsInsert_fmap.
Qed.

Section Chunk.
Context (nodes : Nodes) (gps : GPS).
Context {Q : Type} `{!PriorityQueue Q}.

Lemma evaluateTasks_evaluate fuel roundTrip numResults maxCombinations pt
  tasks estimates results evaluated :
length estimates = length tasks →
evaluateTasks nodes gps fuel roundTrip numResults pt tasks
  (asComboResult <$> results)
= asComboResults
    (evaluate nodes gps fuel roundTrip numResults
       (mkPruning maxCombinations None pt)
       (zip_with taskData tasks estimates) results evaluated).
Proof.
revert estimates results evaluated.
induction tasks as [|task tasks IH]; intros [|est estimates] results evaluated Hlen;
  try done.
cbn [evaluateTasks evaluate zip_with]. rewrite length_fmap.
cbn [pruningThreshold maxEvaluations].
rewrite fmap_last.
destruct (last results) as [worst|] eqn:Hlast; cbn [fmap option_fmap option_map].
- destruct (Qc_ltb pt 1 && bool_decide (numResults ≤ length results)%nat).
  + cbn [ComboData.estimatedEfficiency taskData asComboResult ComboResult.kp
         ComboResult.distance]. fold (efficiency worst).
    destruct (js_lt _ _); [done|].
    destruct (bool_decide (numResults ≤ length results)%nat);
      cbn [ComboData.combo taskData ComboData.kp asComboResult ComboResult.distance];
      destruct (findBestRoute _ _ _ _ _ _) as [[route|]|]; try done;
      try apply (IH estimates); try (simpl in Hlen; lia).
    all: rewrite <- (IH estimates) by (simpl in Hlen; lia); f_equal;
      rewrite length_app, length_fmap, length_app; simpl;
      change [ComboResult.mk (ComboTask.combo task) (ComboTask.kp task)
                (Route.actions route) (Route.distance route)]
        with (asComboResult <$> [Solution.mk (ComboTask.combo task) (Route.actions route)
                                   (Route.distance route) (ComboTask.kp task)]);
      rewrite <- fmap_app; case_bool_decide; [|done];
      rewrite (jsSort_fmap asComboResult byEfficiency) by done; by rewrite fmap_take.
  + destruct (bool_decide (numResults ≤ length results)%nat);
      cbn [ComboData.combo taskData ComboData.kp asComboResult ComboResult.distance];
      destruct (findBestRoute _ _ _ _ _ _) as [[route|]|]; try done;
      try apply (IH estimates); try (simpl in Hlen; lia).
    all: rewrite <- (IH estimates) by (simpl in Hlen; lia); f_equal;
      rewrite length_app, length_fmap, length_app; simpl;
      change [ComboResult.mk (ComboTask.combo task) (ComboTask.kp task)
                (Route.actions route) (Route.distance route)]
        with (asComboResult <$> [Solution.mk (ComboTask.combo task) (Route.actions route)
                                   (Route.distance route) (ComboTask.kp task)]);
      rewrite <- fmap_app; case_bool_decide; [|done];
      rewrite (jsSort_fmap asComboResult byEfficiency) by done; by rewrite fmap_take.
- destruct (Qc_ltb pt 1 && bool_decide (numResults ≤ length results)%nat);
    [done|].
  destruct (bool_decide (numResults ≤ length results)%nat); [done|].
  cbn [ComboData.combo taskData ComboData.kp].
  destruct (findBestRoute _ _ _ _ _ _) as [[route|]|]; try done;
    try apply (IH estimates); try (simpl in Hlen; lia).
  rewrite <- (IH estimates) by (simpl in Hlen; lia). f_equal.
  rewrite length_app, length_fmap, length_app. simpl.
  change [ComboResult.mk (ComboTask.combo task) (ComboTask.kp task)
            (Route.actions route) (Route.distance route)]
    with (asComboResult <$> [Solution.mk (ComboTask.combo task) (Route.actions route)
                               (Route.distance route) (ComboTask.kp task)]).
  rewrite <- fmap_app. case_bool_decide; [|done].
  rewrite (jsSort_fmap asComboResult byEfficiency) by done. by rewrite fmap_take.
Qed.
End Chunk.

Lemma taskData_asTask (comboData : list ComboData.t) :
  zip_with taskData (asTask <$> comboData) (ComboData.estimatedDistance <$> comboData)
  = comboData.
Proof.
  induction comboData as [|data comboData IH]; [done|].
  cbn [fmap list_fmap zip_with]. fold (fmap asTask comboData).
  fold (fmap ComboData.estimatedDistance comboData). rewrite IH. by destruct data.
Qed.

Section ChunkAll.
Context (nodes : Nodes) (gps : GPS).
Context {Q : Type} `{!PriorityQueue Q}.

Lemma evaluateChunk_evaluate fuel comboData roundTrip numResults maxCombinations pt :
evaluateChunk nodes gps fuel (asTask <$> comboData) roundTrip numResults pt
= asComboResults
    (match evaluate nodes gps fuel roundTrip numResults (mkPruning maxCombinations None pt)
             comboData [] 0 with
     | Ok results => Ok (jsSort byEfficiency results)
     | Throws => Throws
     | Unfinished => Unfinished
     end).
Proof.
unfold evaluateChunk.
pose proof (evaluateTasks_evaluate nodes gps fuel roundTrip numResults maxCombinations pt
              (asTask <$> comboData) (ComboData.estimatedDistance <$> comboData) [] 0%nat)
  as Hloop.
rewrite taskData_asTask in Hloop. cbn [fmap list_fmap] in Hloop.
rewrite Hloop by (by rewrite !length_fmap).
destruct (evaluate _ _ _ _ _ _ _ _ _) as [results| |]; try done.
cbn [asComboResults]. f_equal. by apply jsSort_fmap.
Qed.
End ChunkAll.

(** * Properties of the detection loop *)

Lemma getBountyKeyByName_name (key : BountyKey) :
  getBountyKeyByName (name (bountyData key)) = Key key.
Proof. destruct key; vm_compute; reflexivity. Qed.

Lemma bountyNameToKeyMap_sound (bountyName : string) (key : BountyKey) :
  bountyNameToKeyMap !! bountyName = Some key → name (bountyData key) = bountyName.
Proof.
  unfold bountyNameToKeyMap.
  assert (∀ keys (acc : gmap string BountyKey),
    (∀ n k, acc !! n = Some k → name (bountyData k) = n) →
    ∀ n k, foldl (λ acc key, <[name (bountyData key) := key]> acc) acc keys !! n = Some k →
           name (bountyData k) = n) as Hfold.
  { induction keys as [|key' keys IH]; intros acc Hacc n k; simpl; [apply Hacc|].
    apply IH. intros n' k'. destruct (decide (name (bountyData key') = n')) as [<-|Hne].
    - rewrite lookup_insert_eq. by intros [= <-].
    - rewrite lookup_insert_ne by done. apply Hacc. }
  apply Hfold. intros n k. by rewrite lookup_empty.
Qed.

Lemma getBountyKeyByName_Key (bountyName : string) (key : BountyKey) :
  getBountyKeyByName bountyName = Key key ↔ name (bountyData key) = bountyName.
Proof.
  split.
  - unfold getBountyKeyByName.
    destruct (bountyNameToKeyMap !! bountyName) as [k|] eqn:Hk.
    + intros [= <-]. by apply bountyNameToKeyMap_sound.
    + by case_decide.
  - intros <-. apply getBountyKeyByName_name.
Qed.

Lemma bountyNames_resolve :
  Forall (λ bountyName, ∃ key, resolveBountyKeyFromName bountyName = Some key ∧
                               key ≠ MONOCLE) bountyNames.
Proof.
  assert (forallb (λ bountyName,
            match resolveBountyKeyFromName bountyName with
            | Some key => bool_decide (key ≠ MONOCLE)
            | None => false
            end) bountyNames = true) as H by (vm_compute; reflexivity).
  apply Forall_forall. intros n Hn%list_elem_of_In.
  rewrite forallb_forall in H. specialize (H n Hn). cbv beta in H.
  destruct (resolveBountyKeyFromName n) as [k|]; [|done].
  exists k. split; [done|]. by apply bool_decide_eq_true in H.
Qed.

Lemma slotAt_setSlot (slots : Slots) (index : nat) (bounty : BountyKey) (idx : nat) :
  slotAt (setSlot slots index bounty) idx
  = if decide (idx = index) then Some bounty else slotAt slots idx.
Proof.
  unfold slotAt, setSlot. case_decide as Hlen.
  - case_decide as Hidx.
    + subst. by rewrite list_lookup_insert_eq.
    + by rewrite list_lookup_insert_ne.
  - destruct (decide (idx < length slots)%nat) as [Hlt|Hge].
    + rewrite lookup_app_l by done. rewrite decide_False by lia. done.
    + rewrite lookup_app_r by lia.
      rewrite (lookup_ge_None_2 slots idx) by lia.
      destruct (decide (idx < index)%nat) as [Hlt2|Hge2].
      * rewrite lookup_app_l by (rewrite length_replicate; lia).
        rewrite lookup_replicate_2 by lia. rewrite decide_False by lia. done.
      * rewrite lookup_app_r by (rewrite length_replicate; lia).
        rewrite length_replicate. case_decide as Hidx.
        -- subst. by replace (index - length slots - (index - length slots))%nat with 0%nat by lia.
        -- rewrite lookup_ge_None_2; [done|]. simpl. lia.
Qed.

Section Detect.
Context (resolve : string → option BountyKey) (index : nat) (text : string).

Lemma detectLoop_cons bountyName names slots :
detectLoop resolve index text (bountyName :: names) slots
= detectLoop resolve index text names
    (if includes text bountyName && includes text "6" then
       match resolve bountyName with
       | Some bountyKey => setSlot slots index bountyKey
       | None => slots
       end
     else slots).
Proof. done. Qed.

Lemma detectLoop_other names slots idx :
idx ≠ index → slotAt (detectLoop resolve index text names slots) idx = slotAt slots idx.
Proof.
intros Hidx. revert slots. induction names as [|n names IH]; intros slots; [done|].
rewrite detectLoop_cons, IH.
destruct (_ && _); [|done].
destruct (resolve n); [|done].
rewrite slotAt_setSlot. by rewrite decide_False.
Qed.

Lemma detectLoop_sound names slots key :
slotAt (detectLoop resolve index text names slots) index = Some key →
slotAt slots index = Some key ∨
includes text "6" = true ∧
∃ bountyName, bountyName ∈ names ∧ includes text bountyName = true ∧
              resolve bountyName = Some key.
Proof.
revert slots. induction names as [|n names IH]; intros slots; [by left|].
rewrite detectLoop_cons. intros [Hs | (H6 & m & Hm & Hin & Hres)]%IH.
- destruct (includes text n) eqn:Hn, (includes text "6") eqn:H6; simpl in Hs; try by left.
  destruct (resolve n) as [k|] eqn:Hk; [|by left].
  rewrite slotAt_setSlot, decide_True in Hs by done. injection Hs as ->.
  right. split; [done|]. exists n. split; [by left|done].
- right. split; [done|]. exists m. split; [by right|done].
Qed.

Lemma detectLoop_keep names slots key :
Forall (λ later, includes text later = false) names →
slotAt slots index = Some key →
slotAt (detectLoop resolve index text names slots) index = Some key.
Proof.
intros Hnames. revert slots. induction Hnames as [|m names Hm _ IH]; intros slots Hs; [done|].
rewrite detectLoop_cons, Hm. by apply IH.
Qed.

Lemma detectLoop_last before bountyName after slots key :
includes text bountyName = true → includes text "6" = true →
resolve bountyName = Some key →
Forall (λ later, includes text later = false) after →
slotAt (detectLoop resolve index text (before ++ bountyName :: after) slots) index = Some key.
Proof.
intros Hn H6 Hk Hafter.
replace (detectLoop resolve index text (before ++ bountyName :: after) slots)
  with (detectLoop resolve index text (bountyName :: after)
          (detectLoop resolve index text before slots))
  by (unfold detectLoop; by rewrite foldl_app).
rewrite detectLoop_cons, Hn, H6, Hk. cbn [andb].
apply detectLoop_keep; [done|]. by rewrite slotAt_setSlot, decide_True.
Qed.
End Detect.

(** Where a name stands in [bountyNames]: no later name is part of it. *)
Lemma bountyNames_order :
  Forall (λ bountyName,
            ∃ before after,
              bountyNames = before ++ bountyName :: after ∧
              Forall (λ later, includes bountyName later = false) after)
         bountyNames.
Proof.
  assert (∀ done todo,
    bountyNames = done ++ todo →
    forallb (λ p, forallb (λ later, negb (includes p.1 later)) p.2)
            (imap (λ i n, (n, drop (S i) todo)) todo) = true →
    Forall (λ bountyName,
              ∃ before after,
                bountyNames = before ++ bountyName :: after ∧
                Forall (λ later, includes bountyName later = false) after) todo) as Hgen.
  { intros pre todo. revert pre. induction todo as [|n todo IH]; intros pre Heq Hall; [done|].
    cbn [imap forallb] in Hall. apply andb_true_iff in Hall as [Hn Hall].
    constructor.
    - exists pre, todo. split; [done|]. cbn [fst snd drop] in Hn.
      apply Forall_forall. intros later Hlater%list_elem_of_In.
      rewrite forallb_forall in Hn. apply Hn in Hlater. by apply negb_true_iff in Hlater.
    - apply (IH (pre ++ [n])); [by rewrite <- app_assoc|].
      rewrite <- Hall. f_equal. }
  apply (Hgen []); [done|]. vm_compute. reflexivity.
Qed.

Lemma detectInto_detectLoop slots index text :
  detectInto slots index text = detectLoop resolveBountyKeyFromName index text bountyNames slots.
Proof. unfold detectInto, detectLoop. reflexivity. Qed.

Lemma resolveBountyKeyFromName_Some bountyName key :
  resolveBountyKeyFromName bountyName = Some key ↔ name (bountyData key) = bountyName.
Proof.
  rewrite <- getBountyKeyByName_Key. unfold resolveBountyKeyFromName.
  destruct (getBountyKeyByName bountyName); split; intros [=]; by subst.
Qed.

Lemma detectInto_sound slots index text idx key :
  slotAt (detectInto slots index text) idx = Some key →
  slotAt slots idx = Some key ∨
  idx = index ∧ key ≠ MONOCLE ∧
  includes text (name (bountyData key)) = true ∧ includes text "6" = true.
Proof.
  rewrite detectInto_detectLoop. destruct (decide (idx = index)) as [->|Hne].
  - intros [Hs | (H6 & n & Hn & Hin & Hres)]%detectLoop_sound; [by left|right].
    split; [done|].
    pose proof bountyNames_resolve as Hall. rewrite Forall_forall in Hall.
    destruct (Hall n Hn) as (k & Hk & Hmon). rewrite Hres in Hk. injection Hk as <-.
    apply resolveBountyKeyFromName_Some in Hres. by subst n.
  - rewrite detectLoop_other by done. by left.
Qed.

Lemma detectBounties_sound results :
  let '(detectedActive, detectedBoard) := detectBounties results in
  (∀ idx key, slotAt detectedActive idx = Some key →
     key ≠ MONOCLE ∧
     ∃ text, (activeBountyRegion idx, text) ∈ results ∧
             includes text (name (bountyData key)) = true ∧ includes text "6" = true) ∧
  (∀ idx key, slotAt detectedBoard idx = Some key →
     key ≠ MONOCLE ∧
     ∃ text, (boardRegion idx, text) ∈ results ∧
             includes text (name (bountyData key)) = true ∧ includes text "6" = true).
Proof.
  unfold detectBounties.
  induction results as [|[region text] results IH] using rev_ind.
  { simpl. split; intros idx key; unfold slotAt; by rewrite lookup_nil. }
  rewrite foldl_app. cbn [foldl].
  destruct (foldl _ _ results) as [detectedActive detectedBoard].
  destruct IH as [IHa IHb].
  rename region into region0.
  assert (∀ (region : nat → RegionKey) (slots : Slots),
    (∀ idx key, slotAt slots idx = Some key →
       key ≠ MONOCLE ∧
       ∃ text, (region idx, text) ∈ results ∧
               includes text (name (bountyData key)) = true ∧ includes text "6" = true) →
    ∀ idx key, slotAt slots idx = Some key →
       key ≠ MONOCLE ∧
       ∃ text', (region idx, text') ∈ results ++ [(region0, text)] ∧
               includes text' (name (bountyData key)) = true ∧ includes text' "6" = true)
    as Hmono.
  { intros region slots Hs idx k Hk. destruct (Hs idx k Hk) as (Hm & t & Hin & Ht).
    split; [done|]. exists t. split; [|done]. apply elem_of_app. by left. }
  pose proof (Hmono activeBountyRegion _ IHa) as Ha.
  pose proof (Hmono boardRegion _ IHb) as Hb. clear Hmono IHa IHb.
  case_decide; [done|].
  destruct region0 as [index|index| | |]; try done.
  - split; [|done].
    intros idx k [Hk | (-> & Hm & Hname & H6)]%detectInto_sound; [by apply Ha|].
    split; [done|]. exists text. split; [|done]. apply elem_of_app. right. by left.
  - split; [done|].
    intros idx k [Hk | (-> & Hm & Hname & H6)]%detectInto_sound; [by apply Hb|].
    split; [done|]. exists text. split; [|done]. apply elem_of_app. right. by left.
Qed.

Lemma bountyNames_names (key : BountyKey) :
  key ≠ MONOCLE → name (bountyData key) ∈ bountyNames.
Proof.
  intros Hkey.
  destruct key; first [by destruct Hkey | apply (bool_decide_unpack _); vm_compute; exact I].
Qed.

Lemma detectInto_unambiguous slots index text key :
  key ≠ MONOCLE →
  includes text (name (bountyData key)) = true →
  includes text "6" = true →
  (∀ bountyName, bountyName ∈ bountyNames → includes text bountyName = true →
                 includes (name (bountyData key)) bountyName = true) →
  slotAt (detectInto slots index text) index = Some key.
Proof.
  intros Hkey Hname H6 Hothers. rewrite detectInto_detectLoop.
  pose proof bountyNames_order as Horder. rewrite Forall_forall in Horder.
  destruct (Horder _ (bountyNames_names key Hkey)) as (before & after & Heq & Hafter).
  assert (Forall (λ later, later ∈ bountyNames) after) as Hin.
  { apply Forall_forall. intros later Hlater. rewrite Heq.
    apply elem_of_app. right. by right. }
  revert Hin. rewrite Heq at 1. intros Hin.
  apply detectLoop_last; [done|done|by apply resolveBountyKeyFromName_Some|].
  rewrite Forall_forall in Hafter, Hin. apply Forall_forall. intros later Hlater.
  destruct (includes text later) eqn:Hinc; [|done].
  rewrite <- (Hothers later); [by apply Hafter|by apply Hin|done].
Qed.

(** * Further properties of the reconciliation state machine *)

(** ** A forced recalculation *)





(** ** Slots *)

Lemma filter_ext_elem_of {A} (P1 P2 : A → Prop) `{!∀ x, Decision (P1 x)}
    `{!∀ x, Decision (P2 x)} (l : list A) :
  (∀ x, x ∈ l → P1 x ↔ P2 x) → filter P1 l = filter P2 l.
Proof.
  induction l as [|x l IH]; intros Hext; [done|].
  rewrite !filter_cons, IH by (intros y Hy; apply Hext; by right).
  destruct (decide (P1 x)) as [H1|H1], (decide (P2 x)) as [H2|H2]; try done.
  - destruct H2. by apply Hext; [left|].
  - destruct H1. by apply Hext; [left|].
Qed.

Lemma slotKeys_snoc (slots : Slots) (slot : option BountyKey) :
  slotKeys (slots ++ [slot])
  = slotKeys slots ++ (match slot with Some _ => [length slots] | None => [] end).
Proof.
  unfold slotKeys. rewrite imap_app, filter_app, fmap_app. f_equal.
  simpl. rewrite Nat.add_0_r. rewrite filter_cons, filter_nil. simpl.
  destruct slot; by case_decide as H; simpl; try done; destruct H.
Qed.

Lemma slotValues_snoc (slots : Slots) (slot : option BountyKey) :
  slotValues (slots ++ [slot])
  = slotValues slots ++ (match slot with Some bounty => [bounty] | None => [] end).
Proof. unfold slotValues. rewrite omap_app. by destruct slot. Qed.

Lemma slotKeys_lt (slots : Slots) (idx : nat) :
  idx ∈ slotKeys slots → (idx < length slots)%nat.
Proof.
  intros [b Hb]%elem_of_slotKeys. unfold slotAt in Hb.
  destruct (slots !! idx) eqn:Hidx; [|done]. by apply lookup_lt_Some in Hidx.
Qed.

Lemma slotAt_snoc_lt (slots : Slots) (slot : option BountyKey) (idx : nat) :
  (idx < length slots)%nat → slotAt (slots ++ [slot]) idx = slotAt slots idx.
Proof. intros Hlt. unfold slotAt. by rewrite lookup_app_l. Qed.

Lemma slotAt_snoc_length (slots : Slots) (slot : option BountyKey) :
  slotAt (slots ++ [slot]) (length slots) = slot.
Proof.
  unfold slotAt. rewrite lookup_app_r by lia. by rewrite Nat.sub_diag.
Qed.

Lemma slotsWith_snoc (bounty : BountyKey) (slots : Slots) (slot : option BountyKey) :
  slotsWith bounty (slots ++ [slot])
  = slotsWith bounty slots ++ (if decide (slot = Some bounty) then [length slots] else []).
Proof.
  unfold slotsWith. rewrite slotKeys_snoc, filter_app. f_equal.
  - apply filter_ext_elem_of. intros idx Hidx%slotKeys_lt.
    by rewrite slotAt_snoc_lt.
  - destruct slot as [b|]; [|by rewrite decide_False].
    rewrite filter_cons, filter_nil, slotAt_snoc_length.
    by repeat case_decide.
Qed.

Lemma slotsWith_length (bounty : BountyKey) (slots : Slots) :
  length (slotsWith bounty slots) = occurrences bounty (slotValues slots).
Proof.
  induction slots as [|slot slots IH] using rev_ind; [done|].
  rewrite slotsWith_snoc, slotValues_snoc. unfold occurrences in *.
  rewrite filter_app, !length_app, IH. f_equal.
  destruct slot as [b|]; [|by rewrite decide_False].
  rewrite filter_cons, filter_nil.
  destruct (decide (b = bounty)) as [->|Hne].
  - by rewrite decide_True.
  - rewrite decide_False; [done|]. by intros [= ->].
Qed.


(** ** Counting keys *)

Lemma occurrences_multiplicity (bounty : BountyKey) (keys : list BountyKey) :
  occurrences bounty keys = multiplicity bounty (sortedJoin keys).
Proof.
  unfold occurrences, sortedJoin. induction keys as [|k keys IH]; simpl.
  - by rewrite multiplicity_empty.
  - rewrite filter_cons, multiplicity_disj_union.
    destruct (decide (k = bounty)) as [->|Hne].
    + rewrite multiplicity_singleton. simpl. rewrite ?decide_True by done. by rewrite IH.
    + rewrite multiplicity_singleton_ne by done. by rewrite IH.
Qed.

Lemma occurrences_pos (bounty : BountyKey) (keys : list BountyKey) :
  (0 < occurrences bounty keys)%nat ↔ bounty ∈ keys.
Proof.
  unfold occurrences. split.
  - intros Hpos. destruct (filter _ keys) as [|k l] eqn:Hf; [simpl in Hpos; lia|].
    assert (k ∈ filter (λ b, b = bounty) keys) as Hk by (rewrite Hf; by left).
    apply list_elem_of_filter in Hk as [-> Hk]. done.
  - intros Hin.
    assert (bounty ∈ filter (λ b, b = bounty) keys) as Hk by by apply list_elem_of_filter.
    destruct (filter _ keys); [by apply elem_of_nil in Hk|simpl; lia].
Qed.

Lemma insertionOrder_spec (keys : list BountyKey) :
  NoDup (insertionOrder keys) ∧ ∀ bounty, bounty ∈ insertionOrder keys ↔ bounty ∈ keys.
Proof.
  unfold insertionOrder.
  assert (∀ seen, NoDup seen →
    NoDup (foldl (λ seen b, if decide (b ∈ seen) then seen else seen ++ [b]) seen keys) ∧
    ∀ bounty,
      bounty ∈ foldl (λ seen b, if decide (b ∈ seen) then seen else seen ++ [b]) seen keys
      ↔ bounty ∈ seen ∨ bounty ∈ keys) as Hgen.
  { induction keys as [|k keys IH]; intros seen Hnd; simpl.
    - split; [done|]. intros b. split; [by left|]. intros [?|?%elem_of_nil]; done.
    - case_decide as Hk.
      + destruct (IH seen Hnd) as [Hnd' Hel]. split; [done|]. intros b. rewrite Hel.
        split; [intros [?|?]; [by left|right; by right]|].
        intros [?|[->|?]%elem_of_cons]; [by left|by left|by right].
      + destruct (IH (seen ++ [k])) as [Hnd' Hel].
        { apply NoDup_app. split; [done|]. split; [|apply NoDup_singleton].
          intros x Hx ->%list_elem_of_singleton. done. }
        split; [done|]. intros b. rewrite Hel, elem_of_app, list_elem_of_singleton, elem_of_cons.
        tauto. }
  destruct (Hgen [] (NoDup_nil_2)) as [Hnd Hel]. split; [done|].
  intros b. rewrite Hel. split; [intros [?%elem_of_nil|?]; done|by right].
Qed.

Lemma filter_none {A} (P : A → Prop) `{!∀ x, Decision (P x)} (l : list A) :
  Forall (λ x, ¬ P x) l → filter P l = [].
Proof.
  induction 1 as [|x l Hx _ IH]; [done|]. by rewrite filter_cons, decide_False.
Qed.

(** ** The drop signals *)

Lemma elem_of_computeActiveDrops this detectedActive optimalBounties now idx :
  idx ∈ computeActiveDrops this detectedActive optimalBounties now →
  graceOver this idx now = true ∧
  ∃ bounty,
    slotAt detectedActive idx = Some bounty ∧
    (bounty = PUMPKIN ∨
     (occurrences bounty optimalBounties < occurrences bounty (slotValues detectedActive))%nat).
Proof.
  unfold computeActiveDrops. intros [Hin|Hin]%elem_of_app.
  - apply list_elem_of_filter in Hin as [[Hslot Hgrace] _].
    split; [by apply Is_true_true|]. exists PUMPKIN. split; [done|by left].
  - apply list_elem_of_bind in Hin as (bounty & Hin & _).
    fold (slotsWith bounty detectedActive) in Hin.
    case_bool_decide as Hmore; [|by apply elem_of_nil in Hin].
    apply list_elem_of_filter in Hin as [Hgrace Hin].
    apply elem_of_take in Hin as (i & Hi & _).
    apply list_elem_of_lookup_2, list_elem_of_filter in Hi as [Hslot _].
    split; [by apply Is_true_true|]. exists bounty. split; [done|right].
    by rewrite <- slotsWith_length.
Qed.

(** The drops among the slots that hold [bounty]. *)
Lemma computeActiveDrops_surplus this detectedActive optimalBounties now bounty :
  bounty ≠ PUMPKIN →
  (length (filter (λ idx, slotAt detectedActive idx = Some bounty)
             (computeActiveDrops this detectedActive optimalBounties now))
   ≤ occurrences bounty (slotValues detectedActive) - occurrences bounty optimalBounties)%nat.
Proof.
  intros Hbounty. unfold computeActiveDrops.
  set (f := λ bounty : BountyKey,
         if bool_decide (occurrences bounty optimalBounties
                         < length (filter (λ idx, slotAt detectedActive idx = Some bounty)
                                     (slotKeys detectedActive)))%nat
         then filter (λ idx, graceOver this idx now)
                (take (length (filter (λ idx, slotAt detectedActive idx = Some bounty)
                                 (slotKeys detectedActive))
                       - occurrences bounty optimalBounties)
                   (filter (λ idx, slotAt detectedActive idx = Some bounty)
                      (slotKeys detectedActive)))
         else []).
  assert (∀ b idx, idx ∈ f b → slotAt detectedActive idx = Some b) as Hf.
  { intros b idx. unfold f. case_bool_decide; [|by intros ?%elem_of_nil].
    intros [_ Hin]%list_elem_of_filter. apply elem_of_take in Hin as (i & Hi & _).
    by apply list_elem_of_lookup_2, list_elem_of_filter in Hi as [Hslot _]. }
  assert (length (f bounty)
          ≤ occurrences bounty (slotValues detectedActive)
            - occurrences bounty optimalBounties)%nat as Hlen.
  { unfold f. fold (slotsWith bounty detectedActive). rewrite slotsWith_length.
    case_bool_decide; [|simpl; lia].
    etransitivity; [apply length_filter|]. rewrite length_take. lia. }
  rewrite filter_app, length_app.
  rewrite filter_none; cycle 1.
  { apply Forall_forall. intros idx [[Hslot _] _]%list_elem_of_filter Hslot'.
    rewrite Hslot in Hslot'. by injection Hslot' as <-. }
  simpl.
  assert (∀ l : list BountyKey, NoDup l →
    (length (filter (λ idx, slotAt detectedActive idx = Some bounty) (l ≫= f))
     ≤ length (f bounty))%nat) as Hbind.
  { assert (∀ l : list BountyKey, bounty ∉ l →
      filter (λ idx, slotAt detectedActive idx = Some bounty) (l ≫= f) = []) as Hnone.
    { intros l Hl. apply filter_none. apply Forall_forall.
      intros idx (b & Hin & Hb)%list_elem_of_bind Hslot.
      apply Hf in Hin. rewrite Hslot in Hin. injection Hin as <-. done. }
    induction l as [|b l IH]; intros Hnd; [simpl; lia|].
    apply NoDup_cons in Hnd as [Hb Hnd]. rewrite bind_cons, filter_app, length_app.
    destruct (decide (b = bounty)) as [->|Hne].
    - rewrite (Hnone l Hb). simpl. rewrite Nat.add_0_r. apply length_filter.
    - rewrite filter_none; [by apply IH|].
      apply Forall_forall. intros idx Hin%Hf Hslot. rewrite Hslot in Hin.
      by injection Hin as <-. }
  etransitivity; [|exact Hlen]. apply Hbind.
  apply NoDup_filter. apply insertionOrder_spec.
Qed.

(** ** The accept signals *)

Lemma computeBoardPickups_spec detectedActive detectedBoard optimalBounties :
  let boardPickups := computeBoardPickups detectedActive detectedBoard optimalBounties in
  (∀ idx, idx ∈ boardPickups →
     ∃ bounty, slotAt detectedBoard idx = Some bounty ∧ bounty ≠ PUMPKIN ∧
               (occurrences bounty (slotValues detectedActive)
                < occurrences bounty optimalBounties)%nat) ∧
  (∀ bounty,
     (length (filter (λ idx, slotAt detectedBoard idx = Some bounty) boardPickups)
      ≤ occurrences bounty optimalBounties
        - occurrences bounty (slotValues detectedActive))%nat).
Proof.
  cbv zeta. unfold computeBoardPickups.
  set (step := λ '(boardPickups, pickupCount) idx, _).
  assert (∀ keys state,
    ((∀ idx, idx ∈ state.1 →
        ∃ bounty, slotAt detectedBoard idx = Some bounty ∧ bounty ≠ PUMPKIN ∧
                  (occurrences bounty (slotValues detectedActive)
                   < occurrences bounty optimalBounties)%nat) ∧
     (∀ bounty,
        length (filter (λ idx, slotAt detectedBoard idx = Some bounty) state.1)
        = occurrences bounty state.2) ∧
     (∀ bounty,
        (occurrences bounty state.2
         ≤ occurrences bounty optimalBounties
           - occurrences bounty (slotValues detectedActive))%nat)) →
    let state' := foldl step state keys in
    (∀ idx, idx ∈ state'.1 →
        ∃ bounty, slotAt detectedBoard idx = Some bounty ∧ bounty ≠ PUMPKIN ∧
                  (occurrences bounty (slotValues detectedActive)
                   < occurrences bounty optimalBounties)%nat) ∧
     (∀ bounty,
        length (filter (λ idx, slotAt detectedBoard idx = Some bounty) state'.1)
        = occurrences bounty state'.2) ∧
     (∀ bounty,
        (occurrences bounty state'.2
         ≤ occurrences bounty optimalBounties
           - occurrences bounty (slotValues detectedActive))%nat)) as Hfold.
  { induction keys as [|idx keys IH]; intros [pickups counts] Hinv; [done|].
    cbn [foldl]. apply IH. clear IH. destruct Hinv as (Hel & Hcount & Hquota).
    subst step. cbv beta iota. cbn [fst snd] in *.
    assert ((∀ idx, idx ∈ (pickups, counts).1 →
        ∃ bounty, slotAt detectedBoard idx = Some bounty ∧ bounty ≠ PUMPKIN ∧
                  (occurrences bounty (slotValues detectedActive)
                   < occurrences bounty optimalBounties)%nat) ∧
     (∀ bounty,
        length (filter (λ idx, slotAt detectedBoard idx = Some bounty) (pickups, counts).1)
        = occurrences bounty (pickups, counts).2) ∧
     (∀ bounty,
        (occurrences bounty (pickups, counts).2
         ≤ occurrences bounty optimalBounties
           - occurrences bounty (slotValues detectedActive))%nat)) as Hsame by done.
    destruct (slotAt detectedBoard idx) as [b|] eqn:Hslot; [|exact Hsame].
    case_decide as Hpumpkin; [exact Hsame|]. case_decide as Hopt; [|exact Hsame].
    case_decide as Hroom; [|exact Hsame]. clear Hsame. cbn [fst snd].
    split; [|split].
    - intros idx' [Hin | ->%list_elem_of_singleton]%elem_of_app; [by apply Hel|].
      exists b. split; [done|]. split; [done|lia].
    - intros bounty. rewrite filter_app, length_app, Hcount. unfold occurrences.
      rewrite (filter_cons _ b), filter_cons, filter_nil, Hslot.
      destruct (decide (b = bounty)) as [->|Hne].
      + rewrite decide_True by done. simpl. lia.
      + rewrite decide_False by (by intros [= ->]). simpl. lia.
    - intros bounty. unfold occurrences at 1. rewrite filter_cons.
      destruct (decide (b = bounty)) as [->|Hne].
      + simpl. fold (occurrences bounty counts). lia.
      + apply Hquota. }
  destruct (Hfold (slotKeys detectedBoard) ([], [])) as (Hel & Hcount & Hquota).
  { cbn [fst snd]. split; [by intros idx ?%elem_of_nil|]. split; [done|].
    intros bounty. unfold occurrences at 1. simpl. lia. }
  split; [done|]. intros bounty. rewrite Hcount. apply Hquota.
Qed.

(** ** One snapshot *)

Lemma computeActiveDrops_ext this this' detectedActive optimalBounties now :
  recentActiveAdds this' = recentActiveAdds this →
  computeActiveDrops this' detectedActive optimalBounties now
  = computeActiveDrops this detectedActive optimalBounties now.
Proof.
  intros Hadds. unfold computeActiveDrops, graceOver. by rewrite Hadds.
Qed.

Lemma detectCompletion_cached this detectedActive boardOpen now :
  let this' := detectCompletion this detectedActive boardOpen now in
  prevOptimalBounties this' = prevOptimalBounties this ∨ prevOptimalBounties this' = [].
Proof.
  cbv zeta. unfold detectCompletion. cbv zeta.
  destruct (if _ && _ then findCompleted _ _ else None) as [bounty|].
  - destruct (_ && _ && _).
    + right. apply allBountiesCompleted_clears.
    + left. unfold bountyCompleted. branches; fields; done.
  - rewrite andb_false_r. by left.
Qed.

(** What a snapshot leaves in the fields the overlay reads. *)
Lemma processOCRResults_cases this detectedActive detectedBoard boardOpen now :
  let this1 := triggerRecompute this detectedActive detectedBoard boardOpen now in
  let this' := processOCRResults this detectedActive detectedBoard boardOpen now in
  activeBounties this' = detectedActive ∧
  boardBounties this' = detectedBoard ∧
  prevActiveBounties this' = detectedActive ∧
  inFlightFind this' = inFlightFind this1 ∧
  recentActiveAdds this' = trackRecentAdds this detectedActive now ∧
  (prevOptimalBounties this' = prevOptimalBounties this ∨ prevOptimalBounties this' = []) ∧
  (prevOptimalBounties this = [] ∧ activeDrops this' = [] ∧ boardPickups this' = [] ∨
   prevOptimalBounties this ≠ [] ∧
   activeDrops this'
   = (if suppressDropsWhileRecompute this && bool_decide (is_Some (inFlightFind this1))
      then []
      else computeActiveDrops this' detectedActive (prevOptimalBounties this) now) ∧
   boardPickups this'
   = (if boardOpen
      then computeBoardPickups detectedActive detectedBoard (prevOptimalBounties this)
      else [])).
Proof.
  cbv zeta. unfold processOCRResults.
  destruct (triggerRecompute_frame this detectedActive detectedBoard boardOpen now)
    as (Hc & Hadds & Hsup & _).
  set (this1 := triggerRecompute this detectedActive detectedBoard boardOpen now) in *.
  unfold cached in Hc. injection Hc as Hopt _ _. cbv zeta.
  assert (∀ s drops pickups,
    let s' := set_prevActiveBounties detectedActive
                (set_boardBounties detectedBoard (set_activeBounties detectedActive
                   (set_boardPickups pickups (set_activeDrops drops s)))) in
    activeBounties s' = detectedActive ∧ boardBounties s' = detectedBoard ∧
    prevActiveBounties s' = detectedActive ∧ inFlightFind s' = inFlightFind s ∧
    recentActiveAdds s' = recentActiveAdds s ∧
    prevOptimalBounties s' = prevOptimalBounties s ∧
    activeDrops s' = drops ∧ boardPickups s' = pickups) as Hfinish.
  { intros s drops pickups. cbv zeta. by fields. }
  destruct (prevOptimalBounties this) as [|b l] eqn:Hcached.
  - rewrite Hopt. rewrite bool_decide_eq_false_2 by (simpl; lia). cbn [negb].
    destruct (Hfinish this1 [] []) as (H1 & H2 & H3 & H4 & H5 & H6 & H7 & H8).
    rewrite H1, H2, H3, H4, H5, H6, H7, H8, Hopt, Hadds.
    repeat split; try done; by left.
  - rewrite Hopt. rewrite bool_decide_eq_true_2 by (simpl; lia). cbn [negb].
    destruct (detectCompletion_frame this1 detectedActive boardOpen now)
      as (Hadds2 & Hsup2 & Hin2).
    pose proof (detectCompletion_cached this1 detectedActive boardOpen now) as Hopt2.
    cbv zeta in Hopt2. rewrite Hopt in Hopt2.
    set (this2 := detectCompletion this1 detectedActive boardOpen now) in *.
    rewrite Hsup2, Hin2, Hsup.
    set (drops := if suppressDropsWhileRecompute this
                     && bool_decide (is_Some (inFlightFind this1))
                  then [] else computeActiveDrops this2 detectedActive (b :: l) now).
    set (pickups := if boardOpen
                    then computeBoardPickups detectedActive detectedBoard (b :: l)
                    else []).
    destruct (Hfinish this2 drops pickups) as (H1 & H2 & H3 & H4 & H5 & H6 & H7 & H8).
    assert (set_prevActiveBounties detectedActive
          (set_boardBounties detectedBoard
             (set_activeBounties detectedActive
                (if boardOpen
                 then set_boardPickups
                        (computeBoardPickups detectedActive detectedBoard (b :: l))
                        (if suppressDropsWhileRecompute this
                            && bool_decide (is_Some (inFlightFind this1))
                         then set_activeDrops [] this2
                         else set_activeDrops
                                (computeActiveDrops this2 detectedActive (b :: l) now) this2)
                 else set_boardPickups []
                        (if suppressDropsWhileRecompute this
                            && bool_decide (is_Some (inFlightFind this1))
                         then set_activeDrops [] this2
                         else set_activeDrops
                                (computeActiveDrops this2 detectedActive (b :: l) now) this2))))
        = set_prevActiveBounties detectedActive
            (set_boardBounties detectedBoard (set_activeBounties detectedActive
               (set_boardPickups pickups (set_activeDrops drops this2))))) as ->.
    { unfold drops, pickups. by destruct boardOpen, (_ && _). }
    rewrite H1, H2, H3, H4, H5, H6, H7, H8, Hin2, Hadds2, Hadds.
    split; [done|]. split; [done|]. split; [done|]. split; [done|]. split; [done|].
    split; [done|]. right. split; [done|]. split; [|done].
    unfold drops. destruct (_ && _); [done|].
    symmetry. by apply computeActiveDrops_ext.
Qed.

(** ** The grace window *)

Lemma trackRecentAdds_added (prevActiveIndices : list nat) (expires : Z) (keys : list nat)
    (adds : gmap nat Z) (idx : nat) :
  foldl (λ adds idx,
           if decide (idx ∈ prevActiveIndices) then adds else <[idx := expires]> adds)
        adds keys !! idx
  = if decide (idx ∈ keys ∧ idx ∉ prevActiveIndices) then Some expires else adds !! idx.
Proof.
  revert adds. induction keys as [|k keys IH]; intros adds; cbn [foldl].
  - rewrite decide_False; [done|]. by intros [?%elem_of_nil _].
  - rewrite IH.
    destruct (decide (idx ∈ keys ∧ idx ∉ prevActiveIndices)) as [H1|H1],
             (decide (idx ∈ k :: keys ∧ idx ∉ prevActiveIndices)) as [H2|H2].
    + done.
    + destruct H2. split; [right|]; tauto.
    + destruct H2 as [[->|Hin]%elem_of_cons Hprev]; [|tauto].
      rewrite decide_False by done. by rewrite lookup_insert_eq.
    + destruct (decide (k ∈ prevActiveIndices)) as [Hk|Hk]; [done|].
      destruct (decide (k = idx)) as [->|Hne]; [|by rewrite lookup_insert_ne].
      destruct H2. split; [by left|done].
Qed.

(** The entry of slot [idx] after [trackRecentAdds]. *)
Lemma trackRecentAdds_lookup this detectedActive now idx :
  trackRecentAdds this detectedActive now !! idx
  = if decide (is_Some (slotAt detectedActive idx)) then
      if decide (idx ∈ slotKeys (prevActiveBounties this)) then
        match recentActiveAdds this !! idx with
        | Some expiresAt => if decide (now < expiresAt) then Some expiresAt else None
        | None => None
        end
      else if decide (0 < dropGraceMs this) then Some (now + dropGraceMs this) else None
    else None.
Proof.
  unfold trackRecentAdds. cbv zeta.
  rewrite map_lookup_filter, trackRecentAdds_added.
  destruct (decide (is_Some (slotAt detectedActive idx))) as [Hheld|Hheld].
  - pose proof (proj2 (elem_of_slotKeys detectedActive idx) Hheld) as Hkey.
    destruct (decide (idx ∈ slotKeys (prevActiveBounties this))) as [Hprev|Hprev].
    + rewrite decide_False by tauto.
      destruct (recentActiveAdds this !! idx) as [expiresAt|]; [|done]. simpl.
      case_decide.
      * rewrite option_guard_True; done.
      * rewrite option_guard_False; [done|tauto].
    + rewrite decide_True by done. simpl. case_decide.
      * rewrite option_guard_True; [done|]. split; [simpl; lia|done].
      * rewrite option_guard_False; [done|]. simpl. lia.
  - destruct (if decide _ then _ else _) as [e|]; [|done]. simpl.
    rewrite option_guard_False; [done|]. simpl. tauto.
Qed.

Lemma graceOver_false this idx now :
  graceOver this idx now = false ↔
  ∃ expiresAt, recentActiveAdds this !! idx = Some expiresAt ∧ expiresAt ≠ 0 ∧ now < expiresAt.
Proof.
  unfold graceOver. destruct (recentActiveAdds this !! idx) as [e|].
  - rewrite orb_false_iff, !bool_decide_eq_false. split.
    + intros [? ?]. exists e. split; [done|]. split; [done|lia].
    + intros (e' & [= <-] & ? & ?). split; [done|lia].
  - split; [done|]. by intros (e' & [=] & _).
Qed.

(** ** The signals of one snapshot *)



Lemma processOCRResults_drops this detectedActive detectedBoard boardOpen now idx :
  let this' := processOCRResults this detectedActive detectedBoard boardOpen now in
  idx ∈ activeDrops this' →
  prevOptimalBounties this ≠ [] ∧
  (suppressDropsWhileRecompute this = false ∨ inFlightFind this' = None) ∧
  graceOver this' idx now = true ∧
  ∃ bounty,
    slotAt detectedActive idx = Some bounty ∧
    (bounty = PUMPKIN ∨
     (occurrences bounty (prevOptimalBounties this)
      < occurrences bounty (slotValues detectedActive))%nat).
Proof.
  cbv zeta.
  destruct (processOCRResults_cases this detectedActive detectedBoard boardOpen now)
    as (_ & _ & _ & Hin & _ & _ & [(_ & -> & _)|(Hcached & -> & _)]);
    [by intros ?%elem_of_nil|].
  rewrite Hin.
  destruct (suppressDropsWhileRecompute this) eqn:Hsup; cbn [andb].
  - case_bool_decide as Hfl; [by intros ?%elem_of_nil|].
    intros [Hgrace Hslot]%elem_of_computeActiveDrops.
    split; [done|]. split; [|done]. right.
    destruct (inFlightFind _); [|done]. destruct Hfl. by eexists.
  - intros [Hgrace Hslot]%elem_of_computeActiveDrops. split; [done|]. split; [by left|done].
Qed.

Lemma processOCRResults_in_grace this detectedActive detectedBoard boardOpen now idx expiresAt :
  0 ≤ now → now < expiresAt →
  recentActiveAdds (processOCRResults this detectedActive detectedBoard boardOpen now) !! idx
  = Some expiresAt →
  idx ∉ activeDrops (processOCRResults this detectedActive detectedBoard boardOpen now).
Proof.
  intros Hnow Hlt Hentry (_ & _ & Hgrace & _)%processOCRResults_drops.
  assert (graceOver (processOCRResults this detectedActive detectedBoard boardOpen now) idx now
          = false) as Hfalse; [|by rewrite Hfalse in Hgrace].
  apply graceOver_false. exists expiresAt. split; [done|]. split; [lia|done].
Qed.

Lemma processOCRResults_recentActiveAdds this detectedActive detectedBoard boardOpen now :
  recentActiveAdds (processOCRResults this detectedActive detectedBoard boardOpen now)
  = trackRecentAdds this detectedActive now.
Proof. apply processOCRResults_cases. Qed.

(** ** The grace tests with a clock of their own *)

(** With a clock that stands still, the snapshot is [processOCRResults]. *)
Lemma processOCRResultsAt_now this detectedActive detectedBoard boardOpen now :
  processOCRResultsAt this detectedActive detectedBoard boardOpen now (λ _, now)
  = processOCRResults this detectedActive detectedBoard boardOpen now.
Proof. reflexivity. Qed.

Lemma elem_of_computeActiveDropsAt this detectedActive optimalBounties clock idx :
  idx ∈ computeActiveDropsAt this detectedActive optimalBounties clock →
  graceOver this idx (clock idx) = true.
Proof.
  unfold computeActiveDropsAt. intros [Hin|Hin]%elem_of_app.
  - apply list_elem_of_filter in Hin as [[Hslot Hgrace] _]. by apply Is_true_true.
  - apply list_elem_of_bind in Hin as (bounty & Hin & _).
    case_bool_decide as Hmore; [|by apply elem_of_nil in Hin].
    apply list_elem_of_filter in Hin as [Hgrace Hin]. by apply Is_true_true.
Qed.

Lemma processOCRResultsAt_shape this detectedActive detectedBoard boardOpen now clock :
  let this1 := triggerRecompute this detectedActive detectedBoard boardOpen now in
  let this2 := detectCompletion this1 detectedActive boardOpen now in
  ∃ this3 drops pickups,
    processOCRResultsAt this detectedActive detectedBoard boardOpen now clock
    = set_prevActiveBounties detectedActive
        (set_boardBounties detectedBoard (set_activeBounties detectedActive
           (set_boardPickups pickups (set_activeDrops drops this3)))) ∧
    recentActiveAdds this3 = trackRecentAdds this detectedActive now ∧
    (drops = [] ∨
     ∃ optimalBounties, drops = computeActiveDropsAt this3 detectedActive optimalBounties clock).
Proof.
  cbv zeta. unfold processOCRResultsAt. cbv zeta.
  destruct (triggerRecompute_frame this detectedActive detectedBoard boardOpen now)
    as (_ & Hadds & _).
  set (this1 := triggerRecompute this detectedActive detectedBoard boardOpen now) in *.
  destruct (detectCompletion_frame this1 detectedActive boardOpen now) as (Hadds2 & _).
  set (this2 := detectCompletion this1 detectedActive boardOpen now) in *.
  case_bool_decide; cbn [negb].
  - destruct boardOpen, (_ && _); eexists this2, _, _;
      (split; [reflexivity|]); (split; [by rewrite Hadds2|]); eauto.
  - eexists this1, _, _. split; [reflexivity|]. split; [done|by left].
Qed.

(** A slot whose grace window is still open when its test reads the clock
    is not signalled. *)
Lemma processOCRResultsAt_in_grace this detectedActive detectedBoard boardOpen now clock idx
    expiresAt :
  expiresAt ≠ 0 → clock idx < expiresAt →
  recentActiveAdds (processOCRResultsAt this detectedActive detectedBoard boardOpen now clock)
  !! idx = Some expiresAt →
  idx ∉ activeDrops (processOCRResultsAt this detectedActive detectedBoard boardOpen now clock).
Proof.
  destruct (processOCRResultsAt_shape this detectedActive detectedBoard boardOpen now clock)
    as (this3 & drops & pickups & -> & _ & Hdrops).
  change (recentActiveAdds (set_prevActiveBounties _ _)) with (recentActiveAdds this3).
  change (activeDrops (set_prevActiveBounties _ _)) with drops.
  intros Hnonzero Hlt Hentry Hin.
  destruct Hdrops as [->|(optimalBounties & ->)]; [by apply elem_of_nil in Hin|].
  apply elem_of_computeActiveDropsAt in Hin.
  assert (graceOver this3 idx (clock idx) = false) as Hfalse; [|by rewrite Hfalse in Hin].
  apply graceOver_false. by exists expiresAt.
Qed.

Lemma processOCRResultsAt_recentActiveAdds this detectedActive detectedBoard boardOpen now
    clock :
  recentActiveAdds (processOCRResultsAt this detectedActive detectedBoard boardOpen now clock)
  = trackRecentAdds this detectedActive now.
Proof.
  destruct (processOCRResultsAt_shape this detectedActive detectedBoard boardOpen now clock)
    as (this3 & drops & pickups & -> & <- & _).
  reflexivity.
Qed.

Lemma processOCRResults_pickups this detectedActive detectedBoard boardOpen now :
  boardPickups (processOCRResults this detectedActive detectedBoard boardOpen now) = [] ∨
  boardOpen = true ∧ prevOptimalBounties this ≠ [] ∧
  boardPickups (processOCRResults this detectedActive detectedBoard boardOpen now)
  = computeBoardPickups detectedActive detectedBoard (prevOptimalBounties this).
Proof.
  destruct (processOCRResults_cases this detectedActive detectedBoard boardOpen now)
    as (_ & _ & _ & _ & _ & _ & [(_ & _ & ->)|(Hcached & _ & ->)]); [by left|].
  destruct boardOpen; [by right|by left].
Qed.




(** ** Completions *)

Lemma find_unique {A} (P : A → bool) (l : list A) (x : A) :
  x ∈ l → P x = true → (∀ y, y ∈ l → P y = true → y = x) → find P l = Some x.
Proof.
  induction l as [|y l IH]; intros Hin HP Huniq; [by apply elem_of_nil in Hin|].
  simpl. destruct (P y) eqn:HPy.
  - f_equal. apply Huniq; [by left|done].
  - apply IH; [|done|].
    + apply elem_of_cons in Hin as [->|Hin]; [congruence|done].
    + intros z Hz. apply Huniq. by right.
Qed.

Lemma occurrences_removed (prev curr : list BountyKey) (bounty other : BountyKey) :
  sortedJoin prev = sortedJoin curr ⊎ {[+ bounty +]} →
  occurrences other prev
  = (occurrences other curr + (if decide (other = bounty) then 1 else 0))%nat.
Proof.
  intros Hgone. rewrite !occurrences_multiplicity, Hgone, multiplicity_disj_union.
  f_equal. destruct (decide (other = bounty)) as [->|Hne].
  - rewrite multiplicity_singleton. by rewrite ?decide_True by done.
  - by rewrite multiplicity_singleton_ne.
Qed.

Lemma findCompleted_removed (prev curr : list BountyKey) (bounty : BountyKey) :
  sortedJoin prev = sortedJoin curr ⊎ {[+ bounty +]} →
  findCompleted prev curr = Some bounty.
Proof.
  intros Hgone. unfold findCompleted. apply find_unique.
  - apply insertionOrder_spec, occurrences_pos.
    rewrite (occurrences_removed prev curr bounty bounty Hgone), decide_True by done. lia.
  - apply bool_decide_eq_true.
    rewrite (occurrences_removed prev curr bounty bounty Hgone), decide_True by done. lia.
  - intros other _ Hless%bool_decide_eq_true.
    rewrite (occurrences_removed prev curr bounty other Hgone) in Hless.
    destruct (decide (other = bounty)); [done|lia].
Qed.

Lemma findCompleted_Some (prev curr : list BountyKey) (bounty : BountyKey) :
  findCompleted prev curr = Some bounty →
  bounty ∈ prev ∧ (occurrences bounty curr < occurrences bounty prev)%nat.
Proof.
  unfold findCompleted. intros [Hin Hless]%find_some. split.
  - apply insertionOrder_spec. by apply list_elem_of_In.
  - by apply bool_decide_eq_true in Hless.
Qed.

Lemma sortedJoin_size (keys : list BountyKey) : size (sortedJoin keys) = length keys.
Proof.
  unfold sortedJoin. induction keys as [|k keys IH]; simpl.
  - apply (gmultiset_size_empty (A := BountyKey)).
  - by rewrite gmultiset_size_disj_union, gmultiset_size_singleton, IH.
Qed.

Lemma launch_stats this sig now :
  sessionStats (launchFindBestIfNeeded this sig now) = sessionStats this.
Proof. unfold launchFindBestIfNeeded. branches; fields; done. Qed.

Lemma triggerRecompute_stats this detectedActive detectedBoard boardOpen now :
  sessionStats (triggerRecompute this detectedActive detectedBoard boardOpen now)
  = sessionStats this.
Proof.
  assert (∀ v s, sessionStats (set_prevBoardOpenSignature v s) = sessionStats s) as Hset
    by done.
  unfold triggerRecompute.
  set (sig := sortedJoin (filter _ _)).
  generalize (bool_decide (sig ≠ prevAllBountiesSignature
                                   (set_recentActiveAdds (trackRecentAdds this detectedActive now) this))).
  intros signatureChanged.
  branches; rewrite ?Hset, ?launch_stats; by fields.
Qed.

Lemma allBountiesCompleted_counters this now :
  counters (sessionStats (allBountiesCompleted this now)) = counters (sessionStats this).
Proof. unfold allBountiesCompleted, counters. branches; fields; done. Qed.

Lemma bountyCompleted_counters this bounty boardOpen :
  counters (sessionStats (bountyCompleted this bounty boardOpen))
  = if boardOpen then counters (sessionStats this)
    else ((totalKpEarned (sessionStats this) + kpOf bounty)%Qc,
          S (totalBountiesCompleted (sessionStats this)),
          <[bounty := S (default 0%nat (bountyTypeCounts (sessionStats this) !! bounty))]>
            (bountyTypeCounts (sessionStats this))).
Proof. unfold bountyCompleted, counters. branches; fields; done. Qed.

(** The counters after the second part of [processOCRResultsAsync]. *)
Lemma detectCompletion_counters this detectedActive boardOpen now :
  counters (sessionStats (detectCompletion this detectedActive boardOpen now))
  = match (if bool_decide (length (slotKeys detectedActive)
                           < length (slotKeys (prevActiveBounties this)))%nat
              && bool_decide (length (slotKeys (prevActiveBounties this))
                              - length (slotKeys detectedActive) = 1)%nat
           then findCompleted (slotValues (prevActiveBounties this)) (slotValues detectedActive)
           else None) with
    | Some bounty => counters (sessionStats (bountyCompleted this bounty boardOpen))
    | None => counters (sessionStats this)
    end.
Proof.
  unfold detectCompletion. cbv zeta.
  destruct (if _ && _ then findCompleted _ _ else None) as [bounty|].
  - destruct (_ && _ && _); [|done]. apply allBountiesCompleted_counters.
  - by rewrite andb_false_r.
Qed.

Lemma processOCRResults_shape this detectedActive detectedBoard boardOpen now :
  let this1 := triggerRecompute this detectedActive detectedBoard boardOpen now in
  let this2 := if bool_decide (0 < length (prevOptimalBounties this1))%nat
               then detectCompletion this1 detectedActive boardOpen now else this1 in
  ∃ drops pickups,
    processOCRResults this detectedActive detectedBoard boardOpen now
    = set_prevActiveBounties detectedActive
        (set_boardBounties detectedBoard (set_activeBounties detectedActive
           (set_boardPickups pickups (set_activeDrops drops this2)))).
Proof.
  cbv zeta. unfold processOCRResults. cbv zeta. case_bool_decide; cbn [negb].
  - destruct boardOpen, (_ && _); eexists _, _; reflexivity.
  - by eexists _, _.
Qed.

Lemma processOCRResults_counters this detectedActive detectedBoard boardOpen now :
  counters (sessionStats (processOCRResults this detectedActive detectedBoard boardOpen now))
  = if bool_decide (0 < length (prevOptimalBounties this))%nat
    then counters (sessionStats (detectCompletion
                                   (triggerRecompute this detectedActive detectedBoard boardOpen now)
                                   detectedActive boardOpen now))
    else counters (sessionStats this).
Proof.
  destruct (processOCRResults_shape this detectedActive detectedBoard boardOpen now)
    as (drops & pickups & ->).
  destruct (triggerRecompute_frame this detectedActive detectedBoard boardOpen now)
    as (Hc & _). unfold cached in Hc. injection Hc as -> _ _.
  transitivity (counters (sessionStats
    (if bool_decide (0 < length (prevOptimalBounties this))%nat
     then detectCompletion (triggerRecompute this detectedActive detectedBoard boardOpen now)
            detectedActive boardOpen now
     else triggerRecompute this detectedActive detectedBoard boardOpen now))).
  { by fields. }
  case_bool_decide; [done|]. by rewrite triggerRecompute_stats.
Qed.

(** A sale that the snapshots show is counted, while the board is closed. *)
Lemma processOCRResults_sale this detectedActive detectedBoard boardOpen now bounty :
  prevOptimalBounties this ≠ [] →
  sortedJoin (slotValues (prevActiveBounties this))
  = sortedJoin (slotValues detectedActive) ⊎ {[+ bounty +]} →
  counters (sessionStats (processOCRResults this detectedActive detectedBoard boardOpen now))
  = if boardOpen then counters (sessionStats this)
    else ((totalKpEarned (sessionStats this) + kpOf bounty)%Qc,
          S (totalBountiesCompleted (sessionStats this)),
          <[bounty := S (default 0%nat (bountyTypeCounts (sessionStats this) !! bounty))]>
            (bountyTypeCounts (sessionStats this))).
Proof.
  intros Hcached Hgone. rewrite processOCRResults_counters.
  rewrite bool_decide_eq_true_2 by (destruct (prevOptimalBounties this); [done|simpl; lia]).
  rewrite detectCompletion_counters.
  destruct (triggerRecompute_frame this detectedActive detectedBoard boardOpen now)
    as (_ & _ & _ & -> & _).
  pose proof (f_equal size Hgone) as Hsize.
  rewrite gmultiset_size_disj_union, gmultiset_size_singleton, !sortedJoin_size,
    <- !slotKeys_length in Hsize.
  rewrite !bool_decide_eq_true_2 by lia. cbn [andb].
  rewrite (findCompleted_removed _ _ bounty Hgone), bountyCompleted_counters.
  by rewrite triggerRecompute_stats.
Qed.

(** ** The session statistics *)

Lemma countedBounties_insert (counts : gmap BountyKey nat) (bounty : BountyKey) :
  countedBounties (<[bounty := S (default 0%nat (counts !! bounty))]> counts)
  = S (countedBounties counts).
Proof.
  unfold countedBounties. destruct (counts !! bounty) as [count|] eqn:Hcount; simpl.
  - rewrite <- insert_delete_eq.
    rewrite map_fold_insert_L; [|intros; lia|apply lookup_delete_eq].
    rewrite (map_fold_delete_L _ _ bounty count counts); [lia|intros; lia|done].
  - rewrite map_fold_insert_L; [lia|intros; lia|done].
Qed.

Lemma statsConsistent_counters (stats stats' : SessionStats) :
  counters stats' = counters stats → statsConsistent stats → statsConsistent stats'.
Proof. unfold counters, statsConsistent. intros [= _ -> ->]. done. Qed.

Lemma statsConsistent_insert (stats stats' : SessionStats) (bounty : BountyKey) :
  counters stats'
  = ((totalKpEarned stats + kpOf bounty)%Qc, S (totalBountiesCompleted stats),
     <[bounty := S (default 0%nat (bountyTypeCounts stats !! bounty))]> (bountyTypeCounts stats)) →
  statsConsistent stats → statsConsistent stats'.
Proof.
  unfold counters, statsConsistent. intros [= _ -> ->] Hcount.
  rewrite countedBounties_insert. by rewrite Hcount.
Qed.

Lemma processOCRResults_statsConsistent this detectedActive detectedBoard boardOpen now :
  statsConsistent (sessionStats this) →
  statsConsistent
    (sessionStats (processOCRResults this detectedActive detectedBoard boardOpen now)).
Proof.
  intros Hinv.
  pose proof (processOCRResults_counters this detectedActive detectedBoard boardOpen now)
    as Hcounters.
  rewrite detectCompletion_counters in Hcounters.
  destruct (bool_decide (0 < length (prevOptimalBounties this))%nat);
    [|by eapply statsConsistent_counters].
  destruct (if _ && _ then findCompleted _ _ else None) as [bounty|].
  - rewrite bountyCompleted_counters, triggerRecompute_stats in Hcounters.
    destruct boardOpen; [by eapply statsConsistent_counters|by eapply statsConsistent_insert].
  - rewrite triggerRecompute_stats in Hcounters. by eapply statsConsistent_counters.
Qed.

Lemma findBestSettled_stats this sig outcome :
  sessionStats (findBestSettled this sig outcome) = sessionStats this.
Proof. unfold findBestSettled, accept. branches; fields; done. Qed.

Lemma forceOptimalRecalculation_stats worker this now :
  sessionStats (forceOptimalRecalculation worker this now) = sessionStats this.
Proof.
  assert (∀ v s, sessionStats (set_forceOptimal v s) = sessionStats s) as Hset by done.
  unfold forceOptimalRecalculation. cbv zeta. case_bool_decide; [|by fields].
  destruct worker; rewrite ?Hset, launch_stats; by fields.
Qed.

Lemma handle_statsConsistent this event :
  statsConsistent (sessionStats this) → statsConsistent (sessionStats (handle this event)).
Proof.
  destruct event; simpl.
  - apply processOCRResults_statsConsistent.
  - by rewrite findBestSettled_stats.
  - by rewrite forceOptimalRecalculation_stats.
Qed.

(** An event leaves the counters alone or counts one sale. *)
Lemma handle_counters this event :
  counters (sessionStats (handle this event)) = counters (sessionStats this) ∨
  ∃ bounty,
    counters (sessionStats (handle this event))
    = ((totalKpEarned (sessionStats this) + kpOf bounty)%Qc,
       S (totalBountiesCompleted (sessionStats this)),
       <[bounty := S (default 0%nat (bountyTypeCounts (sessionStats this) !! bounty))]>
         (bountyTypeCounts (sessionStats this))).
Proof.
  destruct event as [detectedActive detectedBoard boardOpen now| |]; simpl.
  - pose proof (processOCRResults_counters this detectedActive detectedBoard boardOpen now)
      as Hcounters.
    rewrite detectCompletion_counters in Hcounters.
    destruct (bool_decide (0 < length (prevOptimalBounties this))%nat); [|by left].
    destruct (if _ && _ then findCompleted _ _ else None) as [bounty|].
    + rewrite bountyCompleted_counters, triggerRecompute_stats in Hcounters.
      destruct boardOpen; [by left|right; by exists bounty].
    + rewrite triggerRecompute_stats in Hcounters. by left.
  - left. by rewrite findBestSettled_stats.
  - left. by rewrite forceOptimalRecalculation_stats.
Qed.

Lemma run_statsConsistent (timeoutMs graceMs : Z) (suppress : bool)
    (events : list Event) :
  statsConsistent (sessionStats (foldl handle (new timeoutMs graceMs suppress) events)).
Proof.
  assert (statsConsistent (sessionStats (new timeoutMs graceMs suppress))) as Hnew.
  { reflexivity. }
  revert Hnew. generalize (new timeoutMs graceMs suppress).
  induction events as [|event events IH]; intros this Hinv; [done|].
  simpl. by apply IH, handle_statsConsistent.
Qed.

(** ** Pruning the steps *)

Lemma firstSale_Some bounty (steps : list Action.t) idx :
  firstSale bounty steps = Some idx →
  ∃ sale, steps = take idx steps ++ sale :: drop (idx + 1) steps ∧
          length (take idx steps) = idx ∧
          Forall (λ step, ¬ (Action.type step = sell ∧ Action.item step = Some bounty))
                 (take idx steps) ∧
          Action.type sale = sell ∧ Action.item sale = Some bounty.
Proof.
  unfold firstSale. destruct (list_find _ steps) as [[i sale]|] eqn:Hfind; [|done].
  intros [= <-]. apply list_find_Some in Hfind as (Hi & [Htype Hitem] & Hfirst).
  exists sale. split; [|split; [|split; [|done]]].
  - rewrite Nat.add_1_r. by rewrite take_drop_middle.
  - apply length_take_le. apply lookup_lt_Some in Hi. lia.
  - apply Forall_forall. intros step [j Hj]%list_elem_of_lookup_1.
    pose proof (lookup_lt_Some _ _ _ Hj) as Hlt. rewrite length_take in Hlt.
    rewrite lookup_take_lt in Hj by lia. apply (Hfirst j); [done|lia].
Qed.

Lemma firstSale_None bounty (steps : list Action.t) :
  firstSale bounty steps = None →
  Forall (λ step, ¬ (Action.type step = sell ∧ Action.item step = Some bounty)) steps.
Proof.
  unfold firstSale. destruct (list_find _ steps) as [[i sale]|] eqn:Hfind; [done|].
  intros _. by apply list_find_None in Hfind.
Qed.

Lemma bountyCompleted_steps this bounty boardOpen :
  let this' := bountyCompleted this bounty boardOpen in
  match firstSale bounty (steps this) with
  | Some idx =>
      steps this' = drop (idx + 1) (steps this) ∧ displaySteps this' = steps this' ∧
      stepIdx this' = (stepIdx this + idx + 1)%nat
  | None =>
      steps this' = steps this ∧ displaySteps this' = displaySteps this ∧
      stepIdx this' = stepIdx this
  end.
Proof.
  cbv zeta. unfold bountyCompleted. cbv zeta. destruct boardOpen.
  - destruct (firstSale bounty (steps this)); by fields.
  - change (steps (set_sessionStats _ this)) with (steps this).
    destruct (firstSale bounty (steps this)); by fields.
Qed.

(** ** Steps for items already held *)

Lemma filterSteps_sublist have (actions : list Action.t) :
  sublist (filterSteps have actions) actions.
Proof.
  revert have. induction actions as [|step actions IH]; intros have; simpl; [done|].
  destruct (Action.type step), (Action.item step); try (by apply sublist_skip).
  case_decide; [by apply sublist_cons|by apply sublist_skip].
Qed.

Lemma filterSteps_other have (actions : list Action.t) :
  filter (λ step, Action.type step ≠ buy) (filterSteps have actions)
  = filter (λ step, Action.type step ≠ buy) actions.
Proof.
  revert have. induction actions as [|step actions IH]; intros have; simpl; [done|].
  destruct (Action.type step) eqn:Htype, (Action.item step) as [item|];
    try (rewrite !filter_cons, Htype, IH; by repeat case_decide).
  destruct (decide (item ∈ have)) as [Hhave|Hhave].
  - rewrite filter_cons, Htype, decide_False by (by intros []). apply IH.
  - rewrite !filter_cons, Htype, !decide_False by (by intros []). apply IH.
Qed.


(** ** Results of superseded computations *)

Lemma findBestSettled_any_signature this sig sig' outcome :
  let this1 := findBestSettled this sig outcome in
  let this2 := findBestSettled this sig' outcome in
  cached this1 = cached this2 ∧ steps this1 = steps this2 ∧
  displaySteps this1 = displaySteps this2 ∧ stepIdx this1 = stepIdx this2.
Proof.
  cbv zeta. unfold findBestSettled. cbv zeta.
  assert (∀ sig s, 
    let s' := match inFlightFind s with
              | Some inFlight =>
                  if decide (signature inFlight = sig) then set_inFlightFind None s else s
              | None => s
              end in
    cached s' = cached s ∧ steps s' = steps s ∧ displaySteps s' = displaySteps s ∧
    stepIdx s' = stepIdx s) as Hfin.
  { intros g s. cbv zeta. destruct (inFlightFind s) as [f|]; [|done]. by case_decide. }
  destruct (Hfin sig (match outcome with
     | Some optimalResp =>
         set_prevAllBountiesSignature sig
           (if js_is_zero (currentEfficiency (set_forceOptimal false this))
               || js_gt (js_div (Num (Solution.kp optimalResp))
                           (js_of_Z (Solution.distance optimalResp)))
                    (currentEfficiency (set_forceOptimal false this))
            then accept (set_forceOptimal false this) optimalResp
            else set_forceOptimal false this)
     | None => set_forceOptimal false this
     end)) as (-> & -> & -> & ->).
  destruct (Hfin sig' (match outcome with
     | Some optimalResp =>
         set_prevAllBountiesSignature sig'
           (if js_is_zero (currentEfficiency (set_forceOptimal false this))
               || js_gt (js_div (Num (Solution.kp optimalResp))
                           (js_of_Z (Solution.distance optimalResp)))
                    (currentEfficiency (set_forceOptimal false this))
            then accept (set_forceOptimal false this) optimalResp
            else set_forceOptimal false this)
     | None => set_forceOptimal false this
     end)) as (-> & -> & -> & ->).
  destruct outcome as [resp|]; [|done]. done.
Qed.

(** ** What a snapshot leaves behind *)

Lemma launch_boardOpen this sig now :
  prevBoardOpenSignature (launchFindBestIfNeeded this sig now) = prevBoardOpenSignature this.
Proof. unfold launchFindBestIfNeeded. branches; fields; done. Qed.

Lemma triggerRecompute_boardOpen this detectedActive detectedBoard boardOpen now :
  prevBoardOpenSignature (triggerRecompute this detectedActive detectedBoard boardOpen now)
  = boardOpen.
Proof.
  unfold triggerRecompute. cbv zeta.
  change (prevBoardOpenSignature (set_recentActiveAdds (trackRecentAdds this detectedActive now)
                                    this)) with (prevBoardOpenSignature this).
  destruct (eqb boardOpen (prevBoardOpenSignature this)) eqn:Heq; cbn [negb andb orb].
  - apply eqb_prop in Heq.
    destruct (_ || _ || _ || _); [done|]. by rewrite Heq.
  - rewrite !orb_true_r. cbn [orb]. done.
Qed.

Lemma detectCompletion_boardOpen this detectedActive boardOpen now :
  prevBoardOpenSignature (detectCompletion this detectedActive boardOpen now)
  = prevBoardOpenSignature this.
Proof.
  unfold detectCompletion, allBountiesCompleted, bountyCompleted. branches; fields; done.
Qed.

Lemma processOCRResults_mirror this detectedActive detectedBoard boardOpen now :
  let this' := processOCRResults this detectedActive detectedBoard boardOpen now in
  activeBounties this' = detectedActive ∧ boardBounties this' = detectedBoard ∧
  prevActiveBounties this' = detectedActive ∧ prevBoardOpenSignature this' = boardOpen.
Proof.
  cbv zeta.
  destruct (processOCRResults_cases this detectedActive detectedBoard boardOpen now)
    as (H1 & H2 & H3 & _).
  split; [done|]. split; [done|]. split; [done|].
  destruct (processOCRResults_shape this detectedActive detectedBoard boardOpen now)
    as (drops & pickups & ->).
  transitivity (prevBoardOpenSignature
    (if bool_decide (0 < length (prevOptimalBounties
                                   (triggerRecompute this detectedActive detectedBoard boardOpen now)))%nat
     then detectCompletion (triggerRecompute this detectedActive detectedBoard boardOpen now)
            detectedActive boardOpen now
     else triggerRecompute this detectedActive detectedBoard boardOpen now)).
  { by fields. }
  case_bool_decide; rewrite ?detectCompletion_boardOpen; apply triggerRecompute_boardOpen.
Qed.

(** * Further properties *)

(** ** The route planner ([pathfinder.ts]) *)

(** X1.  With a threshold of 0 or less, [findBestRoute] returns [null]
    whatever the bounties are: the start state is not below the threshold,
    and nothing else is in the queue. *)
Theorem no_route_within_zero (nodes : Nodes) (gps : GPS) {Q : Type} `{!PriorityQueue Q}
    (fuel : nat) (bounties : list BountyKey) (threshold : Z) (roundTrip : bool) :
  (2 ≤ fuel)%nat → threshold ≤ 0 →
  findBestRoute nodes gps fuel bounties threshold roundTrip = Returned None.
Proof. apply findBestRoute_no_budget. Qed.

Lemma no_route_within_zero_witness :
  findBestRoute grocerNodes lineGps (Q := list SearchState.t) 100 [CARROTS; TOMATOES] 0 true
  = Returned None.
Proof. apply no_route_within_zero; lia. Defined.

(** X2.  For no bounties and a positive threshold, [findBestRoute] returns
    the empty route of time 0, also for a round trip: no [return] action is
    added at the bounty board, where the search starts. *)
Theorem empty_subset_empty_route (nodes : Nodes) (gps : GPS) {Q : Type} `{!PriorityQueue Q}
    (fuel : nat) (threshold : Z) (roundTrip : bool) :
  (1 ≤ fuel)%nat → 0 < threshold →
  findBestRoute nodes gps fuel [] threshold roundTrip = Returned (Some (Route.mk [] 0)).
Proof. apply findBestRoute_nothing_to_do. Qed.

Lemma empty_subset_empty_route_witness :
  findBestRoute grocerNodes lineGps (Q := list SearchState.t) 1 [] MAX_SAFE_INTEGER true
  = Returned (Some (Route.mk [] 0)).
Proof. apply empty_subset_empty_route; [lia|done]. Defined.

(** X3.  A route [findBestRoute] returns has no [return] action, or one
    only: its last action, stamped with the route's total time.  A one-way
    route has none. *)
Theorem return_only_at_the_end (nodes : Nodes) (gps : GPS) {Q : Type} `{!PriorityQueue Q}
    (fuel : nat) (bounties : list BountyKey) (threshold : Z) (roundTrip : bool)
    (route : Route.t) :
  findBestRoute nodes gps fuel bounties threshold roundTrip = Returned (Some route) →
  returnsOnce route ∧ (roundTrip = false → countType return_ (Route.actions route) = 0%nat).
Proof. apply findBestRoute_returns. Qed.

Lemma return_only_at_the_end_witness :
  ∃ route, grocerRun MAX_SAFE_INTEGER = Returned (Some route) ∧
           returnsOnce route ∧
           (true = false → countType return_ (Route.actions route) = 0%nat).
Proof.
  eexists. split; [vm_compute; reflexivity|].
  apply (return_only_at_the_end grocerNodes lineGps (Q := list SearchState.t) 100
           [CARROTS; TOMATOES] MAX_SAFE_INTEGER true).
  vm_compute. reflexivity.
Defined.

(** X4.  Asked for at least one result, [findBestBounties] returns: it
    does not throw, and every call of [findBestRoute] it makes ends. *)
Theorem selection_returns (nodes : Nodes) (gps : GPS) {Q : Type} `{!PriorityQueue Q}
    (bounties : list BountyKey) (roundTrip : bool) (numResults : nat)
    (options : PruningOptions) :
  (1 ≤ numResults)%nat →
  ∃ results, ∀ fuel,
    (plannerFuel bounties ≤ fuel)%nat →
    findBestBounties nodes gps fuel bounties roundTrip numResults options = Ok results.
Proof. apply findBestBounties_total. Qed.

Lemma selection_returns_witness :
  ∃ results, ∀ fuel,
    (plannerFuel clockBounties ≤ fuel)%nat →
    findBestBounties clockNodes lineGps (Q := list SearchState.t) fuel clockBounties true 1
      defaultPruning = Ok results.
Proof. apply selection_returns. lia. Defined.

(** X5.  Asked for no result ([numResults = 0]) of at least one bounty,
    [findBestBounties] throws at the first combination, where it reads the
    last of no results; unless pruning is off and no evaluation is
    allowed. *)
Theorem selection_of_none_throws (nodes : Nodes) (gps : GPS) {Q : Type} `{!PriorityQueue Q}
    (fuel : nat) (bounties : list BountyKey) (roundTrip : bool) (options : PruningOptions) :
  bounties ≠ [] →
  (pruningThreshold options < 1)%Qc ∨ maxEvaluations options ≠ Some 0%nat →
  findBestBounties nodes gps fuel bounties roundTrip 0 options = Throws.
Proof. intros _. apply findBestBounties_none_asked. Qed.

Lemma selection_of_none_throws_witness :
  findBestBounties grocerNodes lineGps (Q := list SearchState.t) 100 [CARROTS; TOMATOES] true 0
    defaultPruning = Throws.
Proof. apply selection_of_none_throws; [done|]. right. by vm_compute. Defined.



(** X7.  With a distance oracle that returns no negative time, the
    results of [findBestBounties] for a non-empty list of bounties come in
    the order of their efficiency [kp / distance], the best first. *)
Theorem selection_results_sorted (nodes : Nodes) (gps : GPS) {Q : Type} `{!PriorityQueue Q}
    (fuel : nat) (bounties : list BountyKey) (roundTrip : bool) (numResults : nat)
    (options : PruningOptions) (results : list Solution.t) :
  (∀ from to, 0 ≤ Gps.distance (gps (Some from) to)) →
  bounties ≠ [] →
  findBestBounties nodes gps fuel bounties roundTrip numResults options = Ok results →
  StronglySorted atLeastAsEfficient results.
Proof. apply findBestBounties_sorted. Qed.

Lemma selection_results_sorted_witness :
  ∃ results,
    findBestBounties clockNodes lineGps (Q := list SearchState.t) 5000 clockBounties true 3
      optimalPruning = Ok results ∧
    StronglySorted atLeastAsEfficient results.
Proof.
  eexists. split; [vm_compute; reflexivity|].
  apply (selection_results_sorted clockNodes lineGps (Q := list SearchState.t) 5000 clockBounties
           true 3 optimalPruning).
  - intros from to. simpl. lia.
  - done.
  - vm_compute. reflexivity.
Defined.

(** ** The utility process ([pathfinder-utility-process.ts]) *)

(** X8.  The loop of the [evaluateChunk] message is the loop of
    [findBestBounties] without the stop at [maxEvaluations]: sent the
    sorted combinations of [findBestBounties] as tasks, the process replies
    with the results that [findBestBounties] returns for [maxEvaluations =
    Infinity], and fails where that throws. *)
Theorem utility_process_agrees (nodes : Nodes) (gps : GPS) {Q : Type} `{!PriorityQueue Q}
    (fuel : nat) (bounties : list BountyKey) (roundTrip : bool) (numResults : nat)
    (maxCombinations : option nat) (threshold : Qc) :
  evaluateChunk nodes gps fuel
    (asTask <$> jsSort byEstimatedEfficiency
                  (comboDataOf nodes <$> combinations bounties (Nat.min (length bounties) 6)))
    roundTrip numResults threshold
  = asComboResults
      (findBestBounties nodes gps fuel bounties roundTrip numResults
         (mkPruning maxCombinations None threshold)).
Proof. apply evaluateChunk_evaluate. Qed.

(** ** The detection loop ([bounties.ts], [electron-demo.ts]) *)

(** X9.  [getBountyKeyByName] gives a key exactly for the display name of
    that key's bounty: the names of the catalogue are pairwise distinct,
    and a name and a key are looked up from each other. *)
Theorem bounty_name_round_trip (bountyName : string) (key : BountyKey) :
  getBountyKeyByName bountyName = Key key ↔ name (bountyData key) = bountyName.
Proof. apply getBountyKeyByName_Key. Qed.

(** X10.  A slot of [detectedActive] or [detectedBoard] holds a key only
    when the text of that slot's region includes the bounty's display name
    and a "6"; and it never holds [MONOCLE], whose name is not among
    [bountyNames]. *)
Theorem detected_bounties_sound (results : list (RegionKey * string)) :
  let '(detectedActive, detectedBoard) := detectBounties results in
  (∀ idx key, slotAt detectedActive idx = Some key →
     key ≠ MONOCLE ∧
     ∃ text, (activeBountyRegion idx, text) ∈ results ∧
             includes text (name (bountyData key)) = true ∧ includes text "6" = true) ∧
  (∀ idx key, slotAt detectedBoard idx = Some key →
     key ≠ MONOCLE ∧
     ∃ text, (boardRegion idx, text) ∈ results ∧
             includes text (name (bountyData key)) = true ∧ includes text "6" = true).
Proof. apply detectBounties_sound. Qed.

(** X11.  When the text of a region includes a "6" and the name of a
    bounty other than the monocle, and every name of [bountyNames] that the
    text includes is part of that name, the region's slot holds that
    bounty: of two names of which one is part of the other ("Painting",
    "PortraitPainting"), the longer one is detected. *)
Theorem longest_name_detected (slots : Slots) (index : nat) (text : string) (key : BountyKey) :
  key ≠ MONOCLE →
  includes text (name (bountyData key)) = true →
  includes text "6" = true →
  Forall (λ bountyName, includes text bountyName = true →
                        includes (name (bountyData key)) bountyName = true) bountyNames →
  slotAt (detectInto slots index text) index = Some key.
Proof.
  intros Hkey Hname H6 Hothers. rewrite Forall_forall in Hothers.
  by apply detectInto_unambiguous.
Qed.

Lemma longest_name_detected_witness :
  slotAt (detectInto [] 2 "PortraitPainting 6g") 2 = Some PORTRAIT_PAINTING.
Proof.
  apply longest_name_detected.
  - done.
  - vm_compute. reflexivity.
  - vm_compute. reflexivity.
  - apply (bool_decide_unpack _). vm_compute. exact I.
Defined.

(** ** The reconciliation state machine ([electron-demo.ts]) *)




(** X14.  Of the slots that hold a bounty other than the pumpkin, no more
    are signalled for dropping than are held beyond what the solution
    cached before the snapshot contains. *)
Theorem drops_within_surplus (this : OCRProcessor.t) (detectedActive detectedBoard : Slots)
    (boardOpen : bool) (now : Z) (bounty : BountyKey) :
  bounty ≠ PUMPKIN →
  (length (filter (λ idx, slotAt detectedActive idx = Some bounty)
             (activeDrops (processOCRResults this detectedActive detectedBoard boardOpen now)))
   ≤ occurrences bounty (slotValues detectedActive)
     - occurrences bounty (prevOptimalBounties this))%nat.
Proof.
  intros Hbounty.
  destruct (processOCRResults_cases this detectedActive detectedBoard boardOpen now)
    as (_ & _ & _ & _ & _ & _ & [(_ & -> & _)|(_ & -> & _)]); [simpl; lia|].
  destruct (_ && _); [simpl; lia|]. by apply computeActiveDrops_surplus.
Qed.

Lemma drops_within_surplus_witness :
  (length (filter (λ idx, slotAt [Some CARROTS; Some CARROTS] idx = Some CARROTS)
             (activeDrops (processOCRResults oneHeld [Some CARROTS; Some CARROTS] [] false 9000)))
   ≤ occurrences CARROTS (slotValues [Some CARROTS; Some CARROTS])
     - occurrences CARROTS (prevOptimalBounties oneHeld))%nat.
Proof. by apply drops_within_surplus. Defined.

(** X15.  A slot of the board is signalled for accepting only while the
    board is open and a solution was cached before the snapshot, and when
    it holds a bounty, not the pumpkin, that the cached solution contains
    more often than it is held. *)
Theorem pickups_are_planned (this : OCRProcessor.t) (detectedActive detectedBoard : Slots)
    (boardOpen : bool) (now : Z) (idx : nat) :
  idx ∈ boardPickups (processOCRResults this detectedActive detectedBoard boardOpen now) →
  boardOpen = true ∧ prevOptimalBounties this ≠ [] ∧
  ∃ bounty,
    slotAt detectedBoard idx = Some bounty ∧ bounty ≠ PUMPKIN ∧
    (occurrences bounty (slotValues detectedActive)
     < occurrences bounty (prevOptimalBounties this))%nat.
Proof.
  destruct (processOCRResults_pickups this detectedActive detectedBoard boardOpen now)
    as [-> | (Hopen & Hcached & ->)]; [by intros ?%elem_of_nil|].
  intros Hin. split; [done|]. split; [done|].
  by apply computeBoardPickups_spec in Hin.
Qed.

Lemma pickups_are_planned_witness :
  true = true ∧ prevOptimalBounties twoHeld ≠ [] ∧
  ∃ bounty,
    slotAt [Some TOMATOES] 0 = Some bounty ∧ bounty ≠ PUMPKIN ∧
    (occurrences bounty (slotValues [Some CARROTS])
     < occurrences bounty (prevOptimalBounties twoHeld))%nat.
Proof.
  apply (pickups_are_planned twoHeld [Some CARROTS] [Some TOMATOES] true 2000 0).
  apply (bool_decide_unpack _). vm_compute. exact I.
Defined.

(** X16.  Of the board slots that hold a bounty, no more are signalled for
    accepting than the solution cached before the snapshot contains the
    bounty beyond what is held. *)
Theorem pickups_within_plan (this : OCRProcessor.t) (detectedActive detectedBoard : Slots)
    (boardOpen : bool) (now : Z) (bounty : BountyKey) :
  (length (filter (λ idx, slotAt detectedBoard idx = Some bounty)
             (boardPickups (processOCRResults this detectedActive detectedBoard boardOpen now)))
   ≤ occurrences bounty (prevOptimalBounties this)
     - occurrences bounty (slotValues detectedActive))%nat.
Proof.
  destruct (processOCRResults_pickups this detectedActive detectedBoard boardOpen now)
    as [-> | (_ & _ & ->)]; [simpl; lia|].
  apply computeBoardPickups_spec.
Qed.

(** X17.  A slot that is held in a snapshot and was not held in the one
    before gets a grace window of [dropGraceMs] from the snapshot's first
    reading of the clock, and is not signalled for dropping by that
    snapshot when the clock, read again at the slot's drop test, is still
    inside the window. *)
Theorem newly_held_not_dropped (this : OCRProcessor.t) (detectedActive detectedBoard : Slots)
    (boardOpen : bool) (now : Z) (clock : nat → Z) (idx : nat) :
  0 < dropGraceMs this → 0 ≤ now →
  is_Some (slotAt detectedActive idx) → slotAt (prevActiveBounties this) idx = None →
  let this' := processOCRResultsAt this detectedActive detectedBoard boardOpen now clock in
  recentActiveAdds this' !! idx = Some (now + dropGraceMs this) ∧
  (clock idx < now + dropGraceMs this → idx ∉ activeDrops this').
Proof.
  intros Hgrace Hnow Hheld Hnew. cbv zeta.
  assert (recentActiveAdds
            (processOCRResultsAt this detectedActive detectedBoard boardOpen now clock)
          !! idx = Some (now + dropGraceMs this)) as Hentry.
  { rewrite processOCRResultsAt_recentActiveAdds, trackRecentAdds_lookup.
    rewrite decide_True by done. rewrite decide_False, decide_True; [done..|].
    intros [bounty Hb]%elem_of_slotKeys. by rewrite Hnew in Hb. }
  split; [done|]. intros Hclock.
  eapply processOCRResultsAt_in_grace; [|exact Hclock|done]. lia.
Qed.

Lemma newly_held_not_dropped_witness :
  let held := [Some CARROTS; Some TOMATOES; Some PUMPKIN] in
  let this' := processOCRResultsAt twoHeld held [] false 2000 (λ _, 2500) in
  recentActiveAdds this' !! 2%nat = Some (2000 + dropGraceMs twoHeld) ∧
  (2500 < 2000 + dropGraceMs twoHeld → 2%nat ∉ activeDrops this').
Proof.
  apply (newly_held_not_dropped twoHeld [Some CARROTS; Some TOMATOES; Some PUMPKIN] [] false
           2000 (λ _, 2500) 2).
  - vm_compute. reflexivity.
  - lia.
  - vm_compute. by eexists.
  - vm_compute. reflexivity.
Defined.

(** X18.  The grace window of a slot that stays held is not renewed: as
    long as it has not expired at the snapshot's first reading of the clock
    the entry is kept as it is, and the first snapshot at or after its
    expiry removes it; and while the window is still open when the clock is
    read again at the slot's drop test, the slot is not signalled for
    dropping. *)
Theorem grace_window_not_extended (this : OCRProcessor.t) (detectedActive detectedBoard : Slots)
    (boardOpen : bool) (now : Z) (clock : nat → Z) (idx : nat) (expiresAt : Z) :
  0 ≤ now →
  is_Some (slotAt (prevActiveBounties this) idx) → is_Some (slotAt detectedActive idx) →
  recentActiveAdds this !! idx = Some expiresAt →
  let this' := processOCRResultsAt this detectedActive detectedBoard boardOpen now clock in
  recentActiveAdds this' !! idx = (if decide (now < expiresAt) then Some expiresAt else None) ∧
  (now < expiresAt → clock idx < expiresAt → idx ∉ activeDrops this').
Proof.
  intros Hnow Hprev Hheld Hentry. cbv zeta.
  assert (recentActiveAdds
            (processOCRResultsAt this detectedActive detectedBoard boardOpen now clock)
          !! idx = (if decide (now < expiresAt) then Some expiresAt else None)) as Hentry'.
  { rewrite processOCRResultsAt_recentActiveAdds, trackRecentAdds_lookup.
    rewrite decide_True by done. rewrite decide_True by by apply elem_of_slotKeys.
    by rewrite Hentry. }
  split; [done|]. intros Hlt Hclock. rewrite decide_True in Hentry' by done.
  eapply processOCRResultsAt_in_grace; [|exact Hclock|done]. lia.
Qed.

Lemma grace_window_not_extended_witness :
  let held := [Some CARROTS; Some TOMATOES; Some PUMPKIN] in
  let this' :=
    processOCRResultsAt (observed twoHeld held 2000) held [] false 3000 (λ _, 3500) in
  recentActiveAdds this' !! 2%nat = (if decide (3000 < 4000) then Some 4000 else None) ∧
  (3000 < 4000 → 3500 < 4000 → 2%nat ∉ activeDrops this').
Proof.
  apply (grace_window_not_extended
           (observed twoHeld [Some CARROTS; Some TOMATOES; Some PUMPKIN] 2000)
           [Some CARROTS; Some TOMATOES; Some PUMPKIN] [] false 3000 (λ _, 3500) 2 4000).
  - lia.
  - vm_compute. by eexists.
  - vm_compute. by eexists.
  - vm_compute. reflexivity.
Defined.



(** X20.  When a solution is cached and the held bounties of a snapshot
    are those of the snapshot before less one, that bounty counts as
    completed: with the board closed, [totalBountiesCompleted] and the
    bounty's entry of [bountyTypeCounts] go up by one and [totalKpEarned]
    by the bounty's reward; with the board open, the three are left as
    they are. *)
Theorem sale_counted (this : OCRProcessor.t) (detectedActive detectedBoard : Slots)
    (boardOpen : bool) (now : Z) (bounty : BountyKey) :
  prevOptimalBounties this ≠ [] →
  sortedJoin (slotValues (prevActiveBounties this))
  = sortedJoin (slotValues detectedActive) ⊎ {[+ bounty +]} →
  counters (sessionStats (processOCRResults this detectedActive detectedBoard boardOpen now))
  = if boardOpen then counters (sessionStats this)
    else ((totalKpEarned (sessionStats this) + kpOf bounty)%Qc,
          S (totalBountiesCompleted (sessionStats this)),
          <[bounty := S (default 0%nat (bountyTypeCounts (sessionStats this) !! bounty))]>
            (bountyTypeCounts (sessionStats this))).
Proof. apply processOCRResults_sale. Qed.

Lemma sale_counted_witness :
  counters (sessionStats (processOCRResults twoHeld [Some CARROTS] [] false 3000))
  = ((totalKpEarned (sessionStats twoHeld) + kpOf TOMATOES)%Qc,
     S (totalBountiesCompleted (sessionStats twoHeld)),
     <[TOMATOES := S (default 0%nat (bountyTypeCounts (sessionStats twoHeld) !! TOMATOES))]>
       (bountyTypeCounts (sessionStats twoHeld))).
Proof.
  apply (sale_counted twoHeld [Some CARROTS] [] false 3000 TOMATOES).
  - by vm_compute.
  - apply (bool_decide_unpack _). vm_compute. exact I.
Defined.

(** X21.  Whatever snapshots are processed, computations settle and
    recalculations are forced, from the start of the session on
    [totalBountiesCompleted] is the sum of the counts in
    [bountyTypeCounts]. *)
Theorem session_count_adds_up (timeoutMs graceMs : Z) (suppress : bool) (events : list Event) :
  let stats := sessionStats (foldl handle (new timeoutMs graceMs suppress) events) in
  totalBountiesCompleted stats = countedBounties (bountyTypeCounts stats).
Proof. apply run_statsConsistent. Qed.

(** X22.  No event lowers [totalKpEarned]: a snapshot, a settled
    computation and a forced recalculation leave it at least as large as
    it was, and unchanged when [totalBountiesCompleted] is unchanged. *)
Theorem session_kp_never_decreases (this : OCRProcessor.t) (event : Event) :
  let stats := sessionStats this in
  let stats' := sessionStats (handle this event) in
  (totalKpEarned stats ≤ totalKpEarned stats')%Qc ∧
  (totalBountiesCompleted stats' = totalBountiesCompleted stats →
   totalKpEarned stats' = totalKpEarned stats).
Proof.
  cbv zeta.
  destruct (handle_counters this event) as [Heq|(bounty & Heq)];
    unfold counters in Heq; injection Heq as Hkp Hcount Hmap; rewrite Hkp, Hcount.
  - split; [apply Qcle_refl|done].
  - split; [|lia].
    rewrite <- (Qcplus_0_r (totalKpEarned (sessionStats this))) at 1.
    apply Qcplus_le_compat; [apply Qcle_refl|apply Qclt_le_weak, kp_pos].
Qed.

(** X23.  When a bounty completes, the steps are cut after the first sale
    of that bounty: the sale and the steps before it go, [stepIdx] advances
    by their number, and [displaySteps] follows.  With no sale of the
    bounty among the steps, the steps and [stepIdx] stay. *)
Theorem completion_prunes_steps (this : OCRProcessor.t) (bounty : BountyKey) (boardOpen : bool) :
  let this' := bountyCompleted this bounty boardOpen in
  let isSale step := Action.type step = sell ∧ Action.item step = Some bounty in
  (Forall (λ step, ¬ isSale step) (steps this) ∧
   steps this' = steps this ∧ stepIdx this' = stepIdx this) ∨
  (∃ before sale,
     steps this = before ++ sale :: steps this' ∧
     Forall (λ step, ¬ isSale step) before ∧ isSale sale ∧
     stepIdx this' = (stepIdx this + length before + 1)%nat ∧
     displaySteps this' = steps this').
Proof.
  cbv zeta. pose proof (bountyCompleted_steps this bounty boardOpen) as Hsteps.
  cbv zeta in Hsteps.
  destruct (firstSale bounty (steps this)) as [idx|] eqn:Hfirst.
  - right. destruct Hsteps as (Hs & Hd & Hi).
    apply firstSale_Some in Hfirst as (sale & Heq & Hlen & Hbefore & Hsale).
    exists (take idx (steps this)), sale. rewrite Hs, Hlen.
    split; [done|]. split; [done|]. split; [done|]. split; [done|]. by rewrite <- Hs.
  - left. destruct Hsteps as (Hs & _ & Hi). split; [by apply firstSale_None|done].
Qed.

(** X24.  The steps kept "when adding bounties mid-route" are steps of the
    new route in their order, and every step that is not a purchase is
    kept. *)
Theorem filterSteps_keeps_order (currentlyHaveItems : gset BountyKey) (actions : list Action.t) :
  sublist (filterSteps currentlyHaveItems actions) actions ∧
  filter (λ step, Action.type step ≠ buy) (filterSteps currentlyHaveItems actions)
  = filter (λ step, Action.type step ≠ buy) actions.
Proof. split; [apply filterSteps_sublist|apply filterSteps_other]. Qed.



(** X26.  What a settled computation leaves in the cache and in the steps
    does not depend on the signature it was launched for: a result is
    accepted or rejected by its efficiency alone, also when another
    computation is tracked by then. *)
Theorem settled_result_applied_whatever_signature (this : OCRProcessor.t)
    (sig sig' : gmultiset BountyKey) (outcome : option Solution.t) :
  let this1 := findBestSettled this sig outcome in
  let this2 := findBestSettled this sig' outcome in
  cached this1 = cached this2 ∧ steps this1 = steps this2 ∧
  displaySteps this1 = displaySteps this2 ∧ stepIdx this1 = stepIdx this2.
Proof. apply findBestSettled_any_signature. Qed.

(** X27.  In an image of at least one pixel each way, the rectangle
    [clampRect] returns lies inside the image and is at least one pixel
    wide and high; a rectangle that does so already is returned as it
    is. *)
Theorem clampRect_inside (left top width height maxW maxH : Z) :
  1 ≤ maxW → 1 ≤ maxH →
  let rect := clampRect left top width height maxW maxH in
  (0 ≤ Rect.left rect ∧ 1 ≤ Rect.width rect ∧ Rect.left rect + Rect.width rect ≤ maxW) ∧
  (0 ≤ Rect.top rect ∧ 1 ≤ Rect.height rect ∧ Rect.top rect + Rect.height rect ≤ maxH) ∧
  (0 ≤ left → 1 ≤ width → left + width ≤ maxW →
   Rect.left rect = left ∧ Rect.width rect = width) ∧
  (0 ≤ top → 1 ≤ height → top + height ≤ maxH →
   Rect.top rect = top ∧ Rect.height rect = height).
Proof.
  intros HW HH. unfold clampRect. cbv zeta. cbn [Rect.left Rect.top Rect.width Rect.height].
  repeat case_decide; lia.
Qed.

Lemma clampRect_inside_witness :
  let rect := clampRect 1900 (-5) 300 50 1920 1080 in
  (0 ≤ Rect.left rect ∧ 1 ≤ Rect.width rect ∧ Rect.left rect + Rect.width rect ≤ 1920) ∧
  (0 ≤ Rect.top rect ∧ 1 ≤ Rect.height rect ∧ Rect.top rect + Rect.height rect ≤ 1080) ∧
  (0 ≤ 1900 → 1 ≤ 300 → 1900 + 300 ≤ 1920 →
   Rect.left rect = 1900 ∧ Rect.width rect = 300) ∧
  (0 ≤ -5 → 1 ≤ 50 → -5 + 50 ≤ 1080 →
   Rect.top rect = -5 ∧ Rect.height rect = 50).
Proof. apply clampRect_inside; lia. Defined.

(** X28.  After a snapshot the processor holds the snapshot: the held
    slots detected are [activeBounties] and [prevActiveBounties], the board
    slots detected are [boardBounties], and [prevBoardOpenSignature], which
    the overlay is sent as [boardOpen], is the [boardOpen] of the snapshot,
    whether a recomputation was triggered or not. *)
Theorem snapshot_mirrored (this : OCRProcessor.t) (detectedActive detectedBoard : Slots)
    (boardOpen : bool) (now : Z) :
  let this' := processOCRResults this detectedActive detectedBoard boardOpen now in
  activeBounties this' = detectedActive ∧ boardBounties this' = detectedBoard ∧
  prevActiveBounties this' = detectedActive ∧ prevBoardOpenSignature this' = boardOpen.
Proof. apply processOCRResults_mirror. Qed.
